(** * StockLab backtest engine: indicators, signals, trade simulation

    A shallow embedding of the numeric core of [src/App.tsx] ([clamp],
    [mean], [std], [sma], [rsi], [lastN], [computeATRSeries],
    [computeMaxDrawdownFromCurve], [computeVolumeRatioSeries],
    [buildBacktestSignalTrend], [buildBacktestSignalMeanRev],
    [backtestFromSignal]), of its weekly bars ([resampleToWeek]) and of its
    event dates ([toGdeltDatetime], [parseEventDateToIso],
    [buildEventCountByDate]), with the properties of this code that the
    specification states and further properties read off the code.

    TypeScript's [number] is modelled twice.

    In the first model a [num] is an exact rational, or one of the three
    non-finite values [NaN], [+Infinity], [-Infinity].  The non-finite
    values follow the rules of JavaScript arithmetic and comparison; finite
    arithmetic is exact and there is one zero (no [-0]).  What is proved in
    this model is of three kinds: structure, counting and comparison, where
    rounding has no part; bounds that rounding to nearest and overflow to
    [+Infinity] keep (a value that is [NaN] or not below a bound); and
    values computed from whole numbers whose sums stay within [2^53], which
    binary64 computes exactly.

    In the second model, the module [B64], a number is a binary64 value of
    IEEE 754 and every operation rounds as the machine does.  It carries
    the Sharpe ratio, whose zero-variance case is decided by rounding, and
    the runs on which overflow shows.

    Arrays are lists, [number | null] is [option num], the object
    [eventCountByDate] is a finite map of its own entries, read with the
    names that every object inherits in mind, and the counters of trades,
    wins and losses are natural numbers.  A text is a [string], read as the
    list of its code units; the type holds the texts whose code units are
    below 256. *)

From Stdlib Require Import QArith Qreduction Qabs Lqa Lia List Bool String
  Ascii Sorted SpecFloat.
From stdpp Require Import gmap strings.

(** ** Numbers *)

Inductive num : Type :=
| NaN
| NegInf
| PosInf
| Fin (q : Q).

Arguments Fin q%_Q.

Declare Scope num_scope.
Delimit Scope num_scope with num.
Bind Scope num_scope with num.

(** Finite results are kept in lowest terms, so that equal values are
    equal terms once computed. *)
Definition fin (q : Q) : num := Fin (Qred q).

Definition sgn (q : Q) : Z := Z.sgn (Qnum q).

Definition inf_of_sign (s : Z) : num :=
  match s with
  | Z0 => NaN
  | Zpos _ => PosInf
  | Zneg _ => NegInf
  end.

Definition Qltb (a b : Q) : bool := negb (Qle_bool b a).

Definition neg (x : num) : num :=
  match x with
  | NaN => NaN
  | NegInf => PosInf
  | PosInf => NegInf
  | Fin a => fin (- a)
  end.

Definition add (x y : num) : num :=
  match x, y with
  | NaN, _ | _, NaN => NaN
  | PosInf, NegInf | NegInf, PosInf => NaN
  | PosInf, _ | _, PosInf => PosInf
  | NegInf, _ | _, NegInf => NegInf
  | Fin a, Fin b => fin (a + b)
  end.

Definition sub (x y : num) : num :=
  match x, y with
  | NaN, _ | _, NaN => NaN
  | PosInf, PosInf | NegInf, NegInf => NaN
  | PosInf, _ | _, NegInf => PosInf
  | NegInf, _ | _, PosInf => NegInf
  | Fin a, Fin b => fin (a - b)
  end.

Definition mul (x y : num) : num :=
  match x, y with
  | NaN, _ | _, NaN => NaN
  | Fin a, Fin b => fin (a * b)
  | Fin a, PosInf | PosInf, Fin a => inf_of_sign (sgn a)
  | Fin a, NegInf | NegInf, Fin a => inf_of_sign (- sgn a)
  | PosInf, PosInf | NegInf, NegInf => PosInf
  | PosInf, NegInf | NegInf, PosInf => NegInf
  end.

Definition div (x y : num) : num :=
  match x, y with
  | NaN, _ | _, NaN => NaN
  | Fin a, Fin b => if Qeq_bool b 0 then inf_of_sign (sgn a) else fin (a / b)
  | Fin _, (PosInf | NegInf) => Fin 0
  | (PosInf | NegInf), (PosInf | NegInf) => NaN
  | PosInf, Fin b => if Qltb b 0 then NegInf else PosInf
  | NegInf, Fin b => if Qltb b 0 then PosInf else NegInf
  end.

(** [x < y], [x <= y], [x > y], [x >= y]: false as soon as one side is
    [NaN]. *)
Definition ltb (x y : num) : bool :=
  match x, y with
  | NaN, _ | _, NaN => false
  | _, NegInf | PosInf, _ => false
  | NegInf, _ | _, PosInf => true
  | Fin a, Fin b => Qltb a b
  end.

Definition leb (x y : num) : bool :=
  match x, y with
  | NaN, _ | _, NaN => false
  | NegInf, _ | _, PosInf => true
  | _, NegInf | PosInf, _ => false
  | Fin a, Fin b => Qle_bool a b
  end.

Definition gtb (x y : num) : bool := ltb y x.
Definition geb (x y : num) : bool := leb y x.

(** [x === y] on numbers. *)
Definition eqb (x y : num) : bool :=
  match x, y with
  | NegInf, NegInf | PosInf, PosInf => true
  | Fin a, Fin b => Qeq_bool a b
  | _, _ => false
  end.

(** [Number.isFinite]. *)
Definition isFinite (x : num) : bool :=
  match x with
  | Fin _ => true
  | _ => false
  end.

(** Truthiness of a number: every number but [0] and [NaN]. *)
Definition truthy (x : num) : bool :=
  match x with
  | NaN => false
  | Fin a => negb (Qeq_bool a 0)
  | _ => true
  end.

(** [x || y] on numbers. *)
Definition or_else (x y : num) : num := if truthy x then x else y.

(** [Math.max] and [Math.min] of two arguments. *)
Definition Math_max (x y : num) : num :=
  match x, y with
  | NaN, _ | _, NaN => NaN
  | _, _ => if leb x y then y else x
  end.

Definition Math_min (x y : num) : num :=
  match x, y with
  | NaN, _ | _, NaN => NaN
  | _, _ => if leb x y then x else y
  end.

(** A loop counter or an array length used as a number. *)
Definition of_nat (n : nat) : num := Fin (inject_Z (Z.of_nat n)).

Infix "+" := add : num_scope.
Infix "-" := sub : num_scope.
Infix "*" := mul : num_scope.
Infix "/" := div : num_scope.
Notation "- x" := (neg x) : num_scope.
Infix "<?" := ltb : num_scope.
Infix "<=?" := leb : num_scope.
Infix ">?" := gtb : num_scope.
Infix ">=?" := geb : num_scope.
Infix "=?" := eqb : num_scope.

(** Two numbers are the same value: the same non-finite value, or equal
    rationals. *)
Definition same (x y : num) : Prop :=
  match x, y with
  | NaN, NaN | NegInf, NegInf | PosInf, PosInf => True
  | Fin a, Fin b => (a == b)%Q
  | _, _ => False
  end.

(** A finite number that is not below zero. *)
Definition nonneg (x : num) : Prop :=
  match x with
  | Fin a => (0 <= a)%Q
  | _ => False
  end.

(** A finite number between two rationals. *)
Definition between (lo hi : Q) (x : num) : Prop :=
  match x with
  | Fin a => (lo <= a <= hi)%Q
  | _ => False
  end.

(** A finite number that is not below a rational. *)
Definition atleast (lo : Q) (x : num) : Prop :=
  match x with
  | Fin a => (lo <= a)%Q
  | _ => False
  end.

(** [function clamp(x, a, b) { return Math.max(a, Math.min(b, x)); }] *)
Definition clamp (x a b : num) : num := Math_max a (Math_min b x).

(** ** Data model *)

(** [type OHLCV]: one bar; [t] is the date, [YYYY-MM-DD]. *)
Record OHLCV : Type := mkOHLCV {
  t : string;
  open : num;
  high : num;
  low : num;
  close : num;
  volume : num
}.

(** The position variable [pos] of the source takes the values [0] and
    [1] only. *)
Inductive position : Type :=
| FLAT
| LONG.

Definition position_eqb (p q : position) : bool :=
  match p, q with
  | FLAT, FLAT | LONG, LONG => true
  | _, _ => false
  end.

Definition num_of_position (p : position) : num :=
  match p with
  | FLAT => Fin 0
  | LONG => Fin 1
  end.

(** Reading [xs[i]] in an [Array<number | null>]: [None] stands for [null]
    and for the [undefined] of an index out of range, which [== null] does
    not tell apart. *)
Definition at_index (xs : list (option num)) (i : nat) : option num :=
  match xs !! i with
  | Some (Some v) => Some v
  | _ => None
  end.

(** ** Statistics helpers *)

(** [function mean(xs)] *)
Definition mean (xs : list num) : num :=
  let ys := filter (fun x => isFinite x = true) xs in
  if Nat.eqb (length ys) 0 then NaN
  else (fold_left add ys (Fin 0) / of_nat (length ys))%num.

(** The quantity [v] of [std]: the sample variance of a list of numbers
    with mean [m]. *)
Definition variance (ys : list num) : num :=
  let m := mean ys in
  (fold_left (fun a b => a + (b - m) * (b - m)) ys (Fin 0)
   / (of_nat (length ys) - Fin 1))%num.

(** [function computeMaxDrawdownFromCurve(curve)] *)
Definition drawdown_step (acc : num * num) (p : string * num) : num * num :=
  let '(peak, mdd) := acc in
  let e := p.2 in
  let peak := if (e >? peak)%num then e else peak in
  let dd := if (peak >? Fin 0)%num then ((e - peak) / peak)%num else Fin 0 in
  let mdd := if (dd <? mdd)%num then dd else mdd in
  (peak, mdd).

Definition computeMaxDrawdownFromCurve (curve : list (string * num)) : num :=
  (fold_left drawdown_step curve (NegInf, Fin 0)).2.

(** ** Relative-strength oscillator *)

(** The value written to [out[i]]:
    [rs = losses === 0 ? Infinity : gains / losses;
     out[i] = 100 - 100 / (1 + rs)]. *)
Definition rsi_value (gains losses : num) : num :=
  let rs := if (losses =? Fin 0)%num then PosInf else (gains / losses)%num in
  (Fin 100 - Fin 100 / (Fin 1 + rs))%num.

(** One turn of the loop of [rsi] at index [i], from [closes[i-1]] and
    [closes[i]] and the running [gains] and [losses]; it gives the new
    [gains] and [losses] and the entry [out[i]]. *)
Definition rsi_step (period : num) (i : nat) (prev cur gains losses : num)
  : num * num * option num :=
  let chg := (cur - prev)%num in
  let g := Math_max (Fin 0) chg in
  let l := Math_max (Fin 0) (- chg)%num in
  if (of_nat i <=? period)%num then
    let gains := (gains + g)%num in
    let losses := (losses + l)%num in
    (gains, losses,
     if (of_nat i =? period)%num then Some (rsi_value gains losses) else None)
  else
    let gains := ((gains * (period - Fin 1) + g) / period)%num in
    let losses := ((losses * (period - Fin 1) + l) / period)%num in
    (gains, losses, Some (rsi_value gains losses)).

(** The loop [for (let i = 1; i < closes.length; i++)], entered at index
    [i] with [prev = closes[i-1]] and [rest = closes[i..]]. *)
Fixpoint rsi_loop (period : num) (i : nat) (prev : num) (rest : list num)
    (gains losses : num) : list (option num) :=
  match rest with
  | [] => []
  | cur :: rest' =>
      let '(gains', losses', o) := rsi_step period i prev cur gains losses in
      o :: rsi_loop period (S i) cur rest' gains' losses'
  end.

(** [function rsi(closes, period)] *)
Definition rsi (closes : list num) (period : num) : list (option num) :=
  match closes with
  | [] => []
  | c0 :: rest => None :: rsi_loop period 1 c0 rest (Fin 0) (Fin 0)
  end.

(** ** Mean-reversion signal *)

(** One turn of the loop of [buildBacktestSignalMeanRev]: the new [pos],
    which is also the value stored in [sig[i]]. *)
Definition meanrev_step (entry exit : num) (pos : position) (ri : option num)
  : position :=
  match ri with
  | None => pos
  | Some rv =>
      if position_eqb pos FLAT && (rv <? entry)%num then LONG
      else if position_eqb pos LONG && (rv >? exit)%num then FLAT
      else pos
  end.

(** The loop [for (let i = 0; i < rows.length; i++)] over the oscillator
    series: the list of the values of [pos] stored in [sig[i]]. *)
Fixpoint meanrev_loop (entry exit : num) (pos : position)
    (r : list (option num)) : list position :=
  match r with
  | [] => []
  | ri :: r' =>
      let pos' := meanrev_step entry exit pos ri in
      pos' :: meanrev_loop entry exit pos' r'
  end.

(** [function buildBacktestSignalMeanRev(rows, rsiPeriod, entry, exit)]:
    the pair of [signal] and [rsiSeries]. *)
Definition buildBacktestSignalMeanRev (rows : list OHLCV)
    (rsiPeriod entry exit : num) : list num * list (option num) :=
  let closes := map close rows in
  let r := rsi closes rsiPeriod in
  (map num_of_position (meanrev_loop entry exit FLAT r), r).

(** ** Trade simulation *)

(** The argument record of [backtestFromSignal]. *)
Record Args : Type := mkArgs {
  rows : list OHLCV;
  signal : list num;
  atr : list (option num);
  volumeRatio : list (option num);
  eventCountByDate : gmap string num;
  feeBps : num;
  slipBps : num;
  atrStopK : num;
  volumeGateOn : bool;
  volumeGateThr : num;
  eventScaleOn : bool;
  eventCountThr : num;
  eventScale : num
}.

(** The variables that the loop of [backtestFromSignal] updates. *)
Record State : Type := mkState {
  equity : num;
  pos : position;
  entryPrice : num;
  stopLevel : num;
  trades : nat;
  wins : nat;
  losses : nat;
  curve : list (string * num);
  daily : list num
}.

Definition init : State :=
  mkState (Fin 1) FLAT NaN NaN 0 0 0 [] [].

(** [const cost = clamp((args.feeBps + args.slipBps) / 10000, 0, 0.1)] *)
Definition cost (a : Args) : num :=
  clamp ((feeBps a + slipBps a) / Fin 10000)%num (Fin 0) (Fin (1 # 10)).

(** The names that every object inherits from [Object.prototype]: reading
    one of them from an object that has no entry of its own under that name
    gives a function (an object for [__proto__]), not [undefined]. *)
Definition inheritedNames : list string :=
  ["constructor"; "__defineGetter__"; "__defineSetter__"; "hasOwnProperty";
   "__lookupGetter__"; "__lookupSetter__"; "isPrototypeOf";
   "propertyIsEnumerable"; "toString"; "valueOf"; "__proto__";
   "toLocaleString"].

(** [obj[key] || 0] used as a number, for an object [obj] of counts: the
    entry of [key] when the object has one and it is truthy; 0 for a falsy
    or a missing entry; and for an inherited name without an entry, whose
    value is truthy and no number, [NaN], which is what the comparison
    [c >= thr] makes of it. *)
Definition countAt (m : gmap string num) (key : string) : num :=
  match m !! key with
  | Some v => or_else v (Fin 0)
  | None => if bool_decide (key ∈ inheritedNames) then NaN else Fin 0
  end.

(** [function exposureForDay(dayIso)] *)
Definition exposureForDay (a : Args) (dayIso : string) : num :=
  if negb (eventScaleOn a) then Fin 1
  else
    let c := countAt (eventCountByDate a) dayIso in
    if (c >=? eventCountThr a)%num then clamp (eventScale a) (Fin 0) (Fin 1)
    else Fin 1.

(** [const desired = args.signal[i - 1] ? 1 : 0] *)
Definition desiredAt (a : Args) (i : nat) : position :=
  match signal a !! (i - 1)%nat with
  | Some v => if truthy v then LONG else FLAT
  | None => FLAT
  end.

(** The volume gate: [allowEntry] after the lines
    [if (args.volumeGateOn && pos === 0 && desired === 1) ...]. *)
Definition allowEntry (a : Args) (i : nat) (pos desired : position) : bool :=
  if volumeGateOn a && position_eqb pos FLAT && position_eqb desired LONG then
    match at_index (volumeRatio a) (i - 1) with
    | None => false
    | Some vr => (vr >=? volumeGateThr a)%num
    end
  else true.

(** The stop level set at an entry at [entryPrice] on bar [i]. *)
Definition stopLevelAt (a : Args) (i : nat) (entryPrice : num) : num :=
  match at_index (atr a) (i - 1) with
  | Some v =>
      if isFinite v && (v >? Fin 0)%num then (entryPrice - atrStopK a * v)%num
      else NaN
  | None => NaN
  end.

(** "Position change at prev close (i-1)": the block [if (desired !== pos)]
    of bar [i]. *)
Definition positionChange (a : Args) (i : nat) (prevClose : num) (s : State)
  : State :=
  let desired := desiredAt a i in
  let allow := allowEntry a i (pos s) desired in
  if position_eqb desired (pos s) then s
  else if position_eqb desired LONG && negb allow then s
  else
    let equity' := (equity s * (Fin 1 - cost a))%num in
    let trades' := S (trades s) in
    match desired with
    | LONG =>
        mkState equity' LONG prevClose (stopLevelAt a i prevClose)
                trades' (wins s) (losses s) (curve s) (daily s)
    | FLAT =>
        let wl :=
          if isFinite (entryPrice s) && (prevClose >? Fin 0)%num then
            let pnl := (prevClose / entryPrice s - Fin 1)%num in
            if (pnl >=? Fin 0)%num then (S (wins s), losses s)
            else (wins s, S (losses s))
          else (wins s, losses s) in
        mkState equity' FLAT NaN NaN trades' wl.1 wl.2 (curve s) (daily s)
    end.

(** [const expo = pos === 1 ? exposureForDay(today.t) : 0] *)
Definition expoFor (a : Args) (today : OHLCV) (s : State) : num :=
  match pos s with
  | LONG => exposureForDay a (t today)
  | FLAT => Fin 0
  end.

(** The test of the stop: [Number.isFinite(stopLevel) &&
    today.low <= stopLevel && prevClose > 0]. *)
Definition stopHit (prevClose : num) (today : OHLCV) (s : State) : bool :=
  isFinite (stopLevel s) && (low today <=? stopLevel s)%num
  && (prevClose >? Fin 0)%num.

(** "Daily return": the rest of bar [i], from the exposure to the two
    [push]es. *)
Definition dailyReturn (a : Args) (prevClose : num) (today : OHLCV)
    (s : State) : State :=
  let expo := expoFor a today s in
  if position_eqb (pos s) LONG && (expo >? Fin 0)%num then
    if stopHit prevClose today s then
      let rStop := (stopLevel s / prevClose - Fin 1)%num in
      let r := (expo * rStop)%num in
      let equity1 := (equity s * (Fin 1 + r))%num in
      let equity2 := (equity1 * (Fin 1 - cost a))%num in
      let wl :=
        if isFinite (entryPrice s) && (entryPrice s >? Fin 0)%num then
          let pnl := (stopLevel s / entryPrice s - Fin 1)%num in
          if (pnl >=? Fin 0)%num then (S (wins s), losses s)
          else (wins s, S (losses s))
        else (wins s, losses s) in
      mkState equity2 FLAT NaN NaN (S (trades s)) wl.1 wl.2
              (curve s ++ [(t today, equity2)]) (daily s ++ [r])
    else
      let rr := if (prevClose >? Fin 0)%num
                then (close today / prevClose - Fin 1)%num else Fin 0 in
      let r := (expo * rr)%num in
      let equity1 := (equity s * (Fin 1 + r))%num in
      mkState equity1 (pos s) (entryPrice s) (stopLevel s)
              (trades s) (wins s) (losses s)
              (curve s ++ [(t today, equity1)]) (daily s ++ [r])
  else
    let equity1 := (equity s * Fin 1)%num in
    mkState equity1 (pos s) (entryPrice s) (stopLevel s)
            (trades s) (wins s) (losses s)
            (curve s ++ [(t today, equity1)]) (daily s ++ [Fin 0]).

(** The body of the loop for bar [i], with [prev = rows[i-1]] and
    [today = rows[i]]. *)
Definition bar (a : Args) (i : nat) (prev today : OHLCV) (s : State) : State :=
  dailyReturn a (close prev) today (positionChange a i (close prev) s).

(** The loop [for (let i = 1; i < n; i++)], entered at bar [i] with
    [prev = rows[i-1]] and [rest = rows[i..]]. *)
Fixpoint loop (a : Args) (i : nat) (prev : OHLCV) (rest : list OHLCV)
    (s : State) : State :=
  match rest with
  | [] => s
  | today :: rest' => loop a (S i) today rest' (bar a i prev today s)
  end.

(** The state at the end of the loop; [None] when [n < 2]. *)
Definition simulate (a : Args) : option State :=
  match rows a with
  | r0 :: ((_ :: _) as rest) => Some (loop a 1 r0 rest init)
  | _ => None
  end.

(** [BacktestResult] and its [stats]. *)
Record Stats : Type := mkStats {
  totalReturn : num;
  cagr : num;
  sharpe : num;
  maxDrawdown : num;
  costBps : num
}.

Record BacktestResult : Type := mkResult {
  res_curve : list (string * num);
  res_daily : list num;
  res_trades : nat;
  res_wins : nat;
  res_losses : nat;
  stats : Stats
}.

Section WithMath.

(** [Math.sqrt] and [Math.pow] are not code of the repository: they are
    taken as they come. *)
Variable Math_sqrt : num -> num.
Variable Math_pow : num -> num -> num.

(** [function std(xs)] *)
Definition std (xs : list num) : num :=
  let ys := filter (fun x => isFinite x = true) xs in
  if (length ys <? 2)%nat then NaN
  else Math_sqrt (variance ys).

(** The lines after the loop: the statistics of a final state. *)
Definition finalize (a : Args) (s : State) : BacktestResult :=
  let totalReturn := (equity s - Fin 1)%num in
  let nn := or_else (of_nat (length (daily s))) (Fin 1) in
  let cagr := (Math_pow (Fin 1 + totalReturn) (Fin 252 / nn) - Fin 1)%num in
  let sharpe :=
    (mean (daily s) / or_else (std (daily s)) NaN * Math_sqrt (Fin 252))%num in
  let maxDrawdown := computeMaxDrawdownFromCurve (curve s) in
  mkResult (curve s) (daily s) (trades s) (wins s) (losses s)
           (mkStats totalReturn cagr sharpe maxDrawdown
                    (feeBps a + slipBps a)%num).

(** [function backtestFromSignal(args)]; [None] is the [null] returned
    when there are fewer than two bars. *)
Definition backtestFromSignal (a : Args) : option BacktestResult :=
  match simulate a with
  | Some s => Some (finalize a s)
  | None => None
  end.

End WithMath.

(** ** Further numeric helpers *)

(** [Math.abs]. *)
Definition Math_abs (x : num) : num :=
  match x with
  | NaN => NaN
  | NegInf | PosInf => PosInf
  | Fin a => fin (Qabs a)
  end.

(** The sum of a list of rationals. *)
Definition qsum (l : list Q) : Q := fold_right Qplus 0%Q l.

(** A finite number whose value is the rational [q]. *)
Definition hasval (x : num) (q : Q) : Prop :=
  match x with
  | Fin a => (a == q)%Q
  | _ => False
  end.

(** ** Moving average *)

(** The sliding window of [sma] and of [computeVolumeRatioSeries]: the
    lines [q.push(v); s += v; if (q.length > win) s -= q.shift()]. *)
Definition slide (win : num) (q : list num) (s v : num) : list num * num :=
  let q := q ++ [v] in
  let s := (s + v)%num in
  if (of_nat (length q) >? win)%num then
    match q with
    | h :: q' => (q', (s - h)%num)
    | [] => ([], NaN)
    end
  else (q, s).

(** The loop that [sma] and [computeVolumeRatioSeries] both run over their
    input, entered with the queue [q] and the running sum [s]; [out] is what
    each of them writes at index [i] from the value [v] just read and the
    window after the slide. *)
Fixpoint window_loop (out : num -> list num -> num -> option num)
    (win : num) (values : list num) (q : list num) (s : num)
  : list (option num) :=
  match values with
  | [] => []
  | v :: values' =>
      let qs := slide win q s v in
      out v qs.1 qs.2 :: window_loop out win values' qs.1 qs.2
  end.

(** [if (q.length === win) out[i] = s / win] *)
Definition sma_out (win : num) (v : num) (q : list num) (s : num)
  : option num :=
  if (of_nat (length q) =? win)%num then Some (s / win)%num else None.

(** [function sma(values, win)] *)
Definition sma (values : list num) (win : num) : list (option num) :=
  window_loop (sma_out win) win values [] (Fin 0).

(** ** Rolling volume ratio *)

(** [if (q.length === win) { const avg = s / win;
     out[i] = avg > 0 ? v / avg : null; }] *)
Definition volumeRatio_out (win : num) (v : num) (q : list num) (s : num)
  : option num :=
  if (of_nat (length q) =? win)%num then
    let avg := (s / win)%num in
    if (avg >? Fin 0)%num then Some (v / avg)%num else None
  else None.

(** [function computeVolumeRatioSeries(rows, win)] *)
Definition computeVolumeRatioSeries (rows : list OHLCV) (win : num)
  : list (option num) :=
  window_loop (volumeRatio_out win) win (map volume rows) [] (Fin 0).

(** ** Average true range *)






(** ** Trend-following signal *)

(** The value of [sig[i]] from [closes[i]], [f[i]] and [s[i]]. *)
Definition trend_at (cl : num) (fi si : option num) : num :=
  match fi, si with
  | Some fi, Some si =>
      if (fi >? si)%num && (cl >? si)%num then Fin 1 else Fin 0
  | _, _ => Fin 0
  end.

(** [function buildBacktestSignalTrend(rows, fast, slow)]: the triple of
    [signal], [smaFast] and [smaSlow]. *)
Definition buildBacktestSignalTrend (rows : list OHLCV) (fast slow : num)
  : list num * list (option num) * list (option num) :=
  let closes := map close rows in
  let f := sma closes fast in
  let s := sma closes slow in
  (imap (fun i r => trend_at (close r) (at_index f i) (at_index s i)) rows,
   f, s).

(** ** Last elements of an array *)

(** [Array.prototype.slice(start)] with a number for [start]: [NaN] counts
    as 0, a fraction is cut towards zero, and a negative index counts from
    the end. *)
Definition slice_from {A : Type} (xs : list A) (start : num) : list A :=
  match start with
  | NaN | NegInf => xs
  | PosInf => []
  | Fin q =>
      let k := Z.quot (Qnum q) (Zpos (Qden q)) in
      if (k <? 0)%Z then drop (length xs - Z.to_nat (- k)) xs
      else drop (Z.to_nat k) xs
  end.

(** [function lastN(xs, n)] *)
Definition lastN {A : Type} (xs : list A) (n : num) : list A :=
  if (n <=? Fin 0)%num then []
  else slice_from xs (Math_max (Fin 0) (of_nat (length xs) - n)%num).

(** ** Weekly bars *)

Section WithWeekId.

(** [isoWeekId(iso)]: the key of the ISO week of a date, such as
    [2026-W08], or the empty text for a text that is no date.  The source
    computes it with the [Date] object of the runtime; the weekly bars are
    modelled over any function from dates to keys. *)
Variable isoWeekId : string -> string.

(** The bar that opens a week: a copy of the row [r]. *)
Definition week_open (r : OHLCV) : OHLCV :=
  mkOHLCV (t r) (open r) (high r) (low r) (close r) (volume r).

(** The bar in progress [cur] after a further row [r] of the same week. *)
Definition week_extend (cur r : OHLCV) : OHLCV :=
  mkOHLCV (t r) (open cur)
          (Math_max (high cur) (high r)) (Math_min (low cur) (low r))
          (close r) (volume cur + volume r)%num.

(** The loop [for (let i = 0; i < rows.length; i++)] of [resampleToWeek]
    over the rows left, with the finished bars [out], the key [curKey] and
    the bar in progress [cur], followed by the final [if (cur)
    out.push(cur)]. *)
Fixpoint resample_loop (rows : list OHLCV) (out : list OHLCV)
    (curKey : string) (cur : option OHLCV) : list OHLCV :=
  match rows with
  | [] =>
      match cur with
      | Some c => out ++ [c]
      | None => out
      end
  | r :: rows' =>
      let k := isoWeekId (t r) in
      if String.eqb k "" then resample_loop rows' out curKey cur
      else
        match cur with
        | None => resample_loop rows' out k (Some (week_open r))
        | Some c =>
            if negb (String.eqb k curKey) then
              resample_loop rows' (out ++ [c]) k (Some (week_open r))
            else resample_loop rows' out curKey (Some (week_extend c r))
        end
  end.

(** [function resampleToWeek(rows)] *)
Definition resampleToWeek (rows : list OHLCV) : list OHLCV :=
  match rows with
  | [] => []
  | _ => resample_loop rows [] "" None
  end.

End WithWeekId.

(** ** Event dates *)

(** A text is handled as the list of its code units; the type [string]
    holds the texts whose code units are below 256. *)
Definition chars (s : string) : list ascii := list_ascii_of_string s.
Definition text (l : list ascii) : string := string_of_list_ascii l.

(** The code units below 256 that [trim] removes: tab, line feed, vertical
    tab, form feed, carriage return, space and no-break space. *)
Definition isWhiteSpace (c : ascii) : bool :=
  let n := nat_of_ascii c in
  (Nat.leb 9 n && Nat.leb n 13) || Nat.eqb n 32 || Nat.eqb n 160.

(** [c >= 48 && c <= 57] on the code [c] of a unit. *)
Definition isDigit (c : ascii) : bool :=
  let n := nat_of_ascii c in
  Nat.leb 48 n && Nat.leb n 57.

Fixpoint trimStart (s : list ascii) : list ascii :=
  match s with
  | c :: s' => if isWhiteSpace c then trimStart s' else s
  | [] => []
  end.

Fixpoint trimEnd (s : list ascii) : list ascii :=
  match s with
  | [] => []
  | c :: s' =>
      match trimEnd s' with
      | [] => if isWhiteSpace c then [] else [c]
      | r => c :: r
      end
  end.

(** [s.trim()] *)
Definition trim (s : list ascii) : list ascii := trimEnd (trimStart s).

(** [s.split(sep)] for a separator of one unit. *)
Fixpoint split_on (sep : ascii) (s : list ascii) : list (list ascii) :=
  match s with
  | [] => [[]]
  | c :: s' =>
      if Ascii.eqb c sep then [] :: split_on sep s'
      else
        match split_on sep s' with
        | h :: tl => (c :: h) :: tl
        | [] => [[c]]
        end
  end.

(** [function parseEventDateToIso(seendate?)]; a missing [seendate] is
    [None]. *)
Definition parseEventDateToIso (seendate : option string) : string :=
  let s0 := trim (chars (default "" seendate)) in
  if Nat.eqb (length s0) 0 then ""
  else if existsb (Ascii.eqb "-") s0 && Nat.leb 10 (length s0) then
    text (take 10 s0)
  else
    let digits := filter (fun c => isDigit c = true) s0 in
    if Nat.ltb (length digits) 8 then ""
    else
      let y := take 4 digits in
      let m := take 2 (drop 4 digits) in
      let d := take 2 (drop 6 digits) in
      text (y ++ ["-"%char] ++ m ++ ["-"%char] ++ d).

(** [function toGdeltDatetime(yyyy_mm_dd, hhmmss)] *)
Definition toGdeltDatetime (yyyy_mm_dd hhmmss : string) : string :=
  match split_on "-" (chars yyyy_mm_dd) with
  | [p0; p1; p2] => text (p0 ++ p1 ++ p2 ++ chars hhmmss)
  | _ => ""
  end.

(** [type NewsEvent] *)
Record NewsEvent : Type := mkNewsEvent {
  seendate : option string;
  title : string;
  url : string;
  domain : option string;
  language : option string;
  sourceCountry : option string;
  tone : option num;
  score : option num
}.

(** One turn of the loop of [buildEventCountByDate]:
    [if (!iso) continue; map[iso] = (map[iso] || 0) + 1].  The keys written
    are texts of ten units, and no property that an object inherits has a
    name of that length, so the object [map] is a finite map. *)
Definition eventCount_step (m : gmap string num) (ev : NewsEvent)
  : gmap string num :=
  let iso := parseEventDateToIso (seendate ev) in
  if String.eqb iso "" then m
  else
    let c := match m !! iso with
             | Some v => or_else v (Fin 0)
             | None => Fin 0
             end in
    <[iso := (c + Fin 1)%num]> m.

(** [function buildEventCountByDate(events)] *)
Definition buildEventCountByDate (events : list NewsEvent) : gmap string num :=
  fold_left eventCount_step events ∅.

(** ** Runnable stand-ins for the two library functions

    [Math.sqrt] and [Math.pow] have irrational values; to run the
    definitions on concrete inputs, these two functions give the square
    root rounded down on a grid of the denominator (exact on squares) and
    the powers with a natural exponent (exact), [NaN] elsewhere. *)

Definition sqrt_floor (x : num) : num :=
  match x with
  | NaN | NegInf => NaN
  | PosInf => PosInf
  | Fin q =>
      if Qltb q 0 then NaN
      else fin (Z.sqrt (Qnum q * Zpos (Qden q)) # Qden q)
  end.

Fixpoint pow_nat (x : num) (n : nat) : num :=
  match n with
  | O => Fin 1
  | S n' => (x * pow_nat x n')%num
  end.

Definition pow_natural (x y : num) : num :=
  match y with
  | Fin (Qmake (Zpos p) 1) => pow_nat x (Pos.to_nat p)
  | Fin (Qmake Z0 _) => Fin 1
  | _ => NaN
  end.

(** ** Variations of the arguments used in the statements *)

(** The same arguments with another setting of the volume gate. *)
Definition withGate (a : Args) (on : bool) (thr : num)
    (vr : list (option num)) : Args :=
  mkArgs (rows a) (signal a) (atr a) vr (eventCountByDate a)
         (feeBps a) (slipBps a) (atrStopK a) on thr
         (eventScaleOn a) (eventCountThr a) (eventScale a).

(** ** Predicates on states and bars used in the statements *)

(** Wins and losses together do not exceed the trades. *)
Definition counted (s : State) : Prop := (wins s + losses s <= trades s)%nat.

(** The state of a run that has never traded: it is FLAT, it has counted
    nothing, and the return of every bar so far is the [0] of a bar spent
    out of the market. *)
Definition untouched (s : State) : Prop :=
  pos s = FLAT /\ trades s = 0%nat /\ wins s = 0%nat /\ losses s = 0%nat
  /\ Forall (fun r => r = Fin 0) (daily s).

(** The state of a run whose equity, at the end of every bar so far, is a
    finite number not below zero, every recorded return being at least
    [-1]. *)
Definition solvent (s : State) : Prop :=
  nonneg (equity s)
  /\ Forall (fun p : string * num => nonneg p.2) (curve s)
  /\ Forall (atleast (-1)) (daily s).

(** A bar whose low and close are finite and not negative. *)
Definition priced (b : OHLCV) : Prop := nonneg (low b) /\ nonneg (close b).

(** A number that is not below the rational [lo], in the sense that the
    test [x < lo] is false: a finite number that is at least [lo],
    [+Infinity], or [NaN]. *)
Definition notBelow (lo : Q) (x : num) : Prop :=
  match x with
  | NaN | PosInf => True
  | NegInf => False
  | Fin a => (lo <= a)%Q
  end.



(** The count [c] that [exposureForDay] compares with the threshold. *)
Definition eventCount (a : Args) (dayIso : string) : num :=
  countAt (eventCountByDate a) dayIso.

(** The same arguments with another signal. *)
Definition withSignal (a : Args) (sig : list num) : Args :=
  mkArgs (rows a) sig (atr a) (volumeRatio a) (eventCountByDate a)
         (feeBps a) (slipBps a) (atrStopK a) (volumeGateOn a)
         (volumeGateThr a) (eventScaleOn a) (eventCountThr a) (eventScale a).

(** On no bar does the signal ask for a position that the volume gate lets
    through. *)
Definition neverEnters (a : Args) : Prop :=
  forall i, desiredAt a i = LONG -> allowEntry a i FLAT LONG = false.

(** The state of a run that has stayed out of the market: it has never
    traded and its equity is still 1 at the end of every bar. *)
Definition idle (s : State) : Prop :=
  untouched s /\ equity s = Fin 1
  /\ Forall (fun p : string * num => p.2 = Fin 1) (curve s).

(** The finite values of a queue, in order. *)
Definition fin_vals (q : list num) : list Q :=
  omap (fun x => match x with Fin a => Some a | _ => None end) q.



(** ** Concrete runs used in the statements *)

(** Three rising bars, with the settings of the self-test of the source
    (no cost, gate and scaling off) and no ATR. *)
Definition rising_r0 : OHLCV :=
  mkOHLCV "2026-01-05" (Fin 100) (Fin 101) (Fin 99) (Fin 100) (Fin 1000).
Definition rising_r1 : OHLCV :=
  mkOHLCV "2026-01-06" (Fin 105) (Fin 106) (Fin 104) (Fin 105) (Fin 1000).
Definition rising_r2 : OHLCV :=
  mkOHLCV "2026-01-07" (Fin 110) (Fin 111) (Fin 109) (Fin 110) (Fin 1000).

Definition rising_rows : list OHLCV := [rising_r0; rising_r1; rising_r2].

Definition rising_args : Args :=
  mkArgs rising_rows [Fin 1; Fin 1; Fin 1] [None; None; None]
         [None; None; None] ∅
         (Fin 0) (Fin 0) (Fin 3) false (Fin 1) false (Fin 10) (Fin (1 # 2)).

(** The same bars behind a volume gate whose threshold, 5, is above the
    three volume ratios. *)
Definition gated_args : Args :=
  withGate rising_args true (Fin 5)
           [Some (Fin (4 # 5)); Some (Fin 1); Some (Fin (6 # 5))].

(** The same bars with event scaling on, a scale factor of 0 and twelve
    events, against a threshold of ten, on the day of the second bar. *)
Definition eventDay_args : Args :=
  mkArgs rising_rows [Fin 1; Fin 1; Fin 1] [None; None; None]
         [None; None; None] {[ "2026-01-06" := Fin 12 ]}
         (Fin 0) (Fin 0) (Fin 3) false (Fin 1) true (Fin 10) (Fin 0).

(** Two bars, the second one falling to 90 during the day; ATR is 2 on
    bar 0 and the stop multiplier is 3, so that the entry at 100 sets the
    stop at 94; fee and slippage are 5 bps each. *)
Definition stopped_r0 : OHLCV :=
  mkOHLCV "2026-01-05" (Fin 100) (Fin 101) (Fin 99) (Fin 100) (Fin 1000).
Definition stopped_r1 : OHLCV :=
  mkOHLCV "2026-01-06" (Fin 99) (Fin 99) (Fin 90) (Fin 95) (Fin 1000).

Definition stopped_args : Args :=
  mkArgs [stopped_r0; stopped_r1] [Fin 1; Fin 1] [Some (Fin 2); Some (Fin 2)]
         [None; None] ∅
         (Fin 5) (Fin 5) (Fin 3) false (Fin 1) false (Fin 10) (Fin (1 # 2)).

(** Six bars that fall and then rise, for the oscillator of period 2. *)
Definition swing_rows : list OHLCV :=
  map (fun c => mkOHLCV "2026-01-05" (Fin c) (Fin c) (Fin c) (Fin c) (Fin 1000))
      [10; 9; 8; 12; 13; 14]%Q.

(** Three bars whose first close is negative; ATR is 2 on bar 0 and the
    stop multiplier is 1, so that an entry on bar 1 at [-10] sets the stop
    at [-12]. *)
Definition belowZero_r0 : OHLCV :=
  mkOHLCV "2020-04-20" (Fin (-10)) (Fin (-10)) (Fin (-10)) (Fin (-10)) (Fin 1000).
Definition belowZero_r1 : OHLCV :=
  mkOHLCV "2020-04-21" (Fin 5) (Fin 5) (Fin 5) (Fin 5) (Fin 1000).
Definition belowZero_r2 : OHLCV :=
  mkOHLCV "2020-04-22" (Fin 5) (Fin 5) (Fin (-20)) (Fin 5) (Fin 1000).

Definition belowZero_args : Args :=
  mkArgs [belowZero_r0; belowZero_r1; belowZero_r2]
         [Fin 1; Fin 1; Fin 1] [Some (Fin 2); Some (Fin 2); Some (Fin 2)]
         [None; None; None] ∅
         (Fin 0) (Fin 0) (Fin 1) false (Fin 1) false (Fin 10) (Fin (1 # 2)).


(** ** Further predicates and runs used in the statements *)

(** The trades of a run come in pairs of an entry and an exit, but for the
    entry of a position that is still open; a win or a loss is recorded by
    an exit only. *)
Definition paired (s : State) : Prop :=
  exists exits : nat,
    (wins s + losses s <= exits)%nat
    /\ trades s = (2 * exits + match pos s with LONG => 1 | FLAT => 0 end)%nat.

(** The pair of the running peak and the running drawdown of
    [computeMaxDrawdownFromCurve] over equities that are not negative: the
    peak is [-Infinity] before the first point and then a finite number that
    is not negative, and the drawdown is between -1 and 0. *)
Definition drawdown_ok (acc : num * num) : Prop :=
  (acc.1 = NegInf \/ nonneg acc.1) /\ between (-1) 0 acc.2.

(** Whether [signal[j]] is truthy; an index out of range reads
    [undefined], which is not. *)
Definition signalOn (sig : list num) (j : nat) : bool :=
  match sig !! j with
  | Some v => truthy v
  | None => false
  end.

(** The state of a run that entered at the price [entry] and has held the
    position since, with no stop level. *)
Definition holding (entry : num) (s : State) : Prop :=
  pos s = LONG /\ entryPrice s = entry /\ stopLevel s = NaN
  /\ trades s = 1%nat /\ wins s = 0%nat /\ losses s = 0%nat.

(** The rising bars behind a volume gate fed by [computeVolumeRatioSeries]
    over four bars, one more than there are. *)
Definition longWindow_args : Args :=
  mkArgs rising_rows [Fin 1; Fin 1; Fin 0] [None; None; None]
         (computeVolumeRatioSeries rising_rows (of_nat 4)) ∅
         (Fin 0) (Fin 0) (Fin 2) true (Fin 0) false (Fin 10) (Fin (1 # 2)).

(** The two falling bars with ATR 2 on bar 0 and a stop multiplier of 0, so
    that the stop sits at the entry price; fee and slippage are 5 bps
    each. *)
Definition tightStop_args : Args :=
  mkArgs [stopped_r0; stopped_r1] [Fin 1; Fin 1] [Some (Fin 2); Some (Fin 2)]
         [None; None] ∅
         (Fin 5) (Fin 5) (Fin 0) false (Fin 1) false (Fin 10) (Fin (1 # 2)).




(** The same arguments with another table of event counts. *)
Definition withEvents (a : Args) (m : gmap string num) : Args :=
  mkArgs (rows a) (signal a) (atr a) (volumeRatio a) m
         (feeBps a) (slipBps a) (atrStopK a) (volumeGateOn a)
         (volumeGateThr a) (eventScaleOn a) (eventCountThr a) (eventScale a).

(** How many of the events fall on the day [d]. *)
Definition eventsOn (d : string) (events : list NewsEvent) : nat :=
  length (filter (fun ev => parseEventDateToIso (seendate ev) = d) events).

(** An event seen at the given time that carries nothing else. *)
Definition seenAt (s : string) : NewsEvent :=
  mkNewsEvent (Some s) "" "" None None None None None.

(** A text of decimal digits only. *)
Definition allDigits (s : string) : Prop :=
  Forall (fun c => isDigit c = true) (chars s).

(** A stand-in for [isoWeekId] that can be run: the first seven units of
    the date, its year and month. *)
Definition monthKey (iso : string) : string := substring 0 7 iso.

(** The rows that [resampleToWeek] does not skip. *)
Definition keyed (isoWeekId : string -> string) (rows : list OHLCV)
  : list OHLCV :=
  filter (fun r => isoWeekId (t r) <> "") rows.

(** A list of bars as [resampleToWeek] gives it: no bar without a week,
    and no two bars in a row of the same week. *)
Definition weekly (isoWeekId : string -> string) (out : list OHLCV) : Prop :=
  Forall (fun b => isoWeekId (t b) <> "") out
  /\ Sorted (fun a b => isoWeekId (t a) <> isoWeekId (t b)) out.

(** A bar of finite numbers whose open and close lie between its low and
    its high. *)
Definition wellFormed (r : OHLCV) : Prop :=
  exists o h l c v,
    open r = Fin o /\ high r = Fin h /\ low r = Fin l /\ close r = Fin c
    /\ volume r = Fin v
    /\ (l <= o <= h)%Q /\ (l <= c <= h)%Q.

(** Bars whose volumes are whole numbers, none negative, that add up to at
    most [2^53]: the running sums of such volumes are exact in binary64. *)
Definition wholeVolumes (rows : list OHLCV) : Prop :=
  exists zs : list Z,
    map volume rows = map (fun z => Fin (inject_Z z)) zs
    /\ Forall (fun z => (0 <= z)%Z) zs
    /\ (fold_right Z.add 0 zs <= 2 ^ 53)%Z.

(** The sum of the finite volumes of a list of bars. *)
Definition totalVolume (rows : list OHLCV) : Q :=
  qsum (fin_vals (map volume rows)).

(** Four bars of two months. *)
Definition month_rows : list OHLCV :=
  [mkOHLCV "2026-01-29" (Fin 10) (Fin 12) (Fin 9) (Fin 11) (Fin 100);
   mkOHLCV "2026-01-30" (Fin 11) (Fin 15) (Fin 10) (Fin 14) (Fin 200);
   mkOHLCV "2026-02-02" (Fin 14) (Fin 14) (Fin 8) (Fin 9) (Fin 300);
   mkOHLCV "2026-02-03" (Fin 9) (Fin 10) (Fin 7) (Fin 10) (Fin 50)].

(** A text without a dash. *)
Definition dashFree (s : string) : Prop :=
  existsb (Ascii.eqb "-") (chars s) = false.

(** A date [YYYY-MM-DD]: four digits, a dash, two digits, a dash and two
    digits. *)
Definition isoDate (s : string) : Prop :=
  exists y m d : list ascii,
    Forall (fun c => isDigit c = true) y
    /\ Forall (fun c => isDigit c = true) m
    /\ Forall (fun c => isDigit c = true) d
    /\ length y = 4%nat /\ length m = 2%nat /\ length d = 2%nat
    /\ chars s = y ++ "-"%char :: m ++ "-"%char :: d.

(** The entry of the day [d] in a table that holds [n] events for it. *)
Definition counts (d : string) (n : nat) (m : gmap string num) : Prop :=
  m !! d = match n with 0%nat => None | S _ => Some (of_nat n) end.

(** * The same code over binary64

    The definitions above compute with exact rationals.  Where the rounding
    or the overflow of binary64 decides what the code does, the module
    [B64] has the same definitions over the binary64 numbers of IEEE 754,
    as the Standard Library specifies them: 53 bits of precision, exponents
    below 1024, every operation rounded to nearest, ties to even, with two
    zeros, two infinities and one NaN. *)

Module B64.

Definition prec : Z := 53.
Definition emax : Z := 1024.

Definition num : Type := spec_float.

Definition NaN : num := S754_nan.
Definition PosInf : num := S754_infinity false.
Definition NegInf : num := S754_infinity true.

Definition neg (x : num) : num := SFopp x.
Definition add (x y : num) : num := SFadd prec emax x y.
Definition sub (x y : num) : num := SFsub prec emax x y.
Definition mul (x y : num) : num := SFmul prec emax x y.
Definition div (x y : num) : num := SFdiv prec emax x y.

Definition ltb (x y : num) : bool := SFltb x y.
Definition leb (x y : num) : bool := SFleb x y.
Definition gtb (x y : num) : bool := ltb y x.
Definition geb (x y : num) : bool := leb y x.

(** [x === y] on numbers: the two zeros are equal, [NaN] is equal to
    nothing. *)
Definition eqb (x y : num) : bool := SFeqb x y.

(** [Number.isFinite]. *)
Definition isFinite (x : num) : bool :=
  match x with
  | S754_zero _ | S754_finite _ _ _ => true
  | _ => false
  end.

(** Truthiness of a number: every number but the two zeros and [NaN]. *)
Definition truthy (x : num) : bool :=
  match x with
  | S754_nan | S754_zero _ => false
  | _ => true
  end.

(** [x || y] on numbers. *)
Definition or_else (x y : num) : num := if truthy x then x else y.

(** [Math.max] and [Math.min] of two arguments: [NaN] when one of them is,
    and [+0] above [-0]. *)
Definition Math_max (x y : num) : num :=
  match x, y with
  | S754_nan, _ | _, S754_nan => NaN
  | _, _ =>
      if ltb x y then y
      else if ltb y x then x
      else match x with S754_zero true => y | _ => x end
  end.

Definition Math_min (x y : num) : num :=
  match x, y with
  | S754_nan, _ | _, S754_nan => NaN
  | _, _ =>
      if ltb x y then x
      else if ltb y x then y
      else match y with S754_zero true => y | _ => x end
  end.

(** [Math.abs] and [Math.sqrt]. *)
Definition Math_abs (x : num) : num := SFabs x.
Definition Math_sqrt (x : num) : num := SFsqrt prec emax x.

(** A whole number as a number, rounded when it has more than 53 bits. *)
Definition of_Z (z : Z) : num := binary_normalize prec emax z 0 false.

(** A loop counter or an array length used as a number. *)
Definition of_nat (n : nat) : num := of_Z (Z.of_nat n).

(** A decimal literal of the source such as [0.1], or a number given as a
    fraction of two whole numbers: the quotient, rounded once. *)
Definition Fin (q : Q) : num :=
  SFdiv prec emax (of_Z (Qnum q)) (of_Z (Zpos (Qden q))).

Arguments Fin q%_Q.

Module Notations.
Declare Scope b64_scope.
Delimit Scope b64_scope with b64.
Infix "+" := add : b64_scope.
Infix "-" := sub : b64_scope.
Infix "*" := mul : b64_scope.
Infix "/" := div : b64_scope.
Notation "- x" := (neg x) : b64_scope.
Infix "<?" := ltb : b64_scope.
Infix "<=?" := leb : b64_scope.
Infix ">?" := gtb : b64_scope.
Infix ">=?" := geb : b64_scope.
Infix "=?" := eqb : b64_scope.
End Notations.
Import Notations.

(** [function clamp(x, a, b) { return Math.max(a, Math.min(b, x)); }] *)
Definition clamp (x a b : num) : num := Math_max a (Math_min b x).

(** [type OHLCV]: one bar; [t] is the date, [YYYY-MM-DD]. *)
Record OHLCV : Type := mkOHLCV {
  t : string;
  open : num;
  high : num;
  low : num;
  close : num;
  volume : num
}.

(** Reading [xs[i]] in an [Array<number | null>]: [None] stands for [null]
    and for the [undefined] of an index out of range, which [== null] does
    not tell apart. *)
Definition at_index (xs : list (option num)) (i : nat) : option num :=
  match xs !! i with
  | Some (Some v) => Some v
  | _ => None
  end.

(** [function mean(xs)] *)
Definition mean (xs : list num) : num :=
  let ys := filter (fun x => isFinite x = true) xs in
  if Nat.eqb (length ys) 0 then NaN
  else (fold_left add ys (Fin 0) / of_nat (length ys))%b64.

(** The quantity [v] of [std]: the sample variance of a list of numbers
    with mean [m]. *)
Definition variance (ys : list num) : num :=
  let m := mean ys in
  (fold_left (fun a b => a + (b - m) * (b - m)) ys (Fin 0)
   / (of_nat (length ys) - Fin 1))%b64.

(** [function computeMaxDrawdownFromCurve(curve)] *)
Definition drawdown_step (acc : num * num) (p : string * num) : num * num :=
  let '(peak, mdd) := acc in
  let e := p.2 in
  let peak := if (e >? peak)%b64 then e else peak in
  let dd := if (peak >? Fin 0)%b64 then ((e - peak) / peak)%b64 else Fin 0 in
  let mdd := if (dd <? mdd)%b64 then dd else mdd in
  (peak, mdd).

Definition computeMaxDrawdownFromCurve (curve : list (string * num)) : num :=
  (fold_left drawdown_step curve (NegInf, Fin 0)).2.

(** The value written to [out[i]]:
    [rs = losses === 0 ? Infinity : gains / losses;
     out[i] = 100 - 100 / (1 + rs)]. *)
Definition rsi_value (gains losses : num) : num :=
  let rs := if (losses =? Fin 0)%b64 then PosInf else (gains / losses)%b64 in
  (Fin 100 - Fin 100 / (Fin 1 + rs))%b64.

(** One turn of the loop of [rsi] at index [i], from [closes[i-1]] and
    [closes[i]] and the running [gains] and [losses]; it gives the new
    [gains] and [losses] and the entry [out[i]]. *)
Definition rsi_step (period : num) (i : nat) (prev cur gains losses : num)
  : num * num * option num :=
  let chg := (cur - prev)%b64 in
  let g := Math_max (Fin 0) chg in
  let l := Math_max (Fin 0) (- chg)%b64 in
  if (of_nat i <=? period)%b64 then
    let gains := (gains + g)%b64 in
    let losses := (losses + l)%b64 in
    (gains, losses,
     if (of_nat i =? period)%b64 then Some (rsi_value gains losses) else None)
  else
    let gains := ((gains * (period - Fin 1) + g) / period)%b64 in
    let losses := ((losses * (period - Fin 1) + l) / period)%b64 in
    (gains, losses, Some (rsi_value gains losses)).

(** The loop [for (let i = 1; i < closes.length; i++)], entered at index
    [i] with [prev = closes[i-1]] and [rest = closes[i..]]. *)
Fixpoint rsi_loop (period : num) (i : nat) (prev : num) (rest : list num)
    (gains losses : num) : list (option num) :=
  match rest with
  | [] => []
  | cur :: rest' =>
      let '(gains', losses', o) := rsi_step period i prev cur gains losses in
      o :: rsi_loop period (S i) cur rest' gains' losses'
  end.

(** [function rsi(closes, period)] *)
Definition rsi (closes : list num) (period : num) : list (option num) :=
  match closes with
  | [] => []
  | c0 :: rest => None :: rsi_loop period 1 c0 rest (Fin 0) (Fin 0)
  end.

(** The argument record of [backtestFromSignal]. *)
Record Args : Type := mkArgs {
  rows : list OHLCV;
  signal : list num;
  atr : list (option num);
  volumeRatio : list (option num);
  eventCountByDate : gmap string num;
  feeBps : num;
  slipBps : num;
  atrStopK : num;
  volumeGateOn : bool;
  volumeGateThr : num;
  eventScaleOn : bool;
  eventCountThr : num;
  eventScale : num
}.

(** The variables that the loop of [backtestFromSignal] updates. *)
Record State : Type := mkState {
  equity : num;
  pos : position;
  entryPrice : num;
  stopLevel : num;
  trades : nat;
  wins : nat;
  losses : nat;
  curve : list (string * num);
  daily : list num
}.

Definition init : State :=
  mkState (Fin 1) FLAT NaN NaN 0 0 0 [] [].

(** [const cost = clamp((args.feeBps + args.slipBps) / 10000, 0, 0.1)] *)
Definition cost (a : Args) : num :=
  clamp ((feeBps a + slipBps a) / Fin 10000)%b64 (Fin 0) (Fin (1 # 10)).

(** [obj[key] || 0] used as a number, for an object [obj] of counts: the
    entry of [key] when the object has one and it is truthy; 0 for a falsy
    or a missing entry; and for an inherited name without an entry, whose
    value is truthy and no number, [NaN], which is what the comparison
    [c >= thr] makes of it. *)
Definition countAt (m : gmap string num) (key : string) : num :=
  match m !! key with
  | Some v => or_else v (Fin 0)
  | None => if bool_decide (key ∈ inheritedNames) then NaN else Fin 0
  end.

(** [function exposureForDay(dayIso)] *)
Definition exposureForDay (a : Args) (dayIso : string) : num :=
  if negb (eventScaleOn a) then Fin 1
  else
    let c := countAt (eventCountByDate a) dayIso in
    if (c >=? eventCountThr a)%b64 then clamp (eventScale a) (Fin 0) (Fin 1)
    else Fin 1.

(** [const desired = args.signal[i - 1] ? 1 : 0] *)
Definition desiredAt (a : Args) (i : nat) : position :=
  match signal a !! (i - 1)%nat with
  | Some v => if truthy v then LONG else FLAT
  | None => FLAT
  end.

(** The volume gate: [allowEntry] after the lines
    [if (args.volumeGateOn && pos === 0 && desired === 1) ...]. *)
Definition allowEntry (a : Args) (i : nat) (pos desired : position) : bool :=
  if volumeGateOn a && position_eqb pos FLAT && position_eqb desired LONG then
    match at_index (volumeRatio a) (i - 1) with
    | None => false
    | Some vr => (vr >=? volumeGateThr a)%b64
    end
  else true.

(** The stop level set at an entry at [entryPrice] on bar [i]. *)
Definition stopLevelAt (a : Args) (i : nat) (entryPrice : num) : num :=
  match at_index (atr a) (i - 1) with
  | Some v =>
      if isFinite v && (v >? Fin 0)%b64 then (entryPrice - atrStopK a * v)%b64
      else NaN
  | None => NaN
  end.

(** "Position change at prev close (i-1)": the block [if (desired !== pos)]
    of bar [i]. *)
Definition positionChange (a : Args) (i : nat) (prevClose : num) (s : State)
  : State :=
  let desired := desiredAt a i in
  let allow := allowEntry a i (pos s) desired in
  if position_eqb desired (pos s) then s
  else if position_eqb desired LONG && negb allow then s
  else
    let equity' := (equity s * (Fin 1 - cost a))%b64 in
    let trades' := S (trades s) in
    match desired with
    | LONG =>
        mkState equity' LONG prevClose (stopLevelAt a i prevClose)
                trades' (wins s) (losses s) (curve s) (daily s)
    | FLAT =>
        let wl :=
          if isFinite (entryPrice s) && (prevClose >? Fin 0)%b64 then
            let pnl := (prevClose / entryPrice s - Fin 1)%b64 in
            if (pnl >=? Fin 0)%b64 then (S (wins s), losses s)
            else (wins s, S (losses s))
          else (wins s, losses s) in
        mkState equity' FLAT NaN NaN trades' wl.1 wl.2 (curve s) (daily s)
    end.

(** [const expo = pos === 1 ? exposureForDay(today.t) : 0] *)
Definition expoFor (a : Args) (today : OHLCV) (s : State) : num :=
  match pos s with
  | LONG => exposureForDay a (t today)
  | FLAT => Fin 0
  end.

(** The test of the stop: [Number.isFinite(stopLevel) &&
    today.low <= stopLevel && prevClose > 0]. *)
Definition stopHit (prevClose : num) (today : OHLCV) (s : State) : bool :=
  isFinite (stopLevel s) && (low today <=? stopLevel s)%b64
  && (prevClose >? Fin 0)%b64.

(** "Daily return": the rest of bar [i], from the exposure to the two
    [push]es. *)
Definition dailyReturn (a : Args) (prevClose : num) (today : OHLCV)
    (s : State) : State :=
  let expo := expoFor a today s in
  if position_eqb (pos s) LONG && (expo >? Fin 0)%b64 then
    if stopHit prevClose today s then
      let rStop := (stopLevel s / prevClose - Fin 1)%b64 in
      let r := (expo * rStop)%b64 in
      let equity1 := (equity s * (Fin 1 + r))%b64 in
      let equity2 := (equity1 * (Fin 1 - cost a))%b64 in
      let wl :=
        if isFinite (entryPrice s) && (entryPrice s >? Fin 0)%b64 then
          let pnl := (stopLevel s / entryPrice s - Fin 1)%b64 in
          if (pnl >=? Fin 0)%b64 then (S (wins s), losses s)
          else (wins s, S (losses s))
        else (wins s, losses s) in
      mkState equity2 FLAT NaN NaN (S (trades s)) wl.1 wl.2
              (curve s ++ [(t today, equity2)]) (daily s ++ [r])
    else
      let rr := if (prevClose >? Fin 0)%b64
                then (close today / prevClose - Fin 1)%b64 else Fin 0 in
      let r := (expo * rr)%b64 in
      let equity1 := (equity s * (Fin 1 + r))%b64 in
      mkState equity1 (pos s) (entryPrice s) (stopLevel s)
              (trades s) (wins s) (losses s)
              (curve s ++ [(t today, equity1)]) (daily s ++ [r])
  else
    let equity1 := (equity s * Fin 1)%b64 in
    mkState equity1 (pos s) (entryPrice s) (stopLevel s)
            (trades s) (wins s) (losses s)
            (curve s ++ [(t today, equity1)]) (daily s ++ [Fin 0]).

(** The body of the loop for bar [i], with [prev = rows[i-1]] and
    [today = rows[i]]. *)
Definition bar (a : Args) (i : nat) (prev today : OHLCV) (s : State) : State :=
  dailyReturn a (close prev) today (positionChange a i (close prev) s).

(** The loop [for (let i = 1; i < n; i++)], entered at bar [i] with
    [prev = rows[i-1]] and [rest = rows[i..]]. *)
Fixpoint loop (a : Args) (i : nat) (prev : OHLCV) (rest : list OHLCV)
    (s : State) : State :=
  match rest with
  | [] => s
  | today :: rest' => loop a (S i) today rest' (bar a i prev today s)
  end.

(** The state at the end of the loop; [None] when [n < 2]. *)
Definition simulate (a : Args) : option State :=
  match rows a with
  | r0 :: ((_ :: _) as rest) => Some (loop a 1 r0 rest init)
  | _ => None
  end.

(** [BacktestResult] and its [stats]. *)
Record Stats : Type := mkStats {
  totalReturn : num;
  cagr : num;
  sharpe : num;
  maxDrawdown : num;
  costBps : num
}.

Record BacktestResult : Type := mkResult {
  res_curve : list (string * num);
  res_daily : list num;
  res_trades : nat;
  res_wins : nat;
  res_losses : nat;
  stats : Stats
}.

Section WithPow.

(** [Math.pow] is not code of the repository: it is taken as it comes. *)
Variable Math_pow : num -> num -> num.

(** [function std(xs)] *)
Definition std (xs : list num) : num :=
  let ys := filter (fun x => isFinite x = true) xs in
  if (length ys <? 2)%nat then NaN
  else Math_sqrt (variance ys).

(** The lines after the loop: the statistics of a final state. *)
Definition finalize (a : Args) (s : State) : BacktestResult :=
  let totalReturn := (equity s - Fin 1)%b64 in
  let nn := or_else (of_nat (length (daily s))) (Fin 1) in
  let cagr := (Math_pow (Fin 1 + totalReturn) (Fin 252 / nn) - Fin 1)%b64 in
  let sharpe :=
    (mean (daily s) / or_else (std (daily s)) NaN * Math_sqrt (Fin 252))%b64 in
  let maxDrawdown := computeMaxDrawdownFromCurve (curve s) in
  mkResult (curve s) (daily s) (trades s) (wins s) (losses s)
           (mkStats totalReturn cagr sharpe maxDrawdown
                    (feeBps a + slipBps a)%b64).

(** [function backtestFromSignal(args)]; [None] is the [null] returned
    when there are fewer than two bars. *)
Definition backtestFromSignal (a : Args) : option BacktestResult :=
  match simulate a with
  | Some s => Some (finalize a s)
  | None => None
  end.

End WithPow.

(** *** The Sharpe ratio in the words of the specification

    [sharpe = mean(dailyReturns) / sampleStdDev(dailyReturns) * sqrt(252)],
    undefined for fewer than two return observations or zero variance.  The
    observations are the returns that are finite numbers, the sums run from
    the first observation to the last, "undefined" is [NaN], and a zero
    variance is a deviation that comes out as zero. *)





(** *** Concrete runs used in the statements *)








End B64.

Import B64.Notations.

(** * Properties *)

(** ** Numbers *)

Lemma Qltb_lt (a b : Q) : Qltb a b = true <-> (a < b)%Q.
Proof.
  unfold Qltb. rewrite negb_true_iff.
  split; intros H.
  - apply Qnot_le_lt. intros Hle. apply Qle_bool_iff in Hle. congruence.
  - destruct (Qle_bool b a) eqn:E; [|reflexivity].
    apply Qle_bool_iff in E. exfalso. apply (Qlt_not_le _ _ H E).
Qed.

Lemma Qltb_ge (a b : Q) : Qltb a b = false <-> (b <= a)%Q.
Proof.
  unfold Qltb. rewrite negb_false_iff. apply Qle_bool_iff.
Qed.

Lemma Qleb_gt (a b : Q) : Qle_bool a b = false <-> (b < a)%Q.
Proof.
  rewrite <- Qltb_lt. unfold Qltb. now rewrite negb_true_iff.
Qed.

Lemma gtb_Fin (a b : Q) : (Fin a >? Fin b)%num = true <-> (b < a)%Q.
Proof. apply Qltb_lt. Qed.

Lemma leb_Fin (a b : Q) : (Fin a <=? Fin b)%num = true <-> (a <= b)%Q.
Proof. apply Qle_bool_iff. Qed.

Lemma eqb_zero_not_gtb (x : num) :
  (x =? Fin 0)%num = true -> (x >? Fin 0)%num = false.
Proof.
  destruct x as [| | |q]; simpl; try discriminate.
  intros H. apply Qeq_bool_iff in H.
  unfold gtb. simpl. apply Qltb_ge. rewrite H. apply Qle_refl.
Qed.

Lemma mul_one_same (x : num) : same (x * Fin 1)%num x.
Proof.
  destruct x as [| | |q]; simpl; auto.
  rewrite Qred_correct. apply Qmult_1_r.
Qed.

(** ** Scenario A: three rising bars, no frictions *)

(** C1. Closes [100, 105, 110], signal [1, 1, 1], zero fee and slippage,
    volume gate and event scaling off, ATR undefined (so no stop): the
    position is entered on bar 1 at the close of bar 0, at price 100, which
    is trade number 1; the equity is 1.05 after bar 1 and 1.1 after bar 2;
    the total return is 0.1 and there is no exit, so no win and no loss.
    The dates, the other prices of the bars, the volumes and the settings
    that are switched off are arbitrary. *)
Theorem scenario_A_no_frictions
    (d0 d1 d2 : string)
    (o0 h0 l0 v0 o1 h1 l1 v1 o2 h2 l2 v2 : num)
    (vr : list (option num)) (ev : gmap string num)
    (k vthr ethr escale : num)
    (Math_sqrt : num -> num) (Math_pow : num -> num -> num) :
  let r0 := mkOHLCV d0 o0 h0 l0 (Fin 100) v0 in
  let r1 := mkOHLCV d1 o1 h1 l1 (Fin 105) v1 in
  let r2 := mkOHLCV d2 o2 h2 l2 (Fin 110) v2 in
  let a := mkArgs [r0; r1; r2] [Fin 1; Fin 1; Fin 1] [None; None; None] vr ev
                  (Fin 0) (Fin 0) k false vthr false ethr escale in
  positionChange a 1 (close r0) init
    = mkState (Fin 1) LONG (Fin 100) NaN 1 0 0 [] []
  /\ bar a 1 r0 r1 init
    = mkState (Fin (21 # 20)) LONG (Fin 100) NaN 1 0 0
              [(d1, Fin (21 # 20))] [Fin (1 # 20)]
  /\ simulate a
    = Some (mkState (Fin (11 # 10)) LONG (Fin 100) NaN 1 0 0
                    [(d1, Fin (21 # 20)); (d2, Fin (11 # 10))]
                    [Fin (1 # 20); Fin (1 # 21)])
  /\ exists res,
      backtestFromSignal Math_sqrt Math_pow a = Some res
      /\ res_curve res = [(d1, Fin (21 # 20)); (d2, Fin (11 # 10))]
      /\ totalReturn (stats res) = Fin (1 # 10)
      /\ res_trades res = 1%nat
      /\ res_wins res = 0%nat
      /\ res_losses res = 0%nat.
Proof.
  intros r0 r1 r2 a.
  split; [reflexivity|].
  split; [reflexivity|].
  split; [reflexivity|].
  eexists. split; [reflexivity|].
  repeat split; reflexivity.
Qed.

(** From here on the arithmetic is used through its lemmas only. *)
#[global] Arguments add : simpl never.
#[global] Arguments sub : simpl never.
#[global] Arguments mul : simpl never.
#[global] Arguments div : simpl never.
#[global] Arguments neg : simpl never.
#[global] Arguments ltb : simpl never.
#[global] Arguments leb : simpl never.
#[global] Arguments gtb : simpl never.
#[global] Arguments geb : simpl never.
#[global] Arguments eqb : simpl never.
#[global] Arguments clamp : simpl never.

(** ** Invariants of the loop *)

(** A property of the state that every bar made of rows satisfying [B]
    preserves holds at the end of the loop. *)
Lemma loop_invariant (a : Args) (B : OHLCV -> Prop) (P : State -> Prop) :
  (forall i prev today s, B prev -> B today -> P s -> P (bar a i prev today s)) ->
  forall rest i prev s,
    B prev -> Forall B rest -> P s -> P (loop a i prev rest s).
Proof.
  intros Hbar rest. induction rest as [|today rest IH]; intros i prev s Hp Hr Hs.
  - exact Hs.
  - simpl. inversion Hr; subst. apply IH; auto.
Qed.

Lemma simulate_invariant (a : Args) (B : OHLCV -> Prop) (P : State -> Prop) :
  (forall i prev today s, B prev -> B today -> P s -> P (bar a i prev today s)) ->
  Forall B (rows a) -> P init ->
  forall s, simulate a = Some s -> P s.
Proof.
  intros Hbar Hrows Hinit s. unfold simulate.
  destruct (rows a) as [|r0 [|r1 rest]]; try discriminate.
  intros [= <-]. inversion Hrows as [|? ? H0 Hrest]; subst.
  exact (loop_invariant a B P Hbar (r1 :: rest) 1%nat r0 init H0 Hrest Hinit).
Qed.

Lemma backtest_simulate (Math_sqrt : num -> num) (Math_pow : num -> num -> num)
    (a : Args) (res : BacktestResult) :
  backtestFromSignal Math_sqrt Math_pow a = Some res ->
  exists s, simulate a = Some s /\ res = finalize Math_sqrt Math_pow a s.
Proof.
  unfold backtestFromSignal. destruct (simulate a) as [s|]; [|discriminate].
  intros [= <-]. eauto.
Qed.

(** ** Win and loss accounting *)

Lemma positionChange_counts (a : Args) (i : nat) (p : num) (s : State) :
  let s' := positionChange a i p s in
  (wins s' + losses s' + trades s <= wins s + losses s + trades s')%nat.
Proof.
  unfold positionChange. repeat case_match; simplify_eq; simpl; lia.
Qed.

Lemma dailyReturn_counts (a : Args) (p : num) (today : OHLCV) (s : State) :
  let s' := dailyReturn a p today s in
  (wins s' + losses s' + trades s <= wins s + losses s + trades s')%nat.
Proof.
  unfold dailyReturn. repeat case_match; simplify_eq; simpl; lia.
Qed.

Lemma bar_counted (a : Args) (i : nat) (prev today : OHLCV) (s : State) :
  counted s -> counted (bar a i prev today s).
Proof.
  unfold counted, bar. intros H.
  pose proof (positionChange_counts a i (close prev) s) as H1.
  pose proof (dailyReturn_counts a (close prev) today
                (positionChange a i (close prev) s)) as H2.
  simpl in H1, H2. lia.
Qed.

Lemma positionChange_entry (a : Args) (i : nat) (p : num) (s : State) :
  pos s = FLAT -> pos (positionChange a i p s) = LONG ->
  trades (positionChange a i p s) = S (trades s)
  /\ wins (positionChange a i p s) = wins s
  /\ losses (positionChange a i p s) = losses s.
Proof.
  unfold positionChange. intros Hflat.
  repeat case_match; simplify_eq; simpl; intros; try congruence; auto.
Qed.

Lemma positionChange_outcome (a : Args) (i : nat) (p : num) (s : State) :
  (wins (positionChange a i p s) + losses (positionChange a i p s)
   <> wins s + losses s)%nat ->
  pos s = LONG /\ pos (positionChange a i p s) = FLAT.
Proof.
  unfold positionChange.
  destruct (pos s) eqn:Hpos;
    repeat case_match; simplify_eq; simpl in *; intros; try congruence; auto.
Qed.

Lemma dailyReturn_outcome (a : Args) (p : num) (today : OHLCV) (s : State) :
  (wins (dailyReturn a p today s) + losses (dailyReturn a p today s)
   <> wins s + losses s)%nat ->
  pos s = LONG /\ pos (dailyReturn a p today s) = FLAT.
Proof.
  unfold dailyReturn.
  destruct (pos s) eqn:Hpos;
    repeat case_match; simplify_eq; simpl in *; intros; try congruence; auto.
Qed.

(** C8. In the result of every run, [wins + losses <= trades]: an entry
    adds one trade and no win or loss, and a win or a loss is added only
    by a bar part that takes the position from LONG to FLAT (the exit on
    the signal, or the exit on the stop). *)
Theorem wins_losses_le_trades
    (Math_sqrt : num -> num) (Math_pow : num -> num -> num)
    (a : Args) (res : BacktestResult) :
  backtestFromSignal Math_sqrt Math_pow a = Some res ->
  (res_wins res + res_losses res <= res_trades res)%nat
  /\ (forall i p s,
        pos s = FLAT -> pos (positionChange a i p s) = LONG ->
        trades (positionChange a i p s) = S (trades s)
        /\ wins (positionChange a i p s) = wins s
        /\ losses (positionChange a i p s) = losses s)
  /\ (forall i p s,
        (wins (positionChange a i p s) + losses (positionChange a i p s)
         <> wins s + losses s)%nat ->
        pos s = LONG /\ pos (positionChange a i p s) = FLAT)
  /\ (forall p today s,
        (wins (dailyReturn a p today s) + losses (dailyReturn a p today s)
         <> wins s + losses s)%nat ->
        pos s = LONG /\ pos (dailyReturn a p today s) = FLAT).
Proof.
  intros H. apply backtest_simulate in H as (s & Hs & ->).
  split; [|split; [|split]].
  - simpl. apply (simulate_invariant a (fun _ => True) counted) with (s := s); auto.
    + intros. now apply bar_counted.
    + apply Forall_forall; auto.
    + unfold counted, init; simpl; lia.
  - apply positionChange_entry.
  - apply positionChange_outcome.
  - apply dailyReturn_outcome.
Qed.

(** ** Volume gate *)

Lemma ltb_not_geb (x y : num) : (x <? y)%num = true -> (x >=? y)%num = false.
Proof.
  destruct x as [| | |p], y as [| | |q]; simpl; try discriminate; auto.
  intros H. apply Qltb_lt in H. unfold geb; simpl. now apply Qleb_gt.
Qed.

Lemma allowEntry_long (a : Args) (i : nat) (d : position) :
  allowEntry a i LONG d = true.
Proof. unfold allowEntry. simpl. now rewrite andb_false_r. Qed.

Lemma positionChange_flat_blocked (a : Args) (i : nat) (p : num) (s : State) :
  pos s = FLAT ->
  (desiredAt a i = LONG -> allowEntry a i FLAT LONG = false) ->
  positionChange a i p s = s.
Proof.
  intros Hpos Hblock. unfold positionChange. rewrite Hpos.
  destruct (desiredAt a i) eqn:Hd; simpl; [reflexivity|].
  now rewrite Hblock.
Qed.

Lemma positionChange_flat_allowed (a : Args) (i : nat) (p : num) (s : State) :
  pos s = FLAT -> desiredAt a i = LONG ->
  allowEntry a i FLAT LONG = true ->
  positionChange a i p s
  = mkState (equity s * (Fin 1 - cost a))%num LONG p (stopLevelAt a i p)
            (S (trades s)) (wins s) (losses s) (curve s) (daily s).
Proof.
  intros Hpos Hd Hallow. unfold positionChange. rewrite Hpos, Hd. simpl.
  now rewrite Hallow.
Qed.

Lemma dailyReturn_flat (a : Args) (p : num) (today : OHLCV) (s : State) :
  pos s = FLAT ->
  dailyReturn a p today s
  = mkState (equity s * Fin 1)%num FLAT (entryPrice s) (stopLevel s)
            (trades s) (wins s) (losses s)
            (curve s ++ [(t today, (equity s * Fin 1)%num)])
            (daily s ++ [Fin 0]).
Proof. intros Hpos. unfold dailyReturn. now rewrite Hpos. Qed.

Lemma bar_untouched (a : Args) (i : nat) (prev today : OHLCV) (s : State) :
  volumeGateOn a = true ->
  (forall j v, at_index (volumeRatio a) j = Some v ->
               (v <? volumeGateThr a)%num = true) ->
  untouched s -> untouched (bar a i prev today s).
Proof.
  intros Hon Habove (Hpos & Htr & Hw & Hl & Hd). unfold bar.
  rewrite positionChange_flat_blocked; auto.
  - rewrite dailyReturn_flat by exact Hpos. unfold untouched. simpl.
    repeat split; auto. apply Forall_app. split; [exact Hd|].
    apply Forall_cons. split; [reflexivity|apply Forall_nil; exact I].
  - intros _. unfold allowEntry. rewrite Hon. simpl.
    destruct (at_index _ _) as [v|] eqn:E; [|reflexivity].
    apply ltb_not_geb. eauto.
Qed.

(** C3. With the volume gate on, an entry asked for by the signal while
    FLAT is executed on bar [i] exactly when [volumeRatio[i-1]] is defined
    and at least the threshold; otherwise the state is left as it was, so
    the block lasts for this bar only and the next bar decides afresh.
    While LONG the gate plays no part: the position change is the one of
    any other gate setting.  Hence, with the threshold above every defined
    volume ratio, a run ends FLAT with no trade, no win and no loss, and the
    return of every one of its bars is 0: no position was ever open. *)
Theorem volume_gate_blocks_entries (a : Args) :
  volumeGateOn a = true ->
  (forall i p s,
      pos s = FLAT -> desiredAt a i = LONG ->
      (pos (positionChange a i p s) = LONG
       <-> exists vr, at_index (volumeRatio a) (i - 1) = Some vr
                      /\ (vr >=? volumeGateThr a)%num = true)
      /\ (pos (positionChange a i p s) <> LONG -> positionChange a i p s = s))
  /\ (forall on thr vr i p s,
        pos s = LONG ->
        positionChange (withGate a on thr vr) i p s = positionChange a i p s)
  /\ ((forall j v, at_index (volumeRatio a) j = Some v ->
                   (v <? volumeGateThr a)%num = true) ->
      forall s, simulate a = Some s ->
        pos s = FLAT /\ trades s = 0%nat /\ wins s = 0%nat /\ losses s = 0%nat
        /\ Forall (fun r => r = Fin 0) (daily s)).
Proof.
  intros Hon. split; [|split].
  - intros i p s Hpos Hd.
    assert (Hallow : allowEntry a i FLAT LONG
                     = match at_index (volumeRatio a) (i - 1) with
                       | None => false
                       | Some vr => (vr >=? volumeGateThr a)%num
                       end).
    { unfold allowEntry. now rewrite Hon. }
    destruct (allowEntry a i FLAT LONG) eqn:E.
    + rewrite positionChange_flat_allowed by auto. simpl. split.
      * split; [intros _|reflexivity].
        destruct (at_index _ _) as [vr|]; [eauto|discriminate].
      * congruence.
    + rewrite positionChange_flat_blocked by auto. split.
      * split; [congruence|].
        intros (vr & Hvr & Hge). rewrite Hvr in Hallow. congruence.
      * reflexivity.
  - intros on thr vr i p s Hpos. unfold positionChange.
    rewrite Hpos, !allowEntry_long. reflexivity.
  - intros Habove s Hs.
    apply (simulate_invariant a (fun _ => True) untouched) with (s := s); auto.
    + intros. now apply bar_untouched.
    + apply Forall_forall; auto.
    + unfold untouched. simpl. repeat split. apply Forall_nil. exact I.
Qed.

(** ** Exposure scaled to zero *)

Lemma positionChange_long_desired (a : Args) (i : nat) (p : num) (s : State) :
  pos (positionChange a i p s) = LONG -> desiredAt a i = LONG.
Proof.
  unfold positionChange.
  destruct (desiredAt a i) eqn:Hd; [|reflexivity].
  destruct (pos s) eqn:Hpos; simpl; [congruence|discriminate].
Qed.

Lemma exposure_scaled (a : Args) (dayIso : string) :
  eventScaleOn a = true ->
  (eventCount a dayIso >=? eventCountThr a)%num = true ->
  exposureForDay a dayIso = clamp (eventScale a) (Fin 0) (Fin 1).
Proof.
  intros Hon Hc. unfold exposureForDay. rewrite Hon. simpl.
  fold (eventCount a dayIso). now rewrite Hc.
Qed.

(** C9. On a bar where the position is LONG after the position change and
    event scaling brings the exposure to 0 (scaling is on, the count of the
    day reaches the threshold, and the clamped scale factor is 0), the
    stop is not looked at, whatever the low of the day: the bar ends LONG
    with the same entry price and stop level, the same numbers of trades,
    wins and losses, a recorded return of 0 and the same equity. *)
Theorem zero_exposure_skips_stop
    (a : Args) (i : nat) (prev today : OHLCV) (s : State) :
  let s1 := positionChange a i (close prev) s in
  let s2 := bar a i prev today s in
  pos s1 = LONG ->
  eventScaleOn a = true ->
  (eventCount a (t today) >=? eventCountThr a)%num = true ->
  (clamp (eventScale a) (Fin 0) (Fin 1) =? Fin 0)%num = true ->
  pos s2 = LONG
  /\ entryPrice s2 = entryPrice s1
  /\ stopLevel s2 = stopLevel s1
  /\ trades s2 = trades s1
  /\ wins s2 = wins s1
  /\ losses s2 = losses s1
  /\ daily s2 = daily s1 ++ [Fin 0]
  /\ same (equity s2) (equity s1)
  /\ curve s2 = curve s1 ++ [(t today, equity s2)].
Proof.
  intros s1 s2 Hpos Hon Hc Hzero. subst s2. unfold bar. fold s1.
  unfold dailyReturn, expoFor. rewrite Hpos.
  rewrite exposure_scaled by assumption.
  rewrite (eqb_zero_not_gtb _ Hzero). simpl.
  repeat split. apply mul_one_same.
Qed.

(** ** Stop-loss liquidation *)

(** C2, as amended. On a bar where the position is LONG after the position
    change, the exposure is above 0, the stop level is finite, the low of
    the day is at or below it and the previous close is above 0, the
    position is closed at the stop level although the signal asks for LONG:
    the equity is multiplied by [1 + r] with
    [r = expo * (stopLevel / prevClose - 1)] and then by [1 - cost],
    [r] is the recorded return, one trade is added, and the state is FLAT
    with entry price and stop level cleared.  The exit is counted as a win
    or as a loss only when the entry price is finite and above 0: then it is
    a win if [stopLevel / entryPrice - 1 >= 0] and a loss if not; with any
    other entry price neither count changes. *)
Theorem stop_liquidation
    (a : Args) (i : nat) (prev today : OHLCV) (s : State) :
  let s1 := positionChange a i (close prev) s in
  let s2 := bar a i prev today s in
  let expo := exposureForDay a (t today) in
  let r := (expo * (stopLevel s1 / close prev - Fin 1))%num in
  let pnl := (stopLevel s1 / entryPrice s1 - Fin 1)%num in
  pos s1 = LONG ->
  (expo >? Fin 0)%num = true ->
  isFinite (stopLevel s1) = true ->
  (low today <=? stopLevel s1)%num = true ->
  (close prev >? Fin 0)%num = true ->
  desiredAt a i = LONG
  /\ equity s2 = (equity s1 * (Fin 1 + r) * (Fin 1 - cost a))%num
  /\ daily s2 = daily s1 ++ [r]
  /\ curve s2 = curve s1 ++ [(t today, equity s2)]
  /\ trades s2 = S (trades s1)
  /\ pos s2 = FLAT
  /\ entryPrice s2 = NaN
  /\ stopLevel s2 = NaN
  /\ (if isFinite (entryPrice s1) && (entryPrice s1 >? Fin 0)%num
      then if (pnl >=? Fin 0)%num
           then wins s2 = S (wins s1) /\ losses s2 = losses s1
           else wins s2 = wins s1 /\ losses s2 = S (losses s1)
      else wins s2 = wins s1 /\ losses s2 = losses s1).
Proof.
  intros s1 s2 expo r pnl Hpos Hexpo Hfin Hlow Hprev.
  split; [exact (positionChange_long_desired _ _ _ _ Hpos)|].
  subst s2. unfold bar. fold s1.
  unfold dailyReturn, expoFor, stopHit. rewrite Hpos. fold expo.
  rewrite Hexpo, Hfin, Hlow, Hprev. simpl.
  fold r. fold pnl.
  destruct (isFinite (entryPrice s1) && (entryPrice s1 >? Fin 0)%num);
    [destruct (pnl >=? Fin 0)%num|]; simpl; repeat split.
Qed.

(** C2, as stated, fails when the entry price is not above 0.  In the run
    [belowZero_args] the position is entered at [-10] with the stop at [-12];
    on bar 2 every condition of the liquidation holds and
    [stopLevel / entryPrice - 1 = 0.2 >= 0], yet the exit is not counted as
    a win. *)
Lemma stop_exit_not_classified :
  let a := belowZero_args in
  let s1 := positionChange a 2 (close belowZero_r1)
              (bar a 1 belowZero_r0 belowZero_r1 init) in
  let s2 := dailyReturn a (close belowZero_r1) belowZero_r2 s1 in
  simulate a = Some s2
  /\ pos s1 = LONG
  /\ (exposureForDay a (t belowZero_r2) >? Fin 0)%num = true
  /\ isFinite (stopLevel s1) = true
  /\ (low belowZero_r2 <=? stopLevel s1)%num = true
  /\ (close belowZero_r1 >? Fin 0)%num = true
  /\ pos s2 = FLAT
  /\ ~ (wins s2 = S (wins s1)
        <-> (stopLevel s1 / entryPrice s1 - Fin 1 >=? Fin 0)%num = true).
Proof.
  repeat split; try reflexivity.
  intros [_ H]. specialize (H eq_refl). vm_compute in H. discriminate.
Qed.

(** ** Mean-reversion signal *)

Lemma rsi_loop_length (period : num) (rest : list num) :
  forall i prev gains losses,
    length (rsi_loop period i prev rest gains losses) = length rest.
Proof.
  induction rest as [|cur rest IH]; intros i prev gains losses; simpl.
  - reflexivity.
  - destruct (rsi_step period i prev cur gains losses) as [[g l] o].
    simpl. now rewrite IH.
Qed.

Lemma rsi_length (closes : list num) (period : num) :
  length (rsi closes period) = length closes.
Proof.
  destruct closes as [|c0 rest]; simpl; [reflexivity|].
  now rewrite rsi_loop_length.
Qed.

Lemma meanrev_loop_length (entry exit : num) (r : list (option num)) :
  forall pos0, length (meanrev_loop entry exit pos0 r) = length r.
Proof.
  induction r as [|ri r IH]; intros pos0; simpl; [reflexivity|].
  now rewrite IH.
Qed.

(** Every stored state is one step of the machine from the state stored
    just before it, the first one from [pos0]. *)
Lemma meanrev_loop_step (entry exit : num) (r : list (option num)) :
  forall pos0 i cur prev,
    meanrev_loop entry exit pos0 r !! i = Some cur ->
    match i with
    | O => prev = pos0
    | S j => meanrev_loop entry exit pos0 r !! j = Some prev
    end ->
    exists ri, r !! i = Some ri /\ cur = meanrev_step entry exit prev ri.
Proof.
  induction r as [|ri r IH]; intros pos0 i cur prev Hcur Hprev.
  - destruct i; discriminate.
  - destruct i as [|i]; simpl in *.
    + injection Hcur as <-. subst prev. eauto.
    + apply (IH _ _ _ prev Hcur).
      destruct i as [|j]; simpl in *; [congruence|exact Hprev].
Qed.

Lemma meanrev_step_spec (entry exit : num) (prev : position)
    (ri : option num) :
  let cur := meanrev_step entry exit prev ri in
  (ri = None -> cur = prev)
  /\ (prev = FLAT ->
      (cur = LONG <-> exists v, ri = Some v /\ (v <? entry)%num = true))
  /\ (prev = LONG ->
      (cur = FLAT <-> exists v, ri = Some v /\ (v >? exit)%num = true)).
Proof.
  unfold meanrev_step.
  destruct ri as [v|], prev; simpl;
    (split; [intros; try congruence; reflexivity|]);
    (split; intros Hp; try discriminate Hp).
  - destruct (v <? entry)%num eqn:E; split; eauto; try discriminate.
    intros (v' & [= <-] & H). congruence.
  - destruct (v >? exit)%num eqn:E; split; eauto; try discriminate.
    intros (v' & [= <-] & H). congruence.
  - split; [discriminate|]. intros (v & H & _). discriminate.
  - split; [discriminate|]. intros (v & H & _). discriminate.
Qed.

(** C7. The mean-reversion signal is the trace of a machine with the two
    states FLAT and LONG that starts FLAT: [signal[i]] is the state after
    bar [i]; from FLAT the state becomes LONG exactly when the oscillator at
    bar [i] is defined and below [entry]; from LONG it becomes FLAT exactly
    when the oscillator is defined and above [exit]; where the oscillator is
    undefined the state is the previous one. *)
Theorem meanrev_two_state_machine
    (rows : list OHLCV) (rsiPeriod entry exit : num) :
  let signal := (buildBacktestSignalMeanRev rows rsiPeriod entry exit).1 in
  let r := (buildBacktestSignalMeanRev rows rsiPeriod entry exit).2 in
  r = rsi (map close rows) rsiPeriod
  /\ exists states : list position,
      signal = map num_of_position states
      /\ length states = length rows
      /\ forall i cur prev,
          states !! i = Some cur ->
          match i with
          | O => prev = FLAT
          | S j => states !! j = Some prev
          end ->
          exists ri,
            r !! i = Some ri
            /\ (ri = None -> cur = prev)
            /\ (prev = FLAT ->
                (cur = LONG <->
                 exists v, ri = Some v /\ (v <? entry)%num = true))
            /\ (prev = LONG ->
                (cur = FLAT <->
                 exists v, ri = Some v /\ (v >? exit)%num = true)).
Proof.
  simpl. split; [reflexivity|].
  exists (meanrev_loop entry exit FLAT (rsi (map close rows) rsiPeriod)).
  split; [reflexivity|]. split.
  - now rewrite meanrev_loop_length, rsi_length, length_map.
  - intros i cur prev Hcur Hprev.
    destruct (meanrev_loop_step _ _ _ _ _ _ _ Hcur Hprev) as (ri & Hri & ->).
    exists ri. split; [exact Hri|]. apply meanrev_step_spec.
Qed.

(** ** Arithmetic on finite values *)

Lemma add_Fin (a b : Q) : (Fin a + Fin b)%num = fin (a + b).
Proof. reflexivity. Qed.

Lemma sub_Fin (a b : Q) : (Fin a - Fin b)%num = fin (a - b).
Proof. reflexivity. Qed.

Lemma mul_Fin (a b : Q) : (Fin a * Fin b)%num = fin (a * b).
Proof. reflexivity. Qed.

Lemma neg_Fin (a : Q) : (- Fin a)%num = fin (- a).
Proof. reflexivity. Qed.

Lemma div_Fin (a b : Q) : ~ (b == 0)%Q -> (Fin a / Fin b)%num = fin (a / b).
Proof.
  intros Hb. unfold div.
  destruct (Qeq_bool b 0) eqn:E; [|reflexivity].
  apply Qeq_bool_iff in E. contradiction.
Qed.

Lemma nonneg_fin (q : Q) : nonneg (fin q) <-> (0 <= q)%Q.
Proof. unfold fin. simpl. now rewrite Qred_correct. Qed.

Lemma between_fin (lo hi q : Q) : between lo hi (fin q) <-> (lo <= q <= hi)%Q.
Proof. unfold fin. simpl. now rewrite Qred_correct. Qed.

Lemma isFinite_Fin (x : num) : isFinite x = true -> exists q, x = Fin q.
Proof. destruct x; try discriminate. eauto. Qed.

Lemma nonneg_Fin (x : num) : nonneg x -> exists q, x = Fin q /\ (0 <= q)%Q.
Proof. destruct x; simpl; try contradiction. eauto. Qed.

Lemma Math_max_zero_nonneg (x : num) :
  isFinite x = true -> nonneg (Math_max (Fin 0) x).
Proof.
  intros (c & ->)%isFinite_Fin. unfold Math_max, leb.
  destruct (Qle_bool 0 c) eqn:E; simpl.
  - now apply Qle_bool_iff.
  - apply Qle_refl.
Qed.


Lemma neg_finite (x : num) : isFinite x = true -> isFinite (- x)%num = true.
Proof. now intros (a & ->)%isFinite_Fin. Qed.

Lemma ltb_leb (x y : num) : (x <? y)%num = true -> (x <=? y)%num = true.
Proof.
  destruct x as [| | |a], y as [| | |b]; unfold ltb, leb; try discriminate; auto.
  intros H. apply Qltb_lt in H. apply Qle_bool_iff. now apply Qlt_le_weak.
Qed.

Lemma ltb_not_eqb (x y : num) : (x <? y)%num = true -> (x =? y)%num = false.
Proof.
  destruct x as [| | |a], y as [| | |b]; unfold ltb, eqb; try discriminate; auto.
  intros H. apply Qltb_lt in H.
  destruct (Qeq_bool a b) eqn:E; [|reflexivity].
  apply Qeq_bool_iff in E. rewrite E in H. exfalso. apply (Qlt_irrefl _ H).
Qed.

(** ** Relative-strength oscillator *)

Lemma rsi_value_zero_loss (gains losses : num) :
  (losses =? Fin 0)%num = true -> rsi_value gains losses = Fin 100.
Proof. intros H. unfold rsi_value. now rewrite H. Qed.


Lemma notBelow_ltb (lo : Q) (x : num) :
  notBelow lo x <-> (x <? Fin lo)%num = false.
Proof.
  destruct x as [| | |a]; simpl; unfold ltb; try tauto.
  - split; [contradiction|discriminate].
  - symmetry. apply Qltb_ge.
Qed.

Lemma notBelow_fin (lo q : Q) : notBelow lo (fin q) <-> (lo <= q)%Q.
Proof. unfold fin. simpl. now rewrite Qred_correct. Qed.

Lemma notBelow_nonneg (x : num) : nonneg x -> notBelow 0 x.
Proof. destruct x; simpl; auto. Qed.






(** Division by a number that is above zero, or by [+Infinity]. *)
Lemma div_notBelow (x p : num) :
  notBelow 0 x -> (p >? Fin 0)%num = true -> notBelow 0 (x / p)%num.
Proof.
  intros Hx Hp.
  destruct p as [| | |q]; try discriminate.
  - destruct x as [| | |a]; simpl in Hx; try contradiction; simpl; auto.
    apply Qle_refl.
  - apply gtb_Fin in Hp.
    destruct x as [| | |a]; simpl in Hx; try contradiction.
    + exact I.
    + unfold div. destruct (Qltb q 0) eqn:E; [|exact I].
      apply Qltb_lt in E. lra.
    + rewrite div_Fin by lra. apply notBelow_fin.
      apply Qle_shift_div_l; lra.
Qed.







(** ** Equity stays non-negative *)

Lemma atleast_fin (lo q : Q) : atleast lo (fin q) <-> (lo <= q)%Q.
Proof. unfold fin. simpl. now rewrite Qred_correct. Qed.

Lemma between_Fin (lo hi : Q) (x : num) :
  between lo hi x -> exists q, x = Fin q /\ (lo <= q <= hi)%Q.
Proof. destruct x; simpl; try contradiction. eauto. Qed.

Lemma atleast_Fin (lo : Q) (x : num) :
  atleast lo x -> exists q, x = Fin q /\ (lo <= q)%Q.
Proof. destruct x; simpl; try contradiction. eauto. Qed.

Lemma mul_nonneg (x y : num) : nonneg x -> nonneg y -> nonneg (x * y)%num.
Proof.
  intros (a & -> & Ha)%nonneg_Fin (b & -> & Hb)%nonneg_Fin.
  rewrite mul_Fin. apply nonneg_fin. now apply Qmult_le_0_compat.
Qed.

(** [clamp] between two finite bounds gives a number between the bounds,
    unless its argument is [NaN]. *)
Lemma clamp_range (x : num) (lo hi : Q) :
  (lo <= hi)%Q ->
  clamp x (Fin lo) (Fin hi) = NaN \/ between lo hi (clamp x (Fin lo) (Fin hi)).
Proof.
  intros Hlh. unfold clamp, Math_max, Math_min, leb.
  destruct x as [| | |q]; auto; right.
  - (* -Infinity *)
    simpl. split; [apply Qle_refl|exact Hlh].
  - (* +Infinity *)
    destruct (Qle_bool lo hi) eqn:E; simpl.
    + split; [exact Hlh|apply Qle_refl].
    + apply Qleb_gt in E. lra.
  - destruct (Qle_bool hi q) eqn:E1.
    + destruct (Qle_bool lo hi) eqn:E2; simpl.
      * split; [exact Hlh|apply Qle_refl].
      * split; [apply Qle_refl|exact Hlh].
    + apply Qleb_gt in E1.
      destruct (Qle_bool lo q) eqn:E2; simpl.
      * apply Qle_bool_iff in E2. split; [exact E2|lra].
      * split; [apply Qle_refl|exact Hlh].
Qed.

Lemma clamp_finite_range (x : num) (lo hi : Q) :
  (lo <= hi)%Q -> isFinite x = true ->
  between lo hi (clamp x (Fin lo) (Fin hi)).
Proof.
  intros Hlh (q & ->)%isFinite_Fin.
  destruct (clamp_range (Fin q) lo hi Hlh) as [H|H]; [|exact H].
  unfold clamp, Math_max, Math_min in H.
  repeat case_match; discriminate.
Qed.

Lemma cost_range (a : Args) :
  isFinite (feeBps a) = true -> isFinite (slipBps a) = true ->
  between 0 (1 # 10) (cost a).
Proof.
  intros (f & Hf)%isFinite_Fin (sl & Hs)%isFinite_Fin.
  unfold cost. rewrite Hf, Hs.
  apply clamp_finite_range; [discriminate|].
  rewrite add_Fin. unfold fin at 1. now rewrite div_Fin.
Qed.

Lemma cost_factor_range (a : Args) :
  isFinite (feeBps a) = true -> isFinite (slipBps a) = true ->
  between (9 # 10) 1 (Fin 1 - cost a)%num.
Proof.
  intros Hf Hs.
  destruct (between_Fin _ _ _ (cost_range a Hf Hs)) as (c & -> & Hc).
  rewrite sub_Fin. apply between_fin. lra.
Qed.

Lemma exposure_range (a : Args) (dayIso : string) :
  (exposureForDay a dayIso >? Fin 0)%num = true ->
  between 0 1 (exposureForDay a dayIso).
Proof.
  unfold exposureForDay.
  destruct (negb (eventScaleOn a)); [intros _; simpl; split; discriminate|].
  destruct (_ >=? _)%num; [|intros _; simpl; split; discriminate].
  destruct (clamp_range (eventScale a) 0 1) as [->|H]; auto; discriminate.
Qed.

(** The return of a bar held with an exposure in [[0, 1]] from a positive
    previous close to a price that is not negative is at least [-1]. *)
Lemma scaled_return_bound (expo x prevClose : num) :
  between 0 1 expo -> nonneg x ->
  isFinite prevClose = true -> (prevClose >? Fin 0)%num = true ->
  atleast (-1) (expo * (x / prevClose - Fin 1))%num.
Proof.
  intros (e & -> & He)%between_Fin (y & -> & Hy)%nonneg_Fin
         (p & ->)%isFinite_Fin Hp.
  apply gtb_Fin in Hp.
  rewrite div_Fin by lra. unfold fin at 1. rewrite sub_Fin.
  unfold fin at 1. rewrite mul_Fin. apply atleast_fin.
  rewrite !Qred_correct.
  assert (Hr : (0 <= y / p)%Q) by (apply Qle_shift_div_l; lra).
  assert (He' : (0 <= e * (y / p))%Q) by (apply Qmult_le_0_compat; lra).
  lra.
Qed.

Lemma one_plus_nonneg (r : num) : atleast (-1) r -> nonneg (Fin 1 + r)%num.
Proof.
  intros (q & -> & Hq)%atleast_Fin. rewrite add_Fin. apply nonneg_fin. lra.
Qed.

Lemma between_nonneg (lo hi : Q) (x : num) :
  (0 <= lo)%Q -> between lo hi x -> nonneg x.
Proof.
  intros Hlo (q & -> & Hq)%between_Fin. simpl. lra.
Qed.

Lemma leb_nonneg (x y : num) :
  nonneg x -> isFinite y = true -> (x <=? y)%num = true -> nonneg y.
Proof.
  intros (a & -> & Ha)%nonneg_Fin (b & ->)%isFinite_Fin H.
  apply leb_Fin in H. simpl. lra.
Qed.

Lemma positionChange_solvent (a : Args) (i : nat) (p : num) (s : State) :
  isFinite (feeBps a) = true -> isFinite (slipBps a) = true ->
  solvent s -> solvent (positionChange a i p s).
Proof.
  intros Hf Hs (He & Hc & Hd).
  assert (Hk : nonneg (equity s * (Fin 1 - cost a))%num).
  { apply mul_nonneg; [exact He|].
    apply (between_nonneg (9 # 10) 1); [discriminate|].
    now apply cost_factor_range. }
  unfold positionChange.
  destruct (position_eqb _ _); [now split|].
  destruct (_ && negb _); [now split|].
  destruct (desiredAt a i); now split.
Qed.

Lemma dailyReturn_solvent (a : Args) (prevClose : num) (today : OHLCV)
    (s : State) :
  isFinite (feeBps a) = true -> isFinite (slipBps a) = true ->
  nonneg prevClose -> priced today ->
  solvent s -> solvent (dailyReturn a prevClose today s).
Proof.
  intros Hf Hs Hprev [Hlow Hclose] (He & Hc & Hd).
  assert (Hpf : isFinite prevClose = true).
  { destruct (nonneg_Fin _ Hprev) as (q & -> & _). reflexivity. }
  assert (Hgrow : forall r, atleast (-1) r ->
            solvent (mkState (equity s * (Fin 1 + r))%num (pos s)
                       (entryPrice s) (stopLevel s)
                       (trades s) (wins s) (losses s)
                       (curve s ++ [(t today, (equity s * (Fin 1 + r))%num)])
                       (daily s ++ [r]))).
  { intros r Hr.
    assert (nonneg (equity s * (Fin 1 + r))%num)
      by (apply mul_nonneg; [exact He|now apply one_plus_nonneg]).
    split; [assumption|]. split; apply Forall_app; split; auto. }
  unfold dailyReturn, expoFor.
  destruct (pos s) eqn:Hpos; simpl.
  - (* FLAT *)
    assert (nonneg (equity s * Fin 1)%num)
      by (apply mul_nonneg; [exact He|discriminate]).
    split; [assumption|].
    split; apply Forall_app; split; auto.
    apply Forall_cons; split; [discriminate|apply Forall_nil; exact I].
  - destruct (exposureForDay a (t today) >? Fin 0)%num eqn:Hexpo; simpl.
    + pose proof (exposure_range _ _ Hexpo) as Hrange.
      destruct (stopHit prevClose today s) eqn:Hstop.
      * (* the stop is hit *)
        unfold stopHit in Hstop.
        apply andb_true_iff in Hstop as [Hstop Hgt].
        apply andb_true_iff in Hstop as [Hfin Hle].
        pose proof (leb_nonneg _ _ Hlow Hfin Hle) as Hsl.
        pose proof (scaled_return_bound _ _ _ Hrange Hsl Hpf Hgt) as Hr.
        assert (H1 : nonneg (equity s
                     * (Fin 1 + exposureForDay a (t today)
                                * (stopLevel s / prevClose - Fin 1))
                     * (Fin 1 - cost a))%num).
        { apply mul_nonneg.
          - apply mul_nonneg; [exact He|now apply one_plus_nonneg].
          - apply (between_nonneg (9 # 10) 1); [discriminate|].
            now apply cost_factor_range. }
        split; [exact H1|]. split; apply Forall_app; split; auto.
      * (* the ordinary return *)
        apply Hgrow.
        destruct (prevClose >? Fin 0)%num eqn:Hgt.
        -- now apply scaled_return_bound.
        -- destruct (between_Fin _ _ _ Hrange) as (e & -> & _).
           rewrite mul_Fin. apply atleast_fin. lra.
    + (* the exposure is not above 0 *)
      assert (nonneg (equity s * Fin 1)%num)
        by (apply mul_nonneg; [exact He|discriminate]).
      split; [assumption|].
      split; apply Forall_app; split; auto.
      apply Forall_cons; split; [discriminate|apply Forall_nil; exact I].
Qed.

Lemma bar_solvent (a : Args) (i : nat) (prev today : OHLCV) (s : State) :
  isFinite (feeBps a) = true -> isFinite (slipBps a) = true ->
  priced prev -> priced today ->
  solvent s -> solvent (bar a i prev today s).
Proof.
  intros Hf Hs [_ Hprev] Htoday Hsolv. unfold bar.
  apply dailyReturn_solvent; auto.
  now apply positionChange_solvent.
Qed.

(** ** Equity is never below zero *)

Lemma geb_zero_cases (x : num) :
  (x >=? Fin 0)%num = true ->
  x = PosInf \/ exists a, x = Fin a /\ (0 <= a)%Q.
Proof.
  destruct x as [| | |a]; try discriminate; auto.
  intros H. right. exists a. split; [reflexivity|]. now apply leb_Fin in H.
Qed.












(** ** Division by [NaN] *)

Lemma div_NaN_r (x : num) : (x / NaN)%num = NaN.
Proof. now destruct x. Qed.

(** ** The theorems at work on concrete runs *)

(** The liquidation of [stopped_args] on bar 1: entry at 100 with the stop
    at 94, the low of 90 hits it, and the exit is a loss. *)
Lemma stop_liquidation_witness :
  let s1 := positionChange stopped_args 1 (close stopped_r0) init in
  let s2 := bar stopped_args 1 stopped_r0 stopped_r1 init in
  (pos s1 = LONG /\ stopLevel s1 = Fin 94 /\ entryPrice s1 = Fin 100)
  /\ equity s2
     = (equity s1 * (Fin 1 + Fin 1 * (Fin 94 / Fin 100 - Fin 1))
        * (Fin 1 - cost stopped_args))%num
  /\ trades s2 = 2%nat /\ pos s2 = FLAT
  /\ wins s2 = 0%nat /\ losses s2 = 1%nat.
Proof.
  intros s1 s2.
  destruct (stop_liquidation stopped_args 1 stopped_r0 stopped_r1 init
              eq_refl eq_refl eq_refl eq_refl eq_refl)
    as (_ & Heq & _ & _ & Htr & Hpos & _ & _ & Hwl).
  split; [repeat split|].
  split; [exact Heq|]. split; [exact Htr|]. split; [exact Hpos|exact Hwl].
Defined.

(** The gate of [gated_args] keeps the run out of the market. *)
Lemma volume_gate_witness :
  exists s, simulate gated_args = Some s
            /\ pos s = FLAT /\ trades s = 0%nat
            /\ wins s = 0%nat /\ losses s = 0%nat
            /\ Forall (fun r => r = Fin 0) (daily s).
Proof.
  eexists. split; [reflexivity|].
  refine (proj2 (proj2 (volume_gate_blocks_entries gated_args eq_refl)) _ _ eq_refl).
  intros [|[|[|j]]] v; simpl; intros [= <-]; reflexivity.
Defined.

(** The counts of the run of [belowZero_args]: two trades, no win and no
    loss. *)
Lemma wins_losses_witness :
  exists res,
    backtestFromSignal sqrt_floor pow_natural belowZero_args = Some res
    /\ (res_wins res + res_losses res <= res_trades res)%nat.
Proof.
  eexists. split; [reflexivity|].
  exact (proj1 (wins_losses_le_trades sqrt_floor pow_natural belowZero_args
                  _ eq_refl)).
Defined.

(** Bar 1 of [eventDay_args]: twelve events scale the exposure to 0. *)
Lemma zero_exposure_witness :
  let s1 := positionChange eventDay_args 1 (close rising_r0) init in
  let s2 := bar eventDay_args 1 rising_r0 rising_r1 init in
  pos s1 = LONG /\ pos s2 = LONG
  /\ trades s2 = trades s1 /\ daily s2 = daily s1 ++ [Fin 0]
  /\ same (equity s2) (equity s1).
Proof.
  intros s1 s2.
  destruct (zero_exposure_skips_stop eventDay_args 1 rising_r0 rising_r1 init
              eq_refl eq_refl eq_refl eq_refl)
    as (Hpos & _ & _ & Htr & _ & _ & Hd & He & _).
  split; [reflexivity|]. split; [exact Hpos|]. split; [exact Htr|].
  split; [exact Hd|exact He].
Defined.



(** * The Sharpe ratio, in binary64 *)


Lemma b64_mul_NaN_l (x : B64.num) : B64.mul B64.NaN x = B64.NaN.
Proof. reflexivity. Qed.









(** * Overflow in the oscillator and in the equity, in binary64 *)



(** * Further properties *)

(** ** Values of finite numbers *)

Lemma hasval_fin (q q' : Q) : (q == q')%Q -> hasval (fin q) q'.
Proof. intros H. unfold fin. simpl. now rewrite Qred_correct. Qed.

Lemma hasval_Fin (x : num) (q : Q) :
  hasval x q -> exists a, x = Fin a /\ (a == q)%Q.
Proof. destruct x; simpl; try contradiction. eauto. Qed.

Lemma hasval_eq (x : num) (q q' : Q) : hasval x q -> (q == q')%Q -> hasval x q'.
Proof.
  intros (a & -> & Ha)%hasval_Fin Hq. simpl. now rewrite Ha.
Qed.

Lemma hasval_add (x y : num) (a b : Q) :
  hasval x a -> hasval y b -> hasval (x + y)%num (a + b).
Proof.
  intros (a' & -> & Ha)%hasval_Fin (b' & -> & Hb)%hasval_Fin.
  rewrite add_Fin. apply hasval_fin. now rewrite Ha, Hb.
Qed.

Lemma hasval_sub (x y : num) (a b : Q) :
  hasval x a -> hasval y b -> hasval (x - y)%num (a - b).
Proof.
  intros (a' & -> & Ha)%hasval_Fin (b' & -> & Hb)%hasval_Fin.
  rewrite sub_Fin. apply hasval_fin. now rewrite Ha, Hb.
Qed.

Lemma hasval_mul (x y : num) (a b : Q) :
  hasval x a -> hasval y b -> hasval (x * y)%num (a * b).
Proof.
  intros (a' & -> & Ha)%hasval_Fin (b' & -> & Hb)%hasval_Fin.
  rewrite mul_Fin. apply hasval_fin. now rewrite Ha, Hb.
Qed.

Lemma hasval_div (x y : num) (a b : Q) :
  hasval x a -> hasval y b -> ~ (b == 0)%Q -> hasval (x / y)%num (a / b).
Proof.
  intros (a' & -> & Ha)%hasval_Fin (b' & -> & Hb)%hasval_Fin Hnz.
  rewrite div_Fin by (now rewrite Hb). apply hasval_fin. now rewrite Ha, Hb.
Qed.

Lemma hasval_same (x y : num) (q : Q) : hasval x q -> hasval y q -> same x y.
Proof.
  intros (a & -> & Ha)%hasval_Fin (b & -> & Hb)%hasval_Fin.
  simpl. now rewrite Ha, Hb.
Qed.

Lemma hasval_of_nat (n : nat) : hasval (of_nat n) (inject_Z (Z.of_nat n)).
Proof. simpl. reflexivity. Qed.

Lemma of_nat_gtb (a b : nat) : (of_nat a >? of_nat b)%num = (b <? a)%nat.
Proof.
  unfold gtb, ltb, of_nat, Qltb.
  destruct (b <? a)%nat eqn:E.
  - apply Nat.ltb_lt in E. apply negb_true_iff.
    apply Qleb_gt. rewrite <- Zlt_Qlt. now apply Nat2Z.inj_lt.
  - apply Nat.ltb_ge in E. apply negb_false_iff.
    apply Qle_bool_iff. rewrite <- Zle_Qle. now apply Nat2Z.inj_le.
Qed.

Lemma of_nat_eqb (a b : nat) : (of_nat a =? of_nat b)%num = (a =? b)%nat.
Proof.
  unfold eqb, of_nat.
  destruct (a =? b)%nat eqn:E.
  - apply Nat.eqb_eq in E. subst. apply Qeq_bool_refl.
  - apply Nat.eqb_neq in E.
    destruct (Qeq_bool _ _) eqn:E'; [|reflexivity].
    apply Qeq_bool_iff in E'. rewrite inject_Z_injective in E'.
    apply Nat2Z.inj in E'. contradiction.
Qed.

Lemma qsum_app (l1 l2 : list Q) : (qsum (l1 ++ l2) == qsum l1 + qsum l2)%Q.
Proof.
  induction l1 as [|a l1 IH]; simpl.
  - ring.
  - rewrite IH. ring.
Qed.

(** ** The sliding window *)



Lemma window_loop_length (out : num -> list num -> num -> option num)
    (win : num) (values : list num) :
  forall q s, length (window_loop out win values q s) = length values.
Proof.
  induction values as [|v values IH]; intros q s; simpl; [reflexivity|].
  now rewrite IH.
Qed.

Lemma qsum_nonneg (l : list Q) : Forall (fun q => (0 <= q)%Q) l -> (0 <= qsum l)%Q.
Proof.
  induction 1 as [|a l Ha _ IH]; simpl; [apply Qle_refl|]. lra.
Qed.


Lemma hasval_between (x : num) (q lo hi : Q) :
  hasval x q -> (lo <= q <= hi)%Q -> between lo hi x.
Proof.
  intros (a & -> & Ha)%hasval_Fin H. simpl. now rewrite Ha.
Qed.

Lemma slide_length (w : nat) (q : list num) (s v : num) :
  (1 <= w)%nat -> (length q <= w)%nat ->
  length (slide (of_nat w) q s v).1 = Nat.min (length q + 1) w.
Proof.
  intros Hw Hlen. unfold slide.
  rewrite length_app. simpl length. rewrite of_nat_gtb.
  destruct (w <? length q + 1)%nat eqn:E.
  - apply Nat.ltb_lt in E. rewrite Nat.min_r by lia.
    destruct q as [|h q']; simpl in *; [lia|].
    rewrite length_app. simpl. lia.
  - apply Nat.ltb_ge in E. rewrite Nat.min_l by lia.
    simpl. rewrite length_app. simpl. lia.
Qed.

Lemma window_loop_warmup (out : num -> list num -> num -> option num)
    (w : nat) (values : list num) :
  (1 <= w)%nat ->
  (forall v q s, (length q < w)%nat -> out v q s = None) ->
  forall q s,
    (length q <= w)%nat ->
    forall k o,
      window_loop out (of_nat w) values q s !! k = Some o ->
      (length q + k + 1 < w)%nat -> o = None.
Proof.
  intros Hw Hout. induction values as [|v values IH];
    intros q s Hlen k o Hk Hlt; [discriminate|].
  pose proof (slide_length w q s v Hw Hlen) as Hl.
  cbn [window_loop] in Hk.
  remember (slide (of_nat w) q s v) as qs eqn:Eqs. clear Eqs.
  destruct k as [|k]; simpl in Hk.
  - injection Hk as <-. apply Hout. rewrite Hl. lia.
  - apply (IH qs.1 qs.2) with (k := k); [rewrite Hl; lia|exact Hk|].
    rewrite Hl. lia.
Qed.

(** What the loop writes at an index is what [out] gives for the value at
    that index and some state of the window. *)
Lemma window_loop_entry (out : num -> list num -> num -> option num)
    (win : num) (values : list num) :
  forall q s k o v,
    window_loop out win values q s !! k = Some o ->
    values !! k = Some v ->
    exists q' s', o = out v q' s'.
Proof.
  induction values as [|x values IH]; intros q s k o v Hk Hv; [discriminate|].
  cbn [window_loop] in Hk.
  destruct k as [|k]; simpl in Hk, Hv.
  - injection Hk as <-. injection Hv as <-. eauto.
  - exact (IH _ _ _ _ _ Hk Hv).
Qed.

(** ** Moving average *)




(** ** Rolling volume ratio *)

(** X2. [computeVolumeRatioSeries] with a window of [w >= 1] bars, whatever
    the volumes: one entry per bar; no entry before index [w - 1]; and the
    entry of a bar whose volume is not below zero is never below zero: it
    is a number that is not negative, [+Infinity] or [NaN], since a ratio is
    written only when the average of the window is above zero. *)
Theorem volumeRatio_shape (w : nat) (rows : list OHLCV) :
  (1 <= w)%nat ->
  let out := computeVolumeRatioSeries rows (of_nat w) in
  length out = length rows
  /\ (forall i, (i < length rows)%nat -> (i + 1 < w)%nat ->
                out !! i = Some None)
  /\ (forall i r v,
        rows !! i = Some r -> out !! i = Some (Some v) ->
        (volume r >=? Fin 0)%num = true ->
        (v <? Fin 0)%num = false).
Proof.
  intros Hw out.
  assert (Hlen : length out = length rows).
  { subst out. unfold computeVolumeRatioSeries.
    now rewrite window_loop_length, length_map. }
  split; [exact Hlen|]. split.
  - intros i Hi Hlt.
    destruct (lookup_lt_is_Some_2 out i ltac:(lia)) as [o Ho].
    rewrite Ho. f_equal.
    refine (window_loop_warmup (volumeRatio_out (of_nat w)) w (map volume rows)
              Hw _ [] (Fin 0) ltac:(simpl; lia) i o Ho ltac:(simpl; lia)).
    intros v q s Hq. unfold volumeRatio_out. rewrite of_nat_eqb.
    destruct (length q =? w)%nat eqn:E; [apply Nat.eqb_eq in E; lia|reflexivity].
  - intros i r v Hr Hv Hvol.
    destruct (window_loop_entry (volumeRatio_out (of_nat w)) (of_nat w)
                (map volume rows) [] (Fin 0) i (Some v) (volume r) Hv)
      as (q' & s' & Ho).
    { rewrite list_lookup_fmap, Hr. reflexivity. }
    unfold volumeRatio_out in Ho.
    destruct (of_nat (length q') =? of_nat w)%num; [|discriminate].
    cbv zeta in Ho.
    destruct (s' / of_nat w >? Fin 0)%num eqn:Eavg; [|discriminate].
    injection Ho as ->.
    apply notBelow_ltb, div_notBelow; [|exact Eavg].
    destruct (geb_zero_cases _ Hvol) as [->|(a & -> & Ha)]; simpl; auto.
Qed.

(** The ratio of the last of three equal volumes to their average over
    two bars. *)
Lemma volumeRatio_shape_witness :
  computeVolumeRatioSeries rising_rows (of_nat 2) !! 0%nat = Some None
  /\ computeVolumeRatioSeries rising_rows (of_nat 2) !! 2%nat
     = Some (Some (Fin 1)).
Proof.
  destruct (volumeRatio_shape 2 rising_rows ltac:(lia)) as (_ & H & _).
  split; [|reflexivity].
  exact (H 0%nat ltac:(simpl; lia) ltac:(lia)).
Defined.

(** ** Runs that stay out of the market *)

Lemma bar_idle (a : Args) (i : nat) (prev today : OHLCV) (s : State) :
  neverEnters a -> idle s -> idle (bar a i prev today s).
Proof.
  intros Hne ((Hpos & Htr & Hw & Hl & Hd) & He & Hc). unfold bar.
  rewrite positionChange_flat_blocked by auto.
  rewrite dailyReturn_flat by exact Hpos.
  unfold idle, untouched. simpl. rewrite He.
  repeat split; auto.
  - apply Forall_app. split; [exact Hd|].
    apply Forall_cons. split; [reflexivity|apply Forall_nil; exact I].
  - apply Forall_app. split; [exact Hc|].
    apply Forall_cons. split; [reflexivity|apply Forall_nil; exact I].
Qed.

Lemma neverEnters_idle (a : Args) (s : State) :
  neverEnters a -> simulate a = Some s -> idle s.
Proof.
  intros Hne Hs.
  apply (simulate_invariant a (fun _ => True) idle) with (s := s); auto.
  - intros. now apply bar_idle.
  - apply Forall_forall; auto.
  - unfold idle, untouched. simpl. repeat split; apply Forall_nil; exact I.
Qed.

(** X3. A signal that is falsy on every bar ([0], [NaN]) keeps the run
    out of the market whatever the prices and the settings: the run ends
    FLAT with no trade, no win and no loss, every recorded return is 0 and
    the equity is exactly 1 at the end of every bar. *)
Theorem flat_signal_stays_out (a : Args) (s : State) :
  Forall (fun v => truthy v = false) (signal a) ->
  simulate a = Some s ->
  pos s = FLAT /\ trades s = 0%nat /\ wins s = 0%nat /\ losses s = 0%nat
  /\ Forall (fun r => r = Fin 0) (daily s)
  /\ equity s = Fin 1
  /\ Forall (fun p : string * num => p.2 = Fin 1) (curve s).
Proof.
  intros Hsig Hs.
  assert (Hne : neverEnters a).
  { intros i Hd. unfold desiredAt in Hd.
    destruct (signal a !! (i - 1)%nat) as [v|] eqn:E; [|discriminate].
    rewrite Forall_forall in Hsig.
    rewrite (Hsig v) in Hd; [discriminate|].
    now apply (list_elem_of_lookup_2 _ (i - 1)). }
  destruct (neverEnters_idle a s Hne Hs) as ((H1 & H2 & H3 & H4 & H5) & H6 & H7).
  repeat split; assumption.
Qed.

Lemma flat_signal_stays_out_witness :
  exists s, simulate (withSignal rising_args [Fin 0; NaN; Fin 0]) = Some s
            /\ trades s = 0%nat /\ equity s = Fin 1.
Proof.
  eexists. split; [reflexivity|].
  destruct (flat_signal_stays_out (withSignal rising_args [Fin 0; NaN; Fin 0]) _
              ltac:(repeat constructor) eq_refl)
    as (_ & Htr & _ & _ & _ & He & _).
  split; [exact Htr|exact He].
Defined.

(** X4. With the volume gate on and fed with the series of
    [computeVolumeRatioSeries] over a window of [w] bars that is longer
    than the list of bars, the series holds no ratio at all, so the run
    never enters, whatever the signal, the volumes and the threshold. *)
Theorem gate_window_too_long_stays_out (a : Args) (w : nat) (s : State) :
  (length (rows a) < w)%nat ->
  volumeGateOn a = true ->
  volumeRatio a = computeVolumeRatioSeries (rows a) (of_nat w) ->
  simulate a = Some s ->
  pos s = FLAT /\ trades s = 0%nat /\ wins s = 0%nat /\ losses s = 0%nat
  /\ Forall (fun r => r = Fin 0) (daily s)
  /\ equity s = Fin 1.
Proof.
  intros Hlen Hon Hvr Hs.
  assert (Hw : (1 <= w)%nat) by lia.
  assert (Hnone : forall j v, at_index (volumeRatio a) j = Some v -> False).
  { intros j v Hj. unfold at_index in Hj. rewrite Hvr in Hj.
    destruct (computeVolumeRatioSeries (rows a) (of_nat w) !! j)
      as [[v'|]|] eqn:E; try discriminate.
    assert (Hjl : (j < length (rows a))%nat).
    { apply lookup_lt_Some in E. unfold computeVolumeRatioSeries in E.
      now rewrite window_loop_length, length_map in E. }
    unfold computeVolumeRatioSeries in E.
    assert (Some v' = None); [|discriminate].
    refine (window_loop_warmup (volumeRatio_out (of_nat w)) w
              (map volume (rows a)) Hw _ [] (Fin 0) ltac:(simpl; lia)
              j (Some v') E ltac:(simpl; lia)).
    intros x q s0 Hq. unfold volumeRatio_out. rewrite of_nat_eqb.
    destruct (length q =? w)%nat eqn:E'; [apply Nat.eqb_eq in E'; lia|reflexivity]. }
  assert (Hne : neverEnters a).
  { intros i _. unfold allowEntry. rewrite Hon. simpl.
    destruct (at_index (volumeRatio a) (i - 1)) as [v|] eqn:E; [|reflexivity].
    destruct (Hnone _ _ E). }
  destruct (neverEnters_idle a s Hne Hs) as ((H1 & H2 & H3 & H4 & H5) & H6 & H7).
  repeat split; assumption.
Qed.

(** ** Average true range *)






Lemma fin_vals_app (q1 q2 : list num) :
  fin_vals (q1 ++ q2) = fin_vals q1 ++ fin_vals q2.
Proof. unfold fin_vals. apply omap_app. Qed.










(** ** Maximum drawdown *)

Lemma ltb_leb_trans (x y z : num) :
  (x <? y)%num = true -> (y <=? z)%num = true -> (x <=? z)%num = true.
Proof.
  destruct x as [| | |a], y as [| | |b], z as [| | |c];
    unfold ltb, leb; try discriminate; auto.
  intros H1 H2. apply Qltb_lt in H1. apply Qle_bool_iff in H2.
  apply Qle_bool_iff. lra.
Qed.

Lemma drawdown_step_le (acc : num * num) (p : string * num) :
  (acc.2 <=? Fin 0)%num = true ->
  ((drawdown_step acc p).2 <=? Fin 0)%num = true.
Proof.
  destruct acc as [peak mdd]. unfold drawdown_step. simpl. intros H.
  destruct (_ <? mdd)%num eqn:E; [|exact H].
  exact (ltb_leb_trans _ _ _ E H).
Qed.

Lemma drawdown_fold_le (curve : list (string * num)) :
  forall acc, (acc.2 <=? Fin 0)%num = true ->
              ((fold_left drawdown_step curve acc).2 <=? Fin 0)%num = true.
Proof.
  induction curve as [|p curve IH]; intros acc H; simpl; [exact H|].
  apply IH. now apply drawdown_step_le.
Qed.

Lemma drawdown_step_ok (acc : num * num) (p : string * num) :
  nonneg p.2 -> drawdown_ok acc -> drawdown_ok (drawdown_step acc p).
Proof.
  destruct acc as [peak mdd]. destruct p as [d e]. simpl.
  intros (c & -> & Hc)%nonneg_Fin [Hpeak Hmdd]. simpl in Hpeak, Hmdd.
  unfold drawdown_step. simpl.
  assert (Hp : exists p', (if (Fin c >? peak)%num then Fin c else peak) = Fin p'
                          /\ (0 <= p')%Q /\ (c <= p')%Q).
  { destruct Hpeak as [->|Hpeak].
    - exists c. repeat split; [exact Hc|apply Qle_refl].
    - destruct (nonneg_Fin _ Hpeak) as (p0 & -> & Hp0).
      destruct (Fin c >? Fin p0)%num eqn:E.
      + exists c. repeat split; [exact Hc|apply Qle_refl].
      + exists p0. repeat split; [exact Hp0|].
        unfold gtb, ltb in E. now apply Qltb_ge in E. }
  destruct Hp as (p' & -> & Hp0 & Hcp).
  split; [right; exact Hp0|]. simpl.
  destruct (between_Fin _ _ _ Hmdd) as (m & -> & Hm).
  destruct (Fin p' >? Fin 0)%num eqn:Epos.
  - apply gtb_Fin in Epos.
    assert (Hdd : between (-1) 0 ((Fin c - Fin p') / Fin p')%num).
    { apply (hasval_between _ ((c - p') / p')).
      - apply hasval_div; [apply hasval_sub|simpl|lra]; simpl; reflexivity.
      - split.
        + apply Qle_shift_div_l; [exact Epos|]. lra.
        + apply Qle_shift_div_r; [exact Epos|]. lra. }
    destruct (_ <? Fin m)%num; [exact Hdd|exact Hm].
  - destruct (Fin 0 <? Fin m)%num; [|exact Hm].
    simpl. split; discriminate.
Qed.

Lemma drawdown_fold_ok (curve : list (string * num)) :
  Forall (fun p : string * num => nonneg p.2) curve ->
  forall acc, drawdown_ok acc -> drawdown_ok (fold_left drawdown_step curve acc).
Proof.
  induction 1 as [|p curve Hp _ IH]; intros acc Hacc; simpl; [exact Hacc|].
  apply IH. now apply drawdown_step_ok.
Qed.

Lemma maxDrawdown_between (curve : list (string * num)) :
  Forall (fun p : string * num => nonneg p.2) curve ->
  between (-1) 0 (computeMaxDrawdownFromCurve curve).
Proof.
  intros H. unfold computeMaxDrawdownFromCurve.
  apply (drawdown_fold_ok curve H (NegInf, Fin 0)).
  split; [now left|]. simpl. split; discriminate.
Qed.

(** X6. [computeMaxDrawdownFromCurve] never gives a positive number:
    its value is at most 0 for every curve, non-finite equities included;
    for a curve of finite equities that are not negative it is a finite
    number between -1 and 0. *)
Theorem maxDrawdown_range (curve : list (string * num)) :
  (computeMaxDrawdownFromCurve curve <=? Fin 0)%num = true
  /\ (Forall (fun p : string * num => nonneg p.2) curve ->
      between (-1) 0 (computeMaxDrawdownFromCurve curve)).
Proof.
  split.
  - unfold computeMaxDrawdownFromCurve.
    now apply (drawdown_fold_le curve (NegInf, Fin 0)).
  - apply maxDrawdown_between.
Qed.

(** X7. When the low and the close of every bar are finite and not
    negative and fee and slippage are finite, the maximum drawdown that a
    run reports is a finite number between -1 and 0. *)
Theorem backtest_maxDrawdown_range
    (Math_sqrt : num -> num) (Math_pow : num -> num -> num)
    (a : Args) (res : BacktestResult) :
  Forall priced (rows a) ->
  isFinite (feeBps a) = true ->
  isFinite (slipBps a) = true ->
  backtestFromSignal Math_sqrt Math_pow a = Some res ->
  between (-1) 0 (maxDrawdown (stats res)).
Proof.
  intros Hrows Hf Hs H. apply backtest_simulate in H as (s & Hsim & ->).
  assert (Hsolv : solvent s).
  { apply (simulate_invariant a priced solvent) with (s := s); auto.
    - intros. now apply bar_solvent.
    - split; [discriminate|]. split; apply Forall_nil; exact I. }
  destruct Hsolv as (_ & Hc & _). simpl.
  now apply maxDrawdown_between.
Qed.

(** ** Shape of the result *)

Lemma dailyReturn_pushes (a : Args) (p : num) (today : OHLCV) (s : State) :
  let s' := dailyReturn a p today s in
  curve s' = curve s ++ [(t today, equity s')]
  /\ length (daily s') = S (length (daily s)).
Proof.
  unfold dailyReturn.
  repeat case_match; simpl; rewrite length_app; simpl;
    (split; [reflexivity|lia]).
Qed.

Lemma positionChange_keeps_series (a : Args) (i : nat) (p : num) (s : State) :
  curve (positionChange a i p s) = curve s
  /\ daily (positionChange a i p s) = daily s.
Proof.
  unfold positionChange. repeat case_match; simpl; auto.
Qed.

Lemma bar_pushes (a : Args) (i : nat) (prev today : OHLCV) (s : State) :
  let s' := bar a i prev today s in
  curve s' = curve s ++ [(t today, equity s')]
  /\ length (daily s') = S (length (daily s)).
Proof.
  unfold bar.
  destruct (dailyReturn_pushes a (close prev) today
              (positionChange a i (close prev) s)) as [Hc Hd].
  destruct (positionChange_keeps_series a i (close prev) s) as [Hc' Hd'].
  simpl in *. rewrite Hc, Hd, Hc', Hd'. auto.
Qed.

Lemma loop_shape (a : Args) (rest : list OHLCV) :
  forall i prev s,
    let s' := loop a i prev rest s in
    map fst (curve s') = map fst (curve s) ++ map t rest
    /\ length (daily s') = (length (daily s) + length rest)%nat
    /\ (rest <> [] -> exists d, last (curve s') = Some (d, equity s')).
Proof.
  induction rest as [|today rest IH]; intros i prev s; simpl.
  - rewrite app_nil_r. repeat split; auto. congruence.
  - destruct (bar_pushes a i prev today s) as [Hc Hd]. simpl in Hc, Hd.
    destruct (IH (S i) today (bar a i prev today s)) as (Hm & Hl & Hlast).
    simpl in Hm, Hl, Hlast. rewrite Hm, Hl, Hd, Hc.
    rewrite map_app. simpl. rewrite <- app_assoc. simpl.
    split; [reflexivity|]. split; [lia|]. intros _.
    destruct rest as [|r rest'].
    + simpl. rewrite Hc, last_snoc. eauto.
    + apply Hlast. discriminate.
Qed.

(** X8. [backtestFromSignal] gives no result exactly when there are
    fewer than two bars.  A result has one curve point and one return per
    bar after the first, the curve points carry the dates of those bars in
    order, and the total return is the equity of the last curve point
    minus 1. *)
Theorem backtest_result_shape
    (Math_sqrt : num -> num) (Math_pow : num -> num -> num) (a : Args) :
  (backtestFromSignal Math_sqrt Math_pow a = None
   <-> (length (rows a) < 2)%nat)
  /\ forall res,
      backtestFromSignal Math_sqrt Math_pow a = Some res ->
      map fst (res_curve res) = map t (tail (rows a))
      /\ length (res_daily res) = (length (rows a) - 1)%nat
      /\ exists d e,
          last (res_curve res) = Some (d, e)
          /\ totalReturn (stats res) = (e - Fin 1)%num.
Proof.
  unfold backtestFromSignal, simulate.
  destruct (rows a) as [|r0 [|r1 rest]]; simpl.
  - split; [split; [lia|reflexivity]|discriminate].
  - split; [split; [lia|reflexivity]|discriminate].
  - split; [split; [discriminate|lia]|].
    intros res [= <-]. simpl.
    destruct (loop_shape a (r1 :: rest) 1 r0 init) as (Hm & Hl & Hlast).
    simpl in Hm, Hl, Hlast.
    split; [exact Hm|]. split; [rewrite Hl; lia|].
    destruct (Hlast ltac:(discriminate)) as [d Hd]. eauto.
Qed.

(** ** Entries and exits *)

Lemma positionChange_paired (a : Args) (i : nat) (p : num) (s : State) :
  paired s -> paired (positionChange a i p s).
Proof.
  intros (x & Hwl & Htr). unfold positionChange.
  destruct (pos s) eqn:Hpos, (desiredAt a i) eqn:Hd; simpl in *.
  - exists x. rewrite Hpos. now split.
  - destruct (negb _); simpl.
    + exists x. rewrite Hpos. now split.
    + exists x. simpl. split; [exact Hwl|lia].
  - exists (S x). simpl. repeat case_match; simpl; split; lia.
  - exists x. rewrite Hpos. now split.
Qed.

Lemma dailyReturn_paired (a : Args) (p : num) (today : OHLCV) (s : State) :
  paired s -> paired (dailyReturn a p today s).
Proof.
  intros (x & Hwl & Htr). unfold dailyReturn.
  destruct (pos s) eqn:Hpos; simpl in *.
  - exists x. simpl. split; [exact Hwl|exact Htr].
  - destruct (_ >? _)%num; simpl.
    + destruct (stopHit p today s).
      * exists (S x). simpl. repeat case_match; simpl; split; lia.
      * exists x. simpl. split; [exact Hwl|exact Htr].
    + exists x. simpl. split; [exact Hwl|exact Htr].
Qed.

(** X9. In every run the trades come in pairs of an entry and an exit,
    but for the entry of a position still open at the end: the number of
    trades is even exactly when the run ends FLAT, and the wins and losses
    together are at most half of the trades. *)
Theorem trades_pair_up (a : Args) (s : State) :
  simulate a = Some s ->
  (2 * (wins s + losses s) <= trades s)%nat
  /\ (pos s = FLAT <-> Nat.Even (trades s)).
Proof.
  intros Hs.
  assert (Hp : paired s).
  { apply (simulate_invariant a (fun _ => True) paired) with (s := s); auto.
    - intros. unfold bar. now apply dailyReturn_paired, positionChange_paired.
    - apply Forall_forall; auto.
    - exists 0%nat. simpl. split; lia. }
  destruct Hp as (x & Hwl & Htr). split; [lia|].
  destruct (pos s); split; intros H.
  - exists x. lia.
  - reflexivity.
  - discriminate.
  - destruct H as [y Hy]. lia.
Qed.

Lemma trades_pair_up_witness :
  exists s, simulate belowZero_args = Some s
            /\ (2 * (wins s + losses s) <= trades s)%nat.
Proof.
  eexists. split; [reflexivity|].
  exact (proj1 (trades_pair_up belowZero_args _ eq_refl)).
Defined.

(** ** The signal is read one bar back, as true or false *)

Lemma desiredAt_signalOn (a : Args) (i : nat) :
  desiredAt a i = if signalOn (signal a) (i - 1) then LONG else FLAT.
Proof.
  unfold desiredAt, signalOn. destruct (signal a !! (i - 1)%nat); reflexivity.
Qed.

Lemma bar_withSignal (a : Args) (sig : list num) (i : nat)
    (prev today : OHLCV) (s : State) :
  signalOn sig (i - 1) = signalOn (signal a) (i - 1) ->
  bar (withSignal a sig) i prev today s = bar a i prev today s.
Proof.
  intros H. unfold bar, positionChange.
  rewrite !desiredAt_signalOn. simpl signal. rewrite H. reflexivity.
Qed.

Lemma loop_withSignal (a : Args) (sig : list num) (rest : list OHLCV) :
  forall i prev s,
    (forall j, (i - 1 <= j < i - 1 + length rest)%nat ->
               signalOn sig j = signalOn (signal a) j) ->
    (1 <= i)%nat ->
    loop (withSignal a sig) i prev rest s = loop a i prev rest s.
Proof.
  induction rest as [|today rest IH]; intros i prev s H Hi; simpl.
  - reflexivity.
  - rewrite bar_withSignal by (apply H; simpl; lia).
    apply IH; [|lia].
    intros j Hj. apply H. simpl. lia.
Qed.

(** X10. A run reads the signal one bar back and only as true or false:
    two signals that are truthy at the same indices below [n - 1], [n] being
    the number of bars, give the same result.  So [signal[n-1]], the signal
    computed on the last bar, and any entry after it never matter, and
    neither does the size of a non-zero entry. *)
Theorem signal_read_one_bar_back
    (Math_sqrt : num -> num) (Math_pow : num -> num -> num)
    (a : Args) (sig : list num) :
  (forall j, (j + 1 < length (rows a))%nat ->
             signalOn sig j = signalOn (signal a) j) ->
  backtestFromSignal Math_sqrt Math_pow (withSignal a sig)
  = backtestFromSignal Math_sqrt Math_pow a.
Proof.
  intros H. unfold backtestFromSignal, simulate. simpl rows.
  destruct (rows a) as [|r0 [|r1 rest]] eqn:Hrows; try reflexivity.
  rewrite loop_withSignal; [reflexivity| |lia].
  intros j Hj. apply H. simpl in *. lia.
Qed.

Lemma signal_read_one_bar_back_witness :
  backtestFromSignal sqrt_floor pow_natural
    (withSignal rising_args [Fin 7; Fin (-2); NaN; Fin 1])
  = backtestFromSignal sqrt_floor pow_natural rising_args.
Proof.
  apply signal_read_one_bar_back.
  intros [|[|j]] Hj; simpl in Hj; try lia; reflexivity.
Defined.

(** ** Buy and hold *)

(** The daily return leaves a position that is held without a stop as it
    is, whatever the prices of the bar. *)
Lemma dailyReturn_holding (a : Args) (entry p : num) (today : OHLCV)
    (s : State) :
  holding entry s -> holding entry (dailyReturn a p today s).
Proof.
  intros (Hpos & Hentry & Hstop & Htr & Hw & Hl).
  unfold dailyReturn, stopHit. rewrite Hpos, Hstop. simpl.
  destruct (expoFor a today s >? Fin 0)%num; simpl; unfold holding; simpl;
    repeat split; assumption.
Qed.

Lemma bar_holding (a : Args) (entry : num) (i : nat) (prev today : OHLCV)
    (s : State) :
  signalOn (signal a) (i - 1) = true ->
  holding entry s -> holding entry (bar a i prev today s).
Proof.
  intros Hsig Hhold. unfold bar.
  assert (Hsame : positionChange a i (close prev) s = s).
  { unfold positionChange. rewrite desiredAt_signalOn, Hsig.
    destruct Hhold as (-> & _). reflexivity. }
  rewrite Hsame. now apply dailyReturn_holding.
Qed.

Lemma loop_holding (a : Args) (entry : num) (rest : list OHLCV) :
  forall i prev s,
    (1 <= i)%nat ->
    (forall j, (i - 1 <= j < i - 1 + length rest)%nat ->
               signalOn (signal a) j = true) ->
    holding entry s ->
    holding entry (loop a i prev rest s).
Proof.
  induction rest as [|today rest IH]; intros i prev s Hi Hsig Hhold; simpl.
  - exact Hhold.
  - apply IH; [lia| |].
    + intros j Hj. apply Hsig. simpl. lia.
    + apply bar_holding; [|exact Hhold]. apply Hsig. simpl. lia.
Qed.

(** X11. Buy and hold.  With a signal that is truthy on every bar but
    possibly the last, the volume gate off and no ATR value (so no stop),
    the run enters on bar 1 at the close of bar 0 and never trades again,
    whatever the prices, the costs and the event scaling: it ends LONG at
    that entry price, with no stop level, one trade, no win and no loss. *)
Theorem buy_and_hold (a : Args) (s : State) (first : OHLCV) :
  (forall j, (j + 1 < length (rows a))%nat -> signalOn (signal a) j = true) ->
  volumeGateOn a = false ->
  (forall j, at_index (atr a) j = None) ->
  head (rows a) = Some first ->
  simulate a = Some s ->
  pos s = LONG /\ entryPrice s = close first /\ stopLevel s = NaN
  /\ trades s = 1%nat /\ wins s = 0%nat /\ losses s = 0%nat.
Proof.
  intros Hsig Hgate Hatr Hfirst Hsim.
  unfold simulate in Hsim.
  destruct (rows a) as [|r0 [|r1 rest]] eqn:Er; try discriminate.
  injection Hsim as <-. injection Hfirst as <-.
  assert (Hentry : holding (close r0) (positionChange a 1 (close r0) init)).
  { rewrite positionChange_flat_allowed; try reflexivity.
    - unfold holding, stopLevelAt. simpl. rewrite Hatr. repeat split.
    - rewrite desiredAt_signalOn. rewrite Hsig by (simpl; lia). reflexivity.
    - unfold allowEntry. now rewrite Hgate. }
  simpl loop.
  apply (loop_holding a (close r0) rest 2 r1); [lia| |].
  - intros j Hj. apply Hsig. simpl in *. lia.
  - unfold bar. now apply dailyReturn_holding.
Qed.

(** ** A stop at the entry price *)

Lemma leb_hasval (x y : num) (p : Q) :
  (x <=? Fin p)%num = true -> hasval y p -> (x <=? y)%num = true.
Proof.
  intros H (b & -> & Hb)%hasval_Fin.
  destruct x as [| | |a]; unfold leb in *; try discriminate; auto.
  apply Qle_bool_iff in H. apply Qle_bool_iff. lra.
Qed.

Lemma geb_zero_hasval (x : num) : hasval x 0 -> (x >=? Fin 0)%num = true.
Proof.
  intros (a & -> & Ha)%hasval_Fin. unfold geb, leb.
  apply Qle_bool_iff. lra.
Qed.

Lemma fin_value (q q' : Q) : (q == q')%Q -> fin q = fin q'.
Proof. intros H. unfold fin. f_equal. now apply Qred_complete. Qed.

Lemma inf_of_sign_cases (z : Z) :
  inf_of_sign z = NaN \/ inf_of_sign z = PosInf \/ inf_of_sign z = NegInf.
Proof. destruct z; simpl; auto. Qed.

(** A product of value 0 is the number 0. *)
Lemma hasval_zero (x y : num) : hasval (x * y)%num 0 -> (x * y)%num = Fin 0.
Proof.
  destruct x as [| | |a], y as [| | |b]; unfold mul; try contradiction;
    try (match goal with |- context [inf_of_sign ?z] =>
           destruct (inf_of_sign_cases z) as [->|[->| ->]] end; contradiction).
  intros H. simpl in H. rewrite Qred_correct in H. exact (fin_value _ 0 H).
Qed.

(** Multiplying a product by 1 changes nothing. *)
Lemma mul_one_r (x y : num) : (x * y * Fin 1)%num = (x * y)%num.
Proof.
  destruct x as [| | |a], y as [| | |b]; try reflexivity;
    try (unfold mul at 2 3;
         match goal with |- context [inf_of_sign ?z] =>
           destruct (inf_of_sign_cases z) as [->|[->| ->]] end; reflexivity).
  change (fin (Qred (a * b) * 1) = fin (a * b)).
  apply fin_value. rewrite Qred_correct. ring.
Qed.

(** X12. A stop multiplier of 0 puts the stop at the entry price.  When
    the run is FLAT, the signal asks for a position and the gate lets it
    through, the ATR of the bar before is finite and above zero, the stop
    multiplier is 0, the previous close is finite and above zero, the low
    of the bar is at or below that previous close and the exposure of the
    day is above zero, the position is entered and closed on the same bar:
    FLAT again, two more trades, a recorded return of 0, the exit counted
    as a win, and an equity multiplied twice by the cost factor
    [1 - cost]. *)
Theorem entry_stopped_on_same_bar
    (a : Args) (i : nat) (prev today : OHLCV) (s : State) (v : num) (p : Q) :
  pos s = FLAT ->
  desiredAt a i = LONG ->
  allowEntry a i FLAT LONG = true ->
  at_index (atr a) (i - 1) = Some v ->
  isFinite v = true -> (v >? Fin 0)%num = true ->
  hasval (atrStopK a) 0 ->
  close prev = Fin p -> (0 < p)%Q ->
  (low today <=? close prev)%num = true ->
  (exposureForDay a (t today) >? Fin 0)%num = true ->
  let s' := bar a i prev today s in
  pos s' = FLAT
  /\ trades s' = S (S (trades s))
  /\ wins s' = S (wins s) /\ losses s' = losses s
  /\ daily s' = daily s ++ [Fin 0]
  /\ equity s' = (equity s * (Fin 1 - cost a) * (Fin 1 - cost a))%num.
Proof.
  intros Hpos Hd Hallow Hatr Hvfin Hvpos Hk Hp Hppos Hlow Hexpo s'.
  subst s'. unfold bar.
  rewrite positionChange_flat_allowed by assumption.
  assert (Hstop : hasval (stopLevelAt a i (close prev)) p).
  { unfold stopLevelAt. rewrite Hatr, Hvfin, Hvpos, Hp. simpl.
    destruct (isFinite_Fin _ Hvfin) as (vq & ->).
    eapply hasval_eq.
    - apply hasval_sub; [simpl; reflexivity|].
      apply hasval_mul; [exact Hk|simpl; reflexivity].
    - ring. }
  destruct (hasval_Fin _ _ Hstop) as (sl & Hsl & Hslp).
  destruct (between_Fin _ _ _ (exposure_range _ _ Hexpo)) as (x & Hx & _).
  assert (HrStop : hasval (Fin sl / Fin p - Fin 1)%num 0).
  { eapply hasval_eq.
    - apply hasval_sub; [|simpl; reflexivity].
      apply hasval_div; [exact Hslp|simpl; reflexivity|lra].
    - field. lra. }
  unfold dailyReturn, expoFor, stopHit. simpl.
  rewrite Hexpo, Hsl, Hp. simpl.
  replace (low today <=? Fin sl)%num with true.
  2:{ symmetry. rewrite Hp in Hlow.
      apply (leb_hasval _ _ p Hlow). simpl. exact Hslp. }
  replace (Fin p >? Fin 0)%num with true by (symmetry; now apply gtb_Fin).
  simpl. rewrite (geb_zero_hasval _ HrStop). simpl.
  assert (Hr : hasval (exposureForDay a (t today)
                       * (Fin sl / Fin p - Fin 1))%num 0).
  { rewrite Hx. eapply hasval_eq.
    - apply hasval_mul; [simpl; reflexivity|exact HrStop].
    - ring. }
  apply hasval_zero in Hr. rewrite Hr.
  do 4 (split; [reflexivity|]). split; [reflexivity|].
  change (Fin 1 + Fin 0)%num with (Fin 1). now rewrite mul_one_r.
Qed.

(** ** Statistics of a run that stays out *)

Lemma fold_add_zeros (n : nat) :
  fold_left add (replicate n (Fin 0)) (Fin 0) = Fin 0.
Proof. induction n as [|n IH]; simpl; [reflexivity|exact IH]. Qed.

Lemma fold_sq_zeros (n : nat) :
  fold_left (fun a b => a + (b - Fin 0) * (b - Fin 0))%num
            (replicate n (Fin 0)) (Fin 0) = Fin 0.
Proof. induction n as [|n IH]; simpl; [reflexivity|exact IH]. Qed.

Lemma filter_zeros (n : nat) :
  filter (fun x => isFinite x = true) (replicate n (Fin 0))
  = replicate n (Fin 0).
Proof.
  induction n as [|n IH]; simpl; [reflexivity|].
  rewrite filter_cons_True by reflexivity. now rewrite IH.
Qed.

Lemma zero_div_of_nat (n : nat) : (1 <= n)%nat -> (Fin 0 / of_nat n)%num = Fin 0.
Proof.
  intros Hn. unfold of_nat. rewrite div_Fin.
  - reflexivity.
  - change 0%Q with (inject_Z 0). rewrite inject_Z_injective. lia.
Qed.

Lemma mean_zeros (n : nat) : (1 <= n)%nat -> mean (replicate n (Fin 0)) = Fin 0.
Proof.
  intros Hn. unfold mean. rewrite filter_zeros, length_replicate.
  destruct n; [lia|]. simpl Nat.eqb. cbv iota.
  rewrite fold_add_zeros. apply zero_div_of_nat. lia.
Qed.

Lemma variance_zeros (n : nat) :
  (2 <= n)%nat -> variance (replicate n (Fin 0)) = Fin 0.
Proof.
  intros Hn. unfold variance. rewrite mean_zeros by lia.
  rewrite fold_sq_zeros, length_replicate.
  unfold of_nat. rewrite sub_Fin. unfold fin.
  rewrite div_Fin.
  - reflexivity.
  - rewrite Qred_correct. intros H.
    assert (H' : (inject_Z (Z.of_nat n) == 1)%Q) by lra.
    change 1%Q with (inject_Z 1) in H'.
    rewrite inject_Z_injective in H'. lia.
Qed.

Lemma all_zero_replicate (l : list num) :
  Forall (fun r => r = Fin 0) l -> l = replicate (length l) (Fin 0).
Proof.
  induction 1 as [|x l -> _ IH]; simpl; [reflexivity|]. now f_equal.
Qed.

Lemma drawdown_ones (curve : list (string * num)) :
  Forall (fun p : string * num => p.2 = Fin 1) curve ->
  forall peak, peak = NegInf \/ peak = Fin 1 ->
    (fold_left drawdown_step curve (peak, Fin 0)).2 = Fin 0.
Proof.
  induction 1 as [|[d e] curve He _ IH]; intros peak Hpeak; [reflexivity|].
  simpl in He. subst e. simpl.
  destruct Hpeak as [->| ->]; apply IH; now right.
Qed.

(** X13. The statistics of a run whose signal is falsy on every bar: a
    total return of exactly 0, a maximum drawdown of exactly 0, and a Sharpe
    ratio that is [NaN] (the returns are all 0, so they have no spread);
    [Math.sqrt] is only assumed to send 0 to 0. *)
Theorem flat_signal_statistics
    (Math_sqrt : num -> num) (Math_pow : num -> num -> num)
    (a : Args) (res : BacktestResult) :
  Math_sqrt (Fin 0) = Fin 0 ->
  Forall (fun v => truthy v = false) (signal a) ->
  backtestFromSignal Math_sqrt Math_pow a = Some res ->
  res_trades res = 0%nat
  /\ totalReturn (stats res) = Fin 0
  /\ maxDrawdown (stats res) = Fin 0
  /\ sharpe (stats res) = NaN.
Proof.
  intros Hsqrt Hsig H. apply backtest_simulate in H as (s & Hsim & ->).
  assert (Hne : neverEnters a).
  { intros i Hd. rewrite desiredAt_signalOn in Hd. unfold signalOn in Hd.
    destruct (signal a !! (i - 1)%nat) as [v|] eqn:E; [|discriminate].
    rewrite Forall_forall in Hsig.
    rewrite (Hsig v) in Hd; [discriminate|].
    now apply (list_elem_of_lookup_2 _ (i - 1)). }
  destruct (neverEnters_idle a s Hne Hsim)
    as ((Hpos & Htr & Hw & Hl & Hd) & He & Hc).
  simpl. rewrite He. split; [exact Htr|]. split; [reflexivity|]. split.
  - unfold computeMaxDrawdownFromCurve. apply drawdown_ones; auto.
  - rewrite (all_zero_replicate _ Hd).
    set (n := length (daily s)).
    assert (Hstd : or_else (std Math_sqrt (replicate n (Fin 0))) NaN = NaN).
    { unfold std. rewrite filter_zeros, length_replicate.
      destruct (n <? 2)%nat eqn:E; [reflexivity|].
      apply Nat.ltb_ge in E. rewrite variance_zeros by exact E.
      rewrite Hsqrt. reflexivity. }
    rewrite Hstd, div_NaN_r. reflexivity.
Qed.

(** ** Warm-up of the moving average, whatever the values *)

Lemma sma_warmup (w : nat) (values : list num) (k : nat) (o : option num) :
  (1 <= w)%nat -> sma values (of_nat w) !! k = Some o -> (k + 1 < w)%nat ->
  o = None.
Proof.
  intros Hw Hk Hlt. unfold sma in Hk.
  refine (window_loop_warmup (sma_out (of_nat w)) w values Hw _ [] (Fin 0)
            ltac:(simpl; lia) k o Hk ltac:(simpl; lia)).
  intros v q s Hq. unfold sma_out. rewrite of_nat_eqb.
  destruct (length q =? w)%nat eqn:E; [apply Nat.eqb_eq in E; lia|reflexivity].
Qed.

(** ** Trend-following signal *)

(** X14. The trend-following signal has one entry per bar, each 0 or 1;
    the entry of a bar is 1 exactly when both moving averages are defined
    there, the fast one is above the slow one and the close of the bar is
    above the slow one; so it is 0 on every bar before index [w - 1], [w]
    being the slow window, where the slow average is not yet defined. *)
Theorem trend_signal_binary (rows : list OHLCV) (fast : num) (w : nat) :
  let r := buildBacktestSignalTrend rows fast (of_nat w) in
  let sig := r.1.1 in
  let f := r.1.2 in
  let s := r.2 in
  f = sma (map close rows) fast
  /\ s = sma (map close rows) (of_nat w)
  /\ length sig = length rows
  /\ forall i row,
      rows !! i = Some row ->
      exists v,
        sig !! i = Some v
        /\ (v = Fin 0 \/ v = Fin 1)
        /\ (v = Fin 1 <->
            exists fi si,
              at_index f i = Some fi /\ at_index s i = Some si
              /\ (fi >? si)%num = true /\ (close row >? si)%num = true)
        /\ ((1 <= w)%nat -> (i + 1 < w)%nat -> v = Fin 0).
Proof.
  simpl. split; [reflexivity|]. split; [reflexivity|].
  split; [apply length_imap|].
  intros i row Hrow. rewrite list_lookup_imap, Hrow. simpl.
  eexists. split; [reflexivity|].
  set (f := sma (map close rows) fast).
  set (s := sma (map close rows) (of_nat w)).
  unfold trend_at.
  destruct (at_index f i) as [fi|] eqn:Ef, (at_index s i) as [si|] eqn:Es.
  - destruct ((fi >? si)%num && (close row >? si)%num) eqn:E.
    + apply andb_true_iff in E as [E1 E2].
      split; [now right|]. split.
      * split; [intros _; exists fi, si; auto|reflexivity].
      * intros Hw Hlt. exfalso. unfold at_index in Es.
        destruct (s !! i) as [o|] eqn:Eo; [|discriminate].
        rewrite (sma_warmup w _ i o Hw Eo Hlt) in Es. discriminate.
    + split; [now left|]. split; [|reflexivity].
      split; [discriminate|].
      intros (fi' & si' & [= <-] & [= <-] & H1 & H2).
      rewrite H1, H2 in E. discriminate.
  - split; [now left|]. split; [|reflexivity].
    split; [discriminate|]. intros (? & ? & _ & H & _). discriminate.
  - split; [now left|]. split; [|reflexivity].
    split; [discriminate|]. intros (? & ? & H & _). discriminate.
  - split; [now left|]. split; [|reflexivity].
    split; [discriminate|]. intros (? & ? & H & _). discriminate.
Qed.

(** ** Last elements of an array *)

Lemma Qred_nat_diff (a b : nat) :
  Qred (inject_Z (Z.of_nat a) - inject_Z (Z.of_nat b))
  = inject_Z (Z.of_nat a - Z.of_nat b).
Proof.
  rewrite <- (inject_Z_Qred (Z.of_nat a - Z.of_nat b)).
  apply Qred_complete. unfold Z.sub. rewrite inject_Z_plus, inject_Z_opp.
  reflexivity.
Qed.

Lemma lastN_of_nat {A : Type} (xs : list A) (k : nat) :
  lastN xs (of_nat k) = drop (length xs - k) xs.
Proof.
  unfold lastN.
  destruct (of_nat k <=? Fin 0)%num eqn:E.
  - unfold of_nat, leb in E. apply Qle_bool_iff in E.
    change 0%Q with (inject_Z 0) in E. rewrite <- Zle_Qle in E.
    assert (k = 0%nat) by lia. subst k.
    rewrite Nat.sub_0_r, drop_all. reflexivity.
  - unfold of_nat. rewrite sub_Fin. unfold fin. rewrite Qred_nat_diff.
    unfold Math_max, leb.
    destruct (Qle_bool 0 (inject_Z (Z.of_nat (length xs) - Z.of_nat k))) eqn:E'.
    + apply Qle_bool_iff in E'. change 0%Q with (inject_Z 0) in E'.
      rewrite <- Zle_Qle in E'.
      unfold slice_from. simpl Qnum. simpl Qden.
      rewrite Z.quot_1_r.
      destruct (_ <? 0)%Z eqn:E2; [apply Z.ltb_lt in E2; lia|].
      f_equal. lia.
    + apply Qleb_gt in E'. change 0%Q with (inject_Z 0) in E'.
      rewrite <- Zlt_Qlt in E'.
      unfold slice_from. simpl.
      replace (length xs - k)%nat with 0%nat by lia. reflexivity.
Qed.

Lemma slice_from_suffix {A : Type} (xs : list A) (start : num) :
  exists pre, xs = pre ++ slice_from xs start.
Proof.
  unfold slice_from. destruct start as [| | |q].
  - now exists [].
  - now exists [].
  - exists xs. now rewrite app_nil_r.
  - destruct (_ <? 0)%Z; eexists; symmetry; apply take_drop.
Qed.

(** X15. [lastN(xs, n)] always gives a suffix of [xs]; for a whole number
    [n >= 0] it is the last [n] elements, all of [xs] when there are fewer;
    it is empty when [n <= 0], and it is the whole of [xs] when [n] is
    [NaN]. *)
Theorem lastN_is_suffix {A : Type} (xs : list A) (n : num) :
  (exists pre, xs = pre ++ lastN xs n)
  /\ (forall k, n = of_nat k ->
        lastN xs n = drop (length xs - k) xs
        /\ length (lastN xs n) = Nat.min k (length xs))
  /\ ((n <=? Fin 0)%num = true -> lastN xs n = [])
  /\ (n = NaN -> lastN xs n = xs).
Proof.
  split; [|split; [|split]].
  - unfold lastN. destruct (n <=? Fin 0)%num.
    + exists xs. now rewrite app_nil_r.
    + apply slice_from_suffix.
  - intros k ->. rewrite lastN_of_nat. split; [reflexivity|].
    rewrite length_drop. lia.
  - intros H. unfold lastN. now rewrite H.
  - intros ->. reflexivity.
Qed.

(** ** Clamp *)

(** X16. [clamp(x, lo, hi)] with finite bounds [lo <= hi]: a number
    between the bounds for every [x] but [NaN], which it lets through
    unclamped; the value of [x] itself when [x] is already between the
    bounds; [lo] for [-Infinity] and [hi] for [+Infinity]. *)
Theorem clamp_into_range (x : num) (lo hi : Q) :
  (lo <= hi)%Q ->
  (x = NaN -> clamp x (Fin lo) (Fin hi) = NaN)
  /\ (x <> NaN -> between lo hi (clamp x (Fin lo) (Fin hi)))
  /\ (between lo hi x -> same (clamp x (Fin lo) (Fin hi)) x)
  /\ clamp NegInf (Fin lo) (Fin hi) = Fin lo
  /\ same (clamp PosInf (Fin lo) (Fin hi)) (Fin hi).
Proof.
  intros Hlh. split; [|split; [|split; [|split]]].
  - intros ->. reflexivity.
  - intros Hx. destruct (clamp_range x lo hi Hlh) as [H|H]; [|exact H].
    destruct x; try contradiction; unfold clamp, Math_max, Math_min in H;
      repeat case_match; discriminate.
  - intros (q & -> & Hq)%between_Fin.
    unfold clamp, Math_max, Math_min, leb.
    destruct (Qle_bool hi q) eqn:E1.
    + apply Qle_bool_iff in E1.
      destruct (Qle_bool lo hi) eqn:E2; simpl; [lra|].
      apply Qleb_gt in E2. lra.
    + destruct (Qle_bool lo q) eqn:E2; simpl; [reflexivity|].
      apply Qleb_gt in E2. lra.
  - reflexivity.
  - unfold clamp, Math_max, Math_min, leb. simpl.
    destruct (Qle_bool lo hi) eqn:E; simpl; [reflexivity|].
    apply Qleb_gt in E. lra.
Qed.

(** ** Mean and variance *)

Lemma filter_fin_vals (xs : list num) :
  filter (fun x => isFinite x = true) xs = map Fin (fin_vals xs).
Proof.
  induction xs as [|x xs IH]; [reflexivity|].
  destruct x as [| | |q].
  - rewrite filter_cons_False by discriminate. exact IH.
  - rewrite filter_cons_False by discriminate. exact IH.
  - rewrite filter_cons_False by discriminate. exact IH.
  - rewrite filter_cons_True by reflexivity.
    change (fin_vals (Fin q :: xs)) with (q :: fin_vals xs).
    simpl map. now rewrite IH.
Qed.

Lemma fin_vals_map_Fin (qs : list Q) : fin_vals (map Fin qs) = qs.
Proof. induction qs as [|q qs IH]; simpl; [reflexivity|]. now f_equal. Qed.

Lemma fold_add_hasval (qs : list Q) :
  forall acc a, hasval acc a ->
                hasval (fold_left add (map Fin qs) acc) (a + qsum qs).
Proof.
  induction qs as [|q qs IH]; intros acc a Ha; simpl.
  - eapply hasval_eq; [exact Ha|ring].
  - eapply hasval_eq.
    + apply IH. apply hasval_add; [exact Ha|simpl; reflexivity].
    + ring.
Qed.

Lemma of_nat_pos (n : nat) : (1 <= n)%nat -> (0 < inject_Z (Z.of_nat n))%Q.
Proof.
  intros Hn. change 0%Q with (inject_Z 0). rewrite <- Zlt_Qlt.
  now apply (Nat2Z.inj_lt 0 n).
Qed.

Lemma mean_hasval (xs : list num) :
  fin_vals xs <> [] ->
  hasval (mean xs)
         (qsum (fin_vals xs) / inject_Z (Z.of_nat (length (fin_vals xs)))).
Proof.
  intros Hne. unfold mean. rewrite filter_fin_vals, length_map.
  destruct (fin_vals xs) as [|q qs] eqn:E; [contradiction|].
  simpl Nat.eqb. cbv iota.
  apply hasval_div.
  - eapply hasval_eq.
    + apply (fold_add_hasval (q :: qs) (Fin 0) 0). simpl. reflexivity.
    + ring.
  - apply hasval_of_nat.
  - pose proof (of_nat_pos (length (q :: qs)) ltac:(simpl; lia)). lra.
Qed.



Lemma fold_sq_hasval (m : num) (mu : Q) (qs : list Q) :
  hasval m mu ->
  forall acc a, hasval acc a ->
    hasval (fold_left (fun a b => a + (b - m) * (b - m))%num (map Fin qs) acc)
           (a + qsum (map (fun q => (q - mu) * (q - mu))%Q qs)).
Proof.
  intros Hm. induction qs as [|q qs IH]; intros acc a Ha; simpl.
  - eapply hasval_eq; [exact Ha|ring].
  - eapply hasval_eq.
    + apply IH. apply hasval_add; [exact Ha|].
      apply hasval_mul; apply hasval_sub; try exact Hm; simpl; reflexivity.
    + ring.
Qed.

Lemma square_nonneg (x : Q) : (0 <= x * x)%Q.
Proof.
  destruct (Qlt_le_dec x 0) as [H|H].
  - setoid_replace (x * x)%Q with ((- x) * (- x))%Q using relation Qeq by ring.
    apply Qmult_le_0_compat; lra.
  - now apply Qmult_le_0_compat.
Qed.

(** In exact arithmetic the variance of two finite entries or more is a
    finite number that is not negative. *)
Lemma variance_finite_nonneg (xs : list num) :
  let ys := filter (fun x => isFinite x = true) xs in
  (2 <= length ys)%nat -> nonneg (variance ys).
Proof.
  intros ys Hlen. subst ys. rewrite filter_fin_vals in *.
  rewrite length_map in Hlen.
  set (qs := fin_vals xs) in *.
  unfold variance. rewrite length_map.
  assert (Hne : fin_vals (map Fin qs) <> []).
  { rewrite fin_vals_map_Fin. destruct qs; [simpl in Hlen; lia|discriminate]. }
  pose proof (mean_hasval (map Fin qs) Hne) as Hm.
  set (mu := (qsum (fin_vals (map Fin qs))
              / inject_Z (Z.of_nat (length (fin_vals (map Fin qs)))))%Q) in Hm.
  pose proof (fold_sq_hasval (mean (map Fin qs)) mu qs Hm (Fin 0) 0
                ltac:(simpl; reflexivity)) as Hsum.
  set (total := (0 + qsum (map (fun q => (q - mu) * (q - mu))%Q qs))%Q) in Hsum.
  assert (Htot : (0 <= total)%Q).
  { subst total.
    assert (0 <= qsum (map (fun q => (q - mu) * (q - mu))%Q qs))%Q.
    { apply qsum_nonneg. apply Forall_map, Forall_forall.
      intros q _. apply square_nonneg. }
    lra. }
  pose proof (of_nat_pos (length qs) ltac:(lia)) as Hn.
  assert (Hden : hasval (of_nat (length qs) - Fin 1)%num
                        (inject_Z (Z.of_nat (length qs)) - 1)).
  { apply hasval_sub; [apply hasval_of_nat|simpl; reflexivity]. }
  assert (Hn2 : (2 <= inject_Z (Z.of_nat (length qs)))%Q).
  { change 2%Q with (inject_Z 2). rewrite <- Zle_Qle.
    now apply (Nat2Z.inj_le 2). }
  assert (Hv : hasval
                 (fold_left (fun a b => a + (b - mean (map Fin qs))
                                           * (b - mean (map Fin qs)))%num
                            (map Fin qs) (Fin 0)
                  / (of_nat (length qs) - Fin 1))%num
                 (total / (inject_Z (Z.of_nat (length qs)) - 1)))
    by (apply hasval_div; [exact Hsum|exact Hden|lra]).
  destruct (hasval_Fin _ _ Hv) as (v & -> & Hval). simpl. rewrite Hval.
  apply Qle_shift_div_l; lra.
Qed.

(** X18. The sample variance that [std] takes the square root of is never
    below zero: for a list with at least two finite entries, the test
    [variance >= 0] on the variance of its finite entries is true, so it
    is neither negative nor [NaN], and [Math.sqrt] is never given a
    negative number. *)
Theorem variance_nonneg (xs : list num) :
  let ys := filter (fun x => isFinite x = true) xs in
  (2 <= length ys)%nat -> (variance ys >=? Fin 0)%num = true.
Proof.
  intros ys Hlen. subst ys.
  destruct (nonneg_Fin _ (variance_finite_nonneg xs Hlen)) as (v & -> & Hv).
  now apply leb_Fin.
Qed.

Lemma variance_nonneg_witness :
  (variance (filter (fun x => isFinite x = true)
                    [Fin 1; NaN; Fin 3; PosInf; Fin 5]) >=? Fin 0)%num = true.
Proof.
  exact (variance_nonneg [Fin 1; NaN; Fin 3; PosInf; Fin 5]
           ltac:(vm_compute; lia)).
Defined.

(** ** Warm-up of the mean-reversion signal *)

Lemma rsi_loop_warmup (period : num) (rest : list num) :
  forall i prev gains losses k o,
    rsi_loop period i prev rest gains losses !! k = Some o ->
    (of_nat (i + k) <? period)%num = true -> o = None.
Proof.
  induction rest as [|cur rest IH]; intros i prev gains losses k o Hk Hlt.
  - discriminate.
  - simpl in Hk.
    destruct (rsi_step period i prev cur gains losses) as [[g l] o'] eqn:E.
    destruct k as [|k]; simpl in Hk.
    + injection Hk as <-. rewrite Nat.add_0_r in Hlt.
      unfold rsi_step in E. rewrite (ltb_leb _ _ Hlt) in E.
      rewrite (ltb_not_eqb _ _ Hlt) in E. congruence.
    + rewrite Nat.add_succ_r in Hlt. exact (IH _ _ _ _ _ _ Hk Hlt).
Qed.

Lemma rsi_warmup (closes : list num) (period : num) (i : nat) (o : option num) :
  rsi closes period !! i = Some o ->
  (of_nat i <? period)%num = true -> o = None.
Proof.
  destruct closes as [|c0 rest]; [discriminate|]. simpl.
  destruct i as [|k]; simpl.
  - now intros [= <-].
  - apply rsi_loop_warmup.
Qed.

Lemma of_nat_ltb_mono (j i : nat) (period : num) :
  (j <= i)%nat -> (of_nat i <? period)%num = true ->
  (of_nat j <? period)%num = true.
Proof.
  intros Hji. unfold of_nat, ltb.
  destruct period as [| | |p]; auto.
  intros H. apply Qltb_lt in H. apply Qltb_lt.
  assert (inject_Z (Z.of_nat j) <= inject_Z (Z.of_nat i))%Q
    by (rewrite <- Zle_Qle; now apply Nat2Z.inj_le).
  lra.
Qed.

Lemma meanrev_loop_flat (entry exit : num) (r : list (option num)) :
  forall i p,
    (forall j o, (j <= i)%nat -> r !! j = Some o -> o = None) ->
    meanrev_loop entry exit FLAT r !! i = Some p -> p = FLAT.
Proof.
  induction r as [|ri r IH]; intros i p Hnone Hp; [discriminate|].
  assert (ri = None) by (apply (Hnone 0%nat); [lia|reflexivity]). subst ri.
  simpl in Hp. destruct i as [|i]; simpl in Hp.
  - congruence.
  - apply (IH i p); [|exact Hp].
    intros j o Hj Ho. apply (Hnone (S j)); [lia|exact Ho].
Qed.

(** X19. The mean-reversion signal has entries 0 and 1 only, and it is
    0 on every bar whose index is below the period of the oscillator,
    whatever the closes and the thresholds: the oscillator is undefined
    there, so the machine has not left FLAT. *)
Theorem meanrev_signal_warmup
    (rows : list OHLCV) (rsiPeriod entry exit : num) (i : nat) (v : num) :
  (buildBacktestSignalMeanRev rows rsiPeriod entry exit).1 !! i = Some v ->
  (v = Fin 0 \/ v = Fin 1)
  /\ ((of_nat i <? rsiPeriod)%num = true -> v = Fin 0).
Proof.
  simpl. rewrite list_lookup_fmap.
  destruct (meanrev_loop entry exit FLAT
              (rsi (map close rows) rsiPeriod) !! i) as [p|] eqn:E;
    [|discriminate].
  simpl. intros [= <-]. split.
  - destruct p; auto.
  - intros Hlt.
    rewrite (meanrev_loop_flat entry exit
               (rsi (map close rows) rsiPeriod) i p); [reflexivity| |exact E].
    intros j o Hj Ho. apply (rsi_warmup _ _ _ _ Ho).
    exact (of_nat_ltb_mono j i _ Hj Hlt).
Qed.

Lemma meanrev_signal_warmup_witness :
  (buildBacktestSignalMeanRev swing_rows (Fin 3) (Fin 30) (Fin 70)).1 !! 2%nat
  = Some (Fin 0).
Proof.
  destruct ((buildBacktestSignalMeanRev swing_rows (Fin 3) (Fin 30) (Fin 70)).1
              !! 2%nat) as [v|] eqn:E; [|vm_compute in E; discriminate E].
  destruct (meanrev_signal_warmup _ _ _ _ _ _ E) as [_ H].
  now rewrite (H eq_refl).
Defined.

(** ** The oscillator on closes that move one way only *)

Lemma Math_max_zero_of_nonpos (x : num) (q : Q) :
  hasval x q -> (q <= 0)%Q -> hasval (Math_max (Fin 0) x) 0.
Proof.
  intros (a & -> & Ha)%hasval_Fin Hq. unfold Math_max.
  destruct (Fin 0 <=? Fin a)%num eqn:E; simpl.
  - rewrite leb_Fin in E. lra.
  - reflexivity.
Qed.

Lemma Math_max_zero_of_nonneg (x : num) (q : Q) :
  hasval x q -> (0 <= q)%Q -> hasval (Math_max (Fin 0) x) q.
Proof.
  intros (a & -> & Ha)%hasval_Fin Hq. unfold Math_max.
  destruct (Fin 0 <=? Fin a)%num eqn:E; simpl.
  - exact Ha.
  - apply Qleb_gt in E. lra.
Qed.

Lemma period_cases (period : num) :
  (Fin 1 <=? period)%num = true ->
  period = PosInf \/ exists q, period = Fin q /\ (1 <= q)%Q.
Proof.
  destruct period as [| | |q]; try discriminate; auto.
  intros H%leb_Fin. right. eauto.
Qed.

Lemma rsi_value_zero_gain (gains losses : num) (l : Q) :
  hasval gains 0 -> hasval losses l -> (0 < l)%Q ->
  hasval (rsi_value gains losses) 0.
Proof.
  intros Hg Hl Hpos. unfold rsi_value.
  destruct (hasval_Fin _ _ Hl) as (b & -> & Hb).
  replace (Fin b =? Fin 0)%num with false.
  2:{ symmetry. unfold eqb. destruct (Qeq_bool b 0) eqn:E; [|reflexivity].
      apply Qeq_bool_iff in E. lra. }
  eapply hasval_eq.
  - apply hasval_sub; [simpl; reflexivity|].
    apply hasval_div with (b := (1 + 0 / l)%Q); [simpl; reflexivity| |].
    + apply hasval_add; [simpl; reflexivity|].
      apply hasval_div; [exact Hg|simpl; exact Hb|lra].
    + unfold Qdiv. lra.
  - field. lra.
Qed.

Lemma rsi_step_rising (period : num) (i : nat) (prev cur gains losses : num)
    (gains' losses' : num) (o : option num) (p c : Q) :
  (Fin 1 <=? period)%num = true ->
  hasval prev p -> hasval cur c -> (p <= c)%Q ->
  hasval losses 0 ->
  rsi_step period i prev cur gains losses = (gains', losses', o) ->
  hasval losses' 0 /\ forall v, o = Some v -> v = Fin 100.
Proof.
  intros Hper Hp Hc Hpc Hl. unfold rsi_step.
  assert (Hl1 : hasval (Math_max (Fin 0) (- (cur - prev))%num) 0).
  { destruct (hasval_Fin _ _ (hasval_sub _ _ _ _ Hc Hp)) as (d & -> & Hd).
    rewrite neg_Fin. apply Math_max_zero_of_nonpos with (q := (- d)%Q).
    - now apply hasval_fin.
    - lra. }
  assert (Hz : forall x, hasval x 0 -> (x =? Fin 0)%num = true).
  { intros x (a & -> & Ha)%hasval_Fin. now apply Qeq_bool_iff. }
  destruct (of_nat i <=? period)%num eqn:Hle.
  - intros [= <- <- <-].
    assert (H : hasval (losses + Math_max (Fin 0) (- (cur - prev)))%num 0).
    { eapply hasval_eq; [apply hasval_add; eassumption|ring]. }
    split; [exact H|].
    intros v Hv. destruct (of_nat i =? period)%num; [|discriminate].
    injection Hv as <-. apply rsi_value_zero_loss, Hz, H.
  - intros [= <- <- <-].
    destruct (period_cases _ Hper) as [->|(q & -> & Hq)];
      [unfold of_nat, leb in Hle; discriminate|].
    assert (H : hasval ((losses * (Fin q - Fin 1)
                         + Math_max (Fin 0) (- (cur - prev))) / Fin q)%num 0).
    { eapply hasval_eq.
      - apply hasval_div with (b := q); [|simpl; reflexivity|lra].
        apply hasval_add; [|exact Hl1].
        apply hasval_mul; [exact Hl|].
        apply hasval_sub; simpl; reflexivity.
      - field. lra. }
    split; [exact H|].
    intros v [= <-]. apply rsi_value_zero_loss, Hz, H.
Qed.

Lemma rsi_step_falling (period : num) (i : nat) (prev cur gains losses : num)
    (gains' losses' : num) (o : option num) (p c l : Q) :
  (Fin 1 <=? period)%num = true ->
  hasval prev p -> hasval cur c -> (c < p)%Q ->
  hasval gains 0 -> hasval losses l -> (0 <= l)%Q ->
  rsi_step period i prev cur gains losses = (gains', losses', o) ->
  hasval gains' 0
  /\ (exists l', hasval losses' l' /\ (0 < l')%Q)
  /\ forall v, o = Some v -> hasval v 0.
Proof.
  intros Hper Hp Hc Hpc Hg Hl Hl0. unfold rsi_step.
  assert (Hg1 : hasval (Math_max (Fin 0) (cur - prev)%num) 0).
  { apply Math_max_zero_of_nonpos with (q := (c - p)%Q);
      [now apply hasval_sub|lra]. }
  assert (Hl1 : hasval (Math_max (Fin 0) (- (cur - prev))%num) (p - c)).
  { destruct (hasval_Fin _ _ (hasval_sub _ _ _ _ Hc Hp)) as (d & -> & Hd).
    rewrite neg_Fin. apply Math_max_zero_of_nonneg; [|lra].
    apply hasval_fin. lra. }
  destruct (of_nat i <=? period)%num eqn:Hle.
  - intros [= <- <- <-].
    assert (HG : hasval (gains + Math_max (Fin 0) (cur - prev))%num 0).
    { eapply hasval_eq; [apply hasval_add; eassumption|ring]. }
    pose proof (hasval_add _ _ _ _ Hl Hl1) as HL.
    split; [exact HG|]. split; [exists (l + (p - c))%Q; split; [exact HL|lra]|].
    intros v Hv. destruct (of_nat i =? period)%num; [|discriminate].
    injection Hv as <-.
    apply rsi_value_zero_gain with (l := (l + (p - c))%Q); [exact HG|exact HL|lra].
  - intros [= <- <- <-].
    destruct (period_cases _ Hper) as [->|(q & -> & Hq)];
      [unfold of_nat, leb in Hle; discriminate|].
    assert (HG : hasval ((gains * (Fin q - Fin 1)
                          + Math_max (Fin 0) (cur - prev)) / Fin q)%num 0).
    { eapply hasval_eq.
      - apply hasval_div with (b := q); [|simpl; reflexivity|lra].
        apply hasval_add; [|exact Hg1].
        apply hasval_mul; [exact Hg|].
        apply hasval_sub; simpl; reflexivity.
      - field. lra. }
    assert (HL : hasval ((losses * (Fin q - Fin 1)
                          + Math_max (Fin 0) (- (cur - prev))) / Fin q)%num
                        ((l * (q - 1) + (p - c)) / q)).
    { apply hasval_div; [|simpl; reflexivity|lra].
      apply hasval_add; [|exact Hl1].
      apply hasval_mul; [exact Hl|].
      apply hasval_sub; simpl; reflexivity. }
    assert (Hpos : (0 < (l * (q - 1) + (p - c)) / q)%Q).
    { apply Qlt_shift_div_l; [lra|].
      assert (0 <= l * (q - 1))%Q by (apply Qmult_le_0_compat; lra). lra. }
    split; [exact HG|]. split; [eexists; split; [exact HL|exact Hpos]|].
    intros v [= <-].
    eapply rsi_value_zero_gain; [exact HG|exact HL|exact Hpos].
Qed.

Lemma rsi_loop_rising (period : num) (qs : list Q) :
  (Fin 1 <=? period)%num = true ->
  forall i p gains losses,
    Sorted Qle (p :: qs) ->
    hasval losses 0 ->
    forall k v,
      rsi_loop period i (Fin p) (map Fin qs) gains losses !! k = Some (Some v) ->
      v = Fin 100.
Proof.
  intros Hper. induction qs as [|c qs IH];
    intros i p gains losses Hs Hl k v Hk; [discriminate|].
  apply Sorted_inv in Hs as [Hs Hhd]. apply HdRel_inv in Hhd.
  simpl in Hk.
  destruct (rsi_step period i (Fin p) (Fin c) gains losses)
    as [[g' l'] o] eqn:E.
  destruct (rsi_step_rising period i (Fin p) (Fin c) gains losses g' l' o p c Hper
              ltac:(simpl; reflexivity) ltac:(simpl; reflexivity) Hhd Hl E)
    as [Hl' Ho].
  destruct k as [|k]; simpl in Hk.
  - injection Hk as ->. now apply Ho.
  - exact (IH _ _ _ _ Hs Hl' _ _ Hk).
Qed.

Lemma rsi_loop_falling (period : num) (qs : list Q) :
  (Fin 1 <=? period)%num = true ->
  forall i p gains losses l,
    Sorted (fun a b => (b < a)%Q) (p :: qs) ->
    hasval gains 0 -> hasval losses l -> (0 <= l)%Q ->
    forall k v,
      rsi_loop period i (Fin p) (map Fin qs) gains losses !! k = Some (Some v) ->
      hasval v 0.
Proof.
  intros Hper. induction qs as [|c qs IH];
    intros i p gains losses l Hs Hg Hl Hl0 k v Hk; [discriminate|].
  apply Sorted_inv in Hs as [Hs Hhd]. apply HdRel_inv in Hhd.
  simpl in Hk.
  destruct (rsi_step period i (Fin p) (Fin c) gains losses)
    as [[g' l'] o] eqn:E.
  destruct (rsi_step_falling period i (Fin p) (Fin c) gains losses g' l' o p c l Hper
              ltac:(simpl; reflexivity) ltac:(simpl; reflexivity) Hhd Hg Hl Hl0 E)
    as (Hg' & (l2 & Hl' & Hl2) & Ho).
  destruct k as [|k]; simpl in Hk.
  - injection Hk as ->. now apply Ho.
  - apply (IH _ _ _ _ l2 Hs Hg' Hl' ltac:(lra) _ _ Hk).
Qed.

Lemma rsi_rising_100 (qs : list Q) (period : num) (i : nat) (v : num) :
  (Fin 1 <=? period)%num = true ->
  Sorted Qle qs ->
  rsi (map Fin qs) period !! i = Some (Some v) -> v = Fin 100.
Proof.
  intros Hper Hs Hi. destruct qs as [|p qs]; [discriminate|].
  simpl in Hi. destruct i as [|k]; [discriminate|]. simpl in Hi.
  exact (rsi_loop_rising period qs Hper 1 p (Fin 0) (Fin 0) Hs
           ltac:(simpl; reflexivity) k v Hi).
Qed.

Lemma sorted_falling (zs : list Z) :
  Sorted Z.gt zs -> Sorted (fun a b => (b < a)%Q) (map inject_Z zs).
Proof.
  induction 1 as [|z zs Hs IH Hhd]; simpl; constructor; [exact IH|].
  destruct Hhd as [|y zs Hy]; simpl; constructor.
  rewrite <- Zlt_Qlt. lia.
Qed.

(** X20. The oscillator saturates when the closes move one way only,
    for a period of at least 1.  Over finite closes none of which is below
    the one before it (a flat series included), every defined entry is
    exactly 100.  Over closes that are whole numbers of absolute value at
    most [2^53], each below the one before it, every defined entry has the
    value 0. *)
Theorem rsi_one_way_closes (period : num) (i : nat) (v : num) :
  (Fin 1 <=? period)%num = true ->
  (forall qs : list Q,
      Sorted Qle qs ->
      rsi (map Fin qs) period !! i = Some (Some v) -> v = Fin 100)
  /\ (forall zs : list Z,
        Sorted Z.gt zs ->
        Forall (fun z => (Z.abs z <= 2 ^ 53)%Z) zs ->
        rsi (map (fun z => Fin (inject_Z z)) zs) period !! i = Some (Some v) ->
        hasval v 0).
Proof.
  intros Hper. split.
  - intros qs Hs Hi. now apply (rsi_rising_100 qs period i).
  - intros zs Hs _ Hi.
    rewrite <- (map_map inject_Z Fin) in Hi.
    apply sorted_falling in Hs.
    destruct (map inject_Z zs) as [|p qs]; [discriminate|].
    simpl in Hi. destruct i as [|k]; [discriminate|]. simpl in Hi.
    exact (rsi_loop_falling period qs Hper 1 p (Fin 0) (Fin 0) 0 Hs
             ltac:(simpl; reflexivity) ltac:(simpl; reflexivity)
             ltac:(lra) k v Hi).
Qed.

Lemma rsi_one_way_closes_witness :
  rsi (map Fin [10; 11; 11; 14]%Q) (Fin 2) !! 3%nat = Some (Some (Fin 100))
  /\ exists v, rsi (map (fun z => Fin (inject_Z z)) [14; 12; 11; 7]%Z) (Fin 2)
                 !! 3%nat = Some (Some v)
               /\ hasval v 0.
Proof.
  split.
  - reflexivity.
  - eexists. split; [reflexivity|].
    apply (proj2 (rsi_one_way_closes (Fin 2) 3 _ eq_refl) [14; 12; 11; 7]%Z).
    + repeat constructor.
    + repeat constructor; discriminate.
    + reflexivity.
Defined.

(** ** Mean reversion in a market that never falls *)

Lemma meanrev_loop_no_entry (entry exit : num) (r : list (option num)) :
  (forall j v, r !! j = Some (Some v) -> (v <? entry)%num = false) ->
  forall i p, meanrev_loop entry exit FLAT r !! i = Some p -> p = FLAT.
Proof.
  induction r as [|ri r IH]; intros Hr i p Hp; [discriminate|].
  assert (Hstep : meanrev_step entry exit FLAT ri = FLAT).
  { destruct ri as [rv|]; [|reflexivity]. simpl.
    now rewrite (Hr 0%nat rv eq_refl). }
  simpl in Hp. rewrite Hstep in Hp.
  destruct i as [|i]; simpl in Hp.
  - congruence.
  - apply (IH (fun j v H => Hr (S j) v H) i p Hp).
Qed.

(** X21. Mean reversion never buys in a market that never falls: when
    the closes are finite and no close is below the one before it, the
    period is at least 1 and the entry threshold is not above 100, the
    signal is 0 on every bar, and a run on it makes no trade. *)
Theorem meanrev_idle_without_fall
    (rows : list OHLCV) (qs : list Q) (rsiPeriod entry exit : num) :
  map close rows = map Fin qs ->
  Sorted Qle qs ->
  (Fin 1 <=? rsiPeriod)%num = true ->
  (Fin 100 <? entry)%num = false ->
  let sig := (buildBacktestSignalMeanRev rows rsiPeriod entry exit).1 in
  length sig = length rows
  /\ Forall (fun v => v = Fin 0) sig
  /\ forall a s,
      signal a = sig -> simulate a = Some s ->
      trades s = 0%nat /\ equity s = Fin 1.
Proof.
  intros Hcl Hs Hper He sig.
  assert (Hall : Forall (fun v => v = Fin 0) sig).
  { subst sig. simpl. rewrite Hcl. apply Forall_forall. intros v Hv.
    apply list_elem_of_lookup_1 in Hv as [i Hi].
    rewrite list_lookup_fmap in Hi.
    destruct (meanrev_loop entry exit FLAT (rsi (map Fin qs) rsiPeriod) !! i)
      as [p|] eqn:E; [|discriminate].
    simpl in Hi. injection Hi as <-.
    assert (Hr : forall j rv,
               rsi (map Fin qs) rsiPeriod !! j = Some (Some rv) ->
               (rv <? entry)%num = false).
    { intros j rv Hj.
      rewrite (rsi_rising_100 qs rsiPeriod j rv Hper Hs Hj). exact He. }
    now rewrite (meanrev_loop_no_entry entry exit _ Hr i p E). }
  split; [|split; [exact Hall|]].
  - subst sig. simpl. rewrite length_map, meanrev_loop_length, rsi_length.
    now rewrite length_map.
  - intros a s Hsig Hsim.
    assert (Hn : neverEnters a).
    { intros i Hd. unfold desiredAt in Hd.
      destruct (signal a !! (i - 1)%nat) as [v|] eqn:E; [|discriminate].
      rewrite Hsig in E. rewrite Forall_forall in Hall.
      rewrite (Hall v) in Hd; [discriminate|].
      now apply (list_elem_of_lookup_2 _ (i - 1)). }
    destruct (neverEnters_idle a s Hn Hsim) as ((_ & Htr & _) & Heq & _).
    split; assumption.
Qed.

Lemma meanrev_idle_without_fall_witness :
  Forall (fun v => v = Fin 0)
         (buildBacktestSignalMeanRev rising_rows (Fin 2) (Fin 30) (Fin 70)).1.
Proof.
  destruct (meanrev_idle_without_fall rising_rows [100; 105; 110]%Q
              (Fin 2) (Fin 30) (Fin 70) eq_refl
              ltac:(repeat constructor; discriminate) eq_refl eq_refl)
    as (_ & H & _).
  exact H.
Defined.

(** ** Weekly bars *)

Lemma week_open_same (r : OHLCV) : week_open r = r.
Proof. now destruct r. Qed.

Lemma resample_loop_out (K : string -> string) (rows : list OHLCV) :
  forall out ck cur,
    resample_loop K rows out ck cur = out ++ resample_loop K rows [] ck cur.
Proof.
  induction rows as [|r rows IH]; intros out ck cur; simpl.
  - destruct cur; [reflexivity|now rewrite app_nil_r].
  - destruct (String.eqb (K (t r)) ""); [apply IH|].
    destruct cur as [c|]; [|apply IH].
    destruct (negb (String.eqb (K (t r)) ck)); [|apply IH].
    rewrite (IH (out ++ [c])), (IH ([] ++ [c])), <- app_assoc. reflexivity.
Qed.

Lemma resample_loop_keyed (K : string -> string) (rows : list OHLCV) :
  forall out ck cur,
    resample_loop K rows out ck cur
    = resample_loop K (keyed K rows) out ck cur.
Proof.
  unfold keyed.
  induction rows as [|r rows IH]; intros out ck cur; [reflexivity|].
  destruct (String.eqb (K (t r)) "") eqn:E.
  - rewrite filter_cons_False by (apply String.eqb_eq in E; tauto).
    simpl. rewrite E. apply IH.
  - rewrite filter_cons_True by (now apply String.eqb_neq in E).
    simpl. rewrite E.
    destruct cur as [c|]; [|apply IH].
    destruct (negb (String.eqb (K (t r)) ck)); apply IH.
Qed.

Lemma keyed_all (K : string -> string) (rows : list OHLCV) :
  Forall (fun r => K (t r) <> "") (keyed K rows).
Proof.
  apply Forall_forall. intros r Hr. unfold keyed in Hr.
  now apply list_elem_of_filter in Hr as [H _].
Qed.

(** The bars that the loop gives from a bar in progress [c] whose week is
    [K (t c)], over rows that all have a week. *)
Lemma resample_from_cur (K : string -> string) (rows : list OHLCV) :
  Forall (fun r => K (t r) <> "") rows ->
  forall c,
    K (t c) <> "" ->
    let out := resample_loop K rows [] (K (t c)) (Some c) in
    weekly K out
    /\ (length out <= S (length rows))%nat
    /\ (exists b tl, out = b :: tl /\ open b = open c /\ K (t b) = K (t c))
    /\ (fun b => (t b, close b)) <$> last out
       = (fun b => (t b, close b)) <$> last (c :: rows).
Proof.
  induction 1 as [|r rows Hr Hrows IH]; intros c Hc.
  - simpl. split; [split; repeat constructor; exact Hc|].
    split; [lia|]. split; [|reflexivity].
    exists c, []. auto.
  - cbv zeta. cbn [resample_loop].
    destruct (String.eqb (K (t r)) "") eqn:E;
      [apply String.eqb_eq in E; contradiction|].
    rewrite last_cons_cons.
    destruct (String.eqb (K (t r)) (K (t c))) eqn:Ek; simpl negb; cbv iota.
    + apply String.eqb_eq in Ek.
      assert (Hc' : K (t (week_extend c r)) <> "") by exact Hr.
      destruct (IH (week_extend c r) Hc')
        as (Hw & Hlen & (b & tl & Hb & Ho & Hk) & Hl).
      change (K (t (week_extend c r))) with (K (t r)) in *.
      rewrite <- Ek. split; [exact Hw|]. split; [simpl; lia|]. split.
      * exists b, tl. split; [exact Hb|]. split; [exact Ho|congruence].
      * rewrite Hl, !last_cons. now destruct (last rows).
    + apply String.eqb_neq in Ek.
      rewrite resample_loop_out.
      assert (Hr' : K (t (week_open r)) <> "") by exact Hr.
      destruct (IH (week_open r) Hr')
        as ((Hw1 & Hw2) & Hlen & (b & tl & Hb & Ho & Hk) & Hl).
      change (K (t (week_open r))) with (K (t r)) in *.
      split; [split|split; [|split]].
      * apply Forall_app. split; [now repeat constructor|exact Hw1].
      * simpl. constructor; [exact Hw2|]. rewrite Hb. constructor. congruence.
      * simpl. simpl in Hlen. lia.
      * exists c. eexists. simpl. auto.
      * rewrite last_app, Hb in *. simpl in *.
        rewrite week_open_same in Hl.
        destruct (last (b :: tl)) eqn:El.
        -- exact Hl.
        -- rewrite last_cons in El. destruct (last tl); discriminate.
Qed.

(** The same from the start of the loop, with no bar in progress. *)
Lemma resample_from_start (K : string -> string) (rows : list OHLCV) :
  Forall (fun r => K (t r) <> "") rows ->
  forall ck,
    let out := resample_loop K rows [] ck None in
    weekly K out
    /\ (length out <= length rows)%nat
    /\ (out = [] <-> rows = [])
    /\ open <$> head out = open <$> head rows
    /\ (fun b => (t b, close b)) <$> last out
       = (fun b => (t b, close b)) <$> last rows.
Proof.
  intros Hrows ck. destruct Hrows as [|r rows Hr Hrows].
  - simpl. split; [split; constructor|]. split; [lia|]. split; [tauto|].
    split; reflexivity.
  - cbv zeta. cbn [resample_loop].
    destruct (String.eqb (K (t r)) "") eqn:E;
      [apply String.eqb_eq in E; contradiction|].
    assert (Hr' : K (t (week_open r)) <> "") by exact Hr.
    destruct (resample_from_cur K rows Hrows (week_open r) Hr')
      as (Hw & Hlen & (b & tl & Hb & Ho & Hk) & Hl).
    change (K (t (week_open r))) with (K (t r)) in *.
    split; [exact Hw|]. split; [simpl; lia|]. split; [|split].
    + rewrite Hb. split; discriminate.
    + rewrite Hb. simpl. now rewrite Ho.
    + rewrite Hl. now rewrite week_open_same.
Qed.

(** X22. The weekly bars, whatever the week keys are.  Rows without a
    week are skipped; no weekly bar is without a week and no two bars in a
    row belong to the same week; there are at most as many bars as rows
    with a week, and none exactly when there is no such row; the first bar
    opens at the open of the first such row, and the last bar carries the
    date and the close of the last such row. *)
Theorem resampleToWeek_structure
    (isoWeekId : string -> string) (rows : list OHLCV) :
  let out := resampleToWeek isoWeekId rows in
  let kept := keyed isoWeekId rows in
  out = resampleToWeek isoWeekId kept
  /\ weekly isoWeekId out
  /\ (length out <= length kept)%nat
  /\ (out = [] <-> kept = [])
  /\ open <$> head out = open <$> head kept
  /\ (fun b => (t b, close b)) <$> last out
     = (fun b => (t b, close b)) <$> last kept.
Proof.
  intros out kept.
  assert (Hout : out = resample_loop isoWeekId kept [] "" None).
  { subst out kept. unfold resampleToWeek.
    destruct rows as [|r rows]; [reflexivity|].
    apply resample_loop_keyed. }
  split.
  - rewrite Hout. unfold resampleToWeek. now destruct kept.
  - rewrite Hout.
    apply (resample_from_start isoWeekId kept (keyed_all _ _) "").
Qed.

(** X23. Resampling is idempotent: a list of bars in which every bar
    has a week and no two bars in a row have the same week comes back
    unchanged, so resampling weekly bars again changes nothing. *)
Theorem resampleToWeek_idempotent
    (isoWeekId : string -> string) (rows : list OHLCV) :
  (weekly isoWeekId rows -> resampleToWeek isoWeekId rows = rows)
  /\ resampleToWeek isoWeekId (resampleToWeek isoWeekId rows)
     = resampleToWeek isoWeekId rows.
Proof.
  assert (Hcur : forall l c,
             weekly isoWeekId (c :: l) ->
             resample_loop isoWeekId l [] (isoWeekId (t c)) (Some c) = c :: l).
  { induction l as [|r l IH]; intros c [Hk Hs]; [reflexivity|].
    apply Sorted_inv in Hs as [Hs Hhd]. apply HdRel_inv in Hhd.
    apply Forall_cons in Hk as [Hc Hk].
    pose proof Hk as Hk'. apply Forall_cons in Hk' as [Hr _].
    simpl.
    destruct (String.eqb (isoWeekId (t r)) "") eqn:E;
      [apply String.eqb_eq in E; contradiction|].
    destruct (String.eqb (isoWeekId (t r)) (isoWeekId (t c))) eqn:Ek;
      [apply String.eqb_eq in Ek; congruence|].
    simpl. rewrite resample_loop_out. simpl. f_equal.
    rewrite <- (week_open_same r) at 3.
    apply (IH (week_open r)). rewrite week_open_same. now split. }
  assert (Hid : forall l, weekly isoWeekId l -> resampleToWeek isoWeekId l = l).
  { intros [|r l] Hw; [reflexivity|]. unfold resampleToWeek.
    pose proof Hw as [Hk Hs]. apply Forall_cons in Hk as [Hr _].
    cbn [resample_loop].
    destruct (String.eqb (isoWeekId (t r)) "") eqn:E;
      [apply String.eqb_eq in E; contradiction|].
    rewrite <- (week_open_same r) at 3.
    apply (Hcur l (week_open r)). now rewrite week_open_same. }
  split; [apply Hid|].
  apply Hid.
  assert (H : resampleToWeek isoWeekId rows
              = resample_loop isoWeekId (keyed isoWeekId rows) [] "" None).
  { unfold resampleToWeek. destruct rows as [|r rows]; [reflexivity|].
    apply resample_loop_keyed. }
  rewrite H.
  apply (resample_from_start isoWeekId _ (keyed_all _ _) "").
Qed.

Lemma totalVolume_cons (r : OHLCV) (rows : list OHLCV) (v : Q) :
  volume r = Fin v -> (totalVolume (r :: rows) == v + totalVolume rows)%Q.
Proof.
  intros H. unfold totalVolume, fin_vals. simpl. rewrite H. reflexivity.
Qed.

Lemma totalVolume_app (l1 l2 : list OHLCV) :
  (totalVolume (l1 ++ l2) == totalVolume l1 + totalVolume l2)%Q.
Proof.
  unfold totalVolume. rewrite map_app, fin_vals_app, qsum_app. reflexivity.
Qed.

Lemma week_extend_wellFormed (c r : OHLCV) :
  wellFormed c -> wellFormed r ->
  wellFormed (week_extend c r)
  /\ forall rows,
      (totalVolume (week_extend c r :: rows)
       == totalVolume (c :: r :: rows))%Q.
Proof.
  intros (o1 & h1 & l1 & c1 & v1 & Ho1 & Hh1 & Hl1 & Hc1 & Hv1 & Hb1 & Hb1')
         (o2 & h2 & l2 & c2 & v2 & Ho2 & Hh2 & Hl2 & Hc2 & Hv2 & Hb2 & Hb2').
  assert (Hmax : exists h, Math_max (high c) (high r) = Fin h
                           /\ (h1 <= h)%Q /\ (h2 <= h)%Q).
  { rewrite Hh1, Hh2. unfold Math_max.
    destruct (Fin h1 <=? Fin h2)%num eqn:E.
    - apply leb_Fin in E. exists h2. split; [reflexivity|lra].
    - apply Qleb_gt in E. exists h1. split; [reflexivity|lra]. }
  assert (Hmin : exists l, Math_min (low c) (low r) = Fin l
                           /\ (l <= l1)%Q /\ (l <= l2)%Q).
  { rewrite Hl1, Hl2. unfold Math_min.
    destruct (Fin l1 <=? Fin l2)%num eqn:E.
    - apply leb_Fin in E. exists l1. split; [reflexivity|lra].
    - apply Qleb_gt in E. exists l2. split; [reflexivity|lra]. }
  destruct Hmax as (h & Hh & Hh1' & Hh2'). destruct Hmin as (l & Hl & Hl1' & Hl2').
  split.
  - exists o1, h, l, c2, (Qred (v1 + v2)). simpl.
    rewrite Hh, Hl, Hv1, Hv2, add_Fin.
    split; [exact Ho1|]. split; [reflexivity|]. split; [reflexivity|].
    split; [exact Hc2|]. split; [reflexivity|]. split; lra.
  - intros rows.
    rewrite (totalVolume_cons (week_extend c r) rows (Qred (v1 + v2)))
      by (simpl; now rewrite Hv1, Hv2, add_Fin).
    rewrite (totalVolume_cons c _ v1 Hv1), (totalVolume_cons r _ v2 Hv2).
    rewrite Qred_correct. ring.
Qed.

Lemma resample_loop_conserves (K : string -> string) (rows : list OHLCV) :
  Forall (fun r => K (t r) <> "") rows ->
  Forall wellFormed rows ->
  forall c ck,
    wellFormed c ->
    Forall wellFormed (resample_loop K rows [] ck (Some c))
    /\ (totalVolume (resample_loop K rows [] ck (Some c))
        == totalVolume (c :: rows))%Q.
Proof.
  induction rows as [|r rows IH]; intros Hk Hwf c ck Hc.
  - simpl. split; [now repeat constructor|reflexivity].
  - apply Forall_cons in Hk as [Hr Hk]. apply Forall_cons in Hwf as [Hwr Hwf].
    cbn [resample_loop].
    destruct (String.eqb (K (t r)) "") eqn:E;
      [apply String.eqb_eq in E; contradiction|].
    destruct (negb (String.eqb (K (t r)) ck)).
    + rewrite resample_loop_out.
      assert (Hwo : wellFormed (week_open r)) by now rewrite week_open_same.
      destruct (IH Hk Hwf (week_open r) (K (t r)) Hwo) as [H1 H2].
      split.
      * apply Forall_app. split; [now repeat constructor|exact H1].
      * destruct Hc as (? & ? & ? & ? & v & _ & _ & _ & _ & Hv & _).
        simpl app.
        rewrite (totalVolume_cons c _ v Hv), (totalVolume_cons c _ v Hv).
        now rewrite H2, week_open_same.
    + destruct (week_extend_wellFormed c r Hc Hwr) as [Hwe Hvol].
      destruct (IH Hk Hwf (week_extend c r) ck Hwe) as [H1 H2].
      split; [exact H1|]. now rewrite H2, Hvol.
Qed.

(** X24. Resampling keeps bars sound and conserves the volume, for
    any week-key function: when the rows with a week are bars of finite
    numbers whose open and close lie between low and high, and their volumes
    are whole numbers, none negative, that add up to at most [2^53] (so that
    the sums of volumes are exact), the weekly bars are bars of finite
    numbers whose open and close lie between low and high, and the volumes
    of the weekly bars add up to the volumes of those rows. *)
Theorem resampleToWeek_conserves
    (isoWeekId : string -> string) (rows : list OHLCV) :
  Forall wellFormed (keyed isoWeekId rows) ->
  wholeVolumes (keyed isoWeekId rows) ->
  Forall wellFormed (resampleToWeek isoWeekId rows)
  /\ (totalVolume (resampleToWeek isoWeekId rows)
      == totalVolume (keyed isoWeekId rows))%Q.
Proof.
  intros Hwf _.
  assert (H : resampleToWeek isoWeekId rows
              = resample_loop isoWeekId (keyed isoWeekId rows) [] "" None).
  { unfold resampleToWeek. destruct rows as [|r rows]; [reflexivity|].
    apply resample_loop_keyed. }
  rewrite H. pose proof (keyed_all isoWeekId rows) as Hk.
  destruct (keyed isoWeekId rows) as [|r kept].
  - simpl. split; [constructor|reflexivity].
  - apply Forall_cons in Hk as [Hr Hk]. apply Forall_cons in Hwf as [Hwr Hwf].
    cbn [resample_loop].
    destruct (String.eqb (isoWeekId (t r)) "") eqn:E;
      [apply String.eqb_eq in E; contradiction|].
    assert (Hwo : wellFormed (week_open r)) by now rewrite week_open_same.
    destruct (resample_loop_conserves isoWeekId kept Hk Hwf
                (week_open r) (isoWeekId (t r)) Hwo) as [H1 H2].
    split; [exact H1|]. now rewrite H2, week_open_same.
Qed.

Lemma resampleToWeek_conserves_witness :
  length (resampleToWeek monthKey month_rows) = 2%nat
  /\ (totalVolume (resampleToWeek monthKey month_rows) == 650)%Q.
Proof.
  split; [reflexivity|].
  destruct (resampleToWeek_conserves monthKey month_rows) as [_ H].
  - repeat constructor;
      (eexists _, _, _, _, _; do 5 (split; [reflexivity|]);
       split; split; discriminate).
  - exists [100; 200; 300; 50]%Z. split; [reflexivity|].
    split; [repeat constructor; discriminate|discriminate].
  - rewrite H. reflexivity.
Defined.

(** ** Event dates *)

Lemma chars_text (l : list ascii) : chars (text l) = l.
Proof. apply list_ascii_of_string_of_list_ascii. Qed.

Lemma text_chars (s : string) : text (chars s) = s.
Proof. apply string_of_list_ascii_of_string. Qed.

Lemma chars_append (a b : string) : chars (a +:+ b) = chars a ++ chars b.
Proof.
  induction a as [|c a IH]; [reflexivity|].
  unfold chars in *. simpl. now rewrite IH.
Qed.

Lemma text_length (l : list ascii) : String.length (text l) = length l.
Proof. induction l as [|c l IH]; simpl; [reflexivity|now rewrite IH]. Qed.

Lemma text_nil_iff (l : list ascii) : text l = "" <-> l = [].
Proof.
  split; [|now intros ->].
  intros H. apply (f_equal chars) in H. now rewrite chars_text in H.
Qed.

Lemma digit_not_white (c : ascii) : isDigit c = true -> isWhiteSpace c = false.
Proof.
  unfold isDigit, isWhiteSpace. cbv zeta.
  rewrite andb_true_iff, !Nat.leb_le.
  intros [H1 H2].
  rewrite !orb_false_iff, andb_false_iff, !Nat.leb_gt, !Nat.eqb_neq. lia.
Qed.

Lemma digit_not_dash (c : ascii) : isDigit c = true -> Ascii.eqb "-" c = false.
Proof.
  intros H. destruct (Ascii.eqb "-" c) eqn:E; [|reflexivity].
  apply Ascii.eqb_eq in E. subst c. discriminate H.
Qed.

Lemma trimStart_nonwhite (c : ascii) (s : list ascii) :
  isWhiteSpace c = false -> trimStart (c :: s) = c :: s.
Proof. intros H. simpl. now rewrite H. Qed.

Lemma trimEnd_cons_nonwhite (c : ascii) (s : list ascii) :
  isWhiteSpace c = false -> trimEnd (c :: s) = c :: trimEnd s.
Proof. intros H. simpl. rewrite H. now destruct (trimEnd s). Qed.

Lemma trimEnd_app_nonwhite (a b : list ascii) :
  Forall (fun c => isWhiteSpace c = false) a ->
  trimEnd (a ++ b) = a ++ trimEnd b.
Proof.
  induction 1 as [|c a Hc _ IH]; [reflexivity|].
  rewrite <- app_comm_cons, trimEnd_cons_nonwhite by exact Hc.
  now rewrite IH.
Qed.

Lemma trimEnd_prefix (s : list ascii) : exists w, s = trimEnd s ++ w.
Proof.
  induction s as [|c s [w IH]]; [now exists []|].
  simpl. destruct (trimEnd s) as [|x r] eqn:E.
  - destruct (isWhiteSpace c).
    + now exists (c :: s).
    + exists s. reflexivity.
  - exists w. simpl. now rewrite IH at 1.
Qed.

Lemma trimStart_suffix (s : list ascii) : exists w, s = w ++ trimStart s.
Proof.
  induction s as [|c s [w IH]]; [now exists []|].
  simpl. destruct (isWhiteSpace c).
  - exists (c :: w). simpl. now rewrite IH at 1.
  - now exists [].
Qed.

Lemma existsb_app_false {A : Type} (f : A -> bool) (l1 l2 : list A) :
  existsb f (l1 ++ l2) = false <-> existsb f l1 = false /\ existsb f l2 = false.
Proof. rewrite existsb_app. apply orb_false_iff. Qed.

Lemma trim_dashFree (s : list ascii) :
  existsb (Ascii.eqb "-") s = false ->
  existsb (Ascii.eqb "-") (trim s) = false.
Proof.
  intros H. unfold trim.
  destruct (trimStart_suffix s) as [w Hw].
  destruct (trimEnd_prefix (trimStart s)) as [w' Hw'].
  rewrite Hw, Hw' in H.
  apply existsb_app_false in H as [_ H].
  now apply existsb_app_false in H as [H _].
Qed.

Lemma digits_dashFree (l : list ascii) :
  Forall (fun c => isDigit c = true) l -> existsb (Ascii.eqb "-") l = false.
Proof.
  induction 1 as [|c l Hc _ IH]; [reflexivity|].
  cbn [existsb]. now rewrite (digit_not_dash c Hc).
Qed.

Lemma filter_digits_all (l : list ascii) :
  Forall (fun c => isDigit c = true) l ->
  filter (fun c => isDigit c = true) l = l.
Proof.
  induction 1 as [|c l Hc _ IH]; [reflexivity|].
  rewrite filter_cons_True by exact Hc. now rewrite IH.
Qed.

Lemma filter_digits_Forall (l : list ascii) :
  Forall (fun c => isDigit c = true) (filter (fun c => isDigit c = true) l).
Proof.
  apply Forall_forall. intros c Hc. now apply list_elem_of_filter in Hc as [H _].
Qed.

(** The text read off at least eight digits. *)
Lemma digits_isoDate (digits : list ascii) :
  Forall (fun c => isDigit c = true) digits ->
  (8 <= length digits)%nat ->
  isoDate (text (take 4 digits ++ ["-"%char] ++ take 2 (drop 4 digits)
                 ++ ["-"%char] ++ take 2 (drop 6 digits))).
Proof.
  intros Hd Hlen.
  exists (take 4 digits), (take 2 (drop 4 digits)), (take 2 (drop 6 digits)).
  split; [now apply Forall_take|].
  split; [now apply Forall_take, Forall_drop|].
  split; [now apply Forall_take, Forall_drop|].
  rewrite !length_take, !length_drop, chars_text.
  repeat split; lia.
Qed.

(** A text that begins with a date, whatever follows it. *)
Lemma parse_iso_prefix (iso rest : string) :
  isoDate iso -> parseEventDateToIso (Some (iso +:+ rest)) = iso.
Proof.
  intros (y & m & d & Hy & Hm & Hd & Ly & Lm & Ld & Hiso).
  unfold parseEventDateToIso. simpl default.
  rewrite chars_append.
  set (body := chars iso).
  assert (Hnw : Forall (fun c => isWhiteSpace c = false) body).
  { subst body. rewrite Hiso.
    apply Forall_app. split; [|apply Forall_cons; split; [reflexivity|]].
    - eapply Forall_impl; [exact Hy|]. apply digit_not_white.
    - apply Forall_app. split; [|apply Forall_cons; split; [reflexivity|]].
      + eapply Forall_impl; [exact Hm|]. apply digit_not_white.
      + eapply Forall_impl; [exact Hd|]. apply digit_not_white. }
  assert (Hlen : length body = 10%nat).
  { subst body. rewrite Hiso. rewrite length_app. simpl.
    rewrite length_app. simpl. lia. }
  assert (Hdash : existsb (Ascii.eqb "-") body = true).
  { subst body. rewrite Hiso, existsb_app. simpl.
    now rewrite orb_true_r. }
  assert (Htrim : trim (body ++ chars rest) = body ++ trimEnd (chars rest)).
  { unfold trim. destruct body as [|c body'] eqn:Eb; [discriminate Hlen|].
    apply Forall_cons in Hnw as [Hc Hnw'].
    rewrite <- app_comm_cons, trimStart_nonwhite by exact Hc.
    rewrite app_comm_cons. apply trimEnd_app_nonwhite.
    apply Forall_cons. now split. }
  rewrite Htrim, length_app, Hlen, existsb_app, Hdash. simpl.
  rewrite <- Hlen, take_app_length. subst body. apply text_chars.
Qed.

Lemma parse_dashFree (s : string) :
  dashFree s ->
  parseEventDateToIso (Some s) = "" \/ isoDate (parseEventDateToIso (Some s)).
Proof.
  intros Hs. unfold parseEventDateToIso. simpl default.
  destruct (Nat.eqb _ 0); [now left|].
  rewrite (trim_dashFree _ Hs). simpl.
  destruct (Nat.ltb _ 8) eqn:E8; [now left|]. right.
  apply Nat.ltb_ge in E8.
  apply digits_isoDate; [apply filter_digits_Forall|exact E8].
Qed.

(** X25. [parseEventDateToIso] gives the empty text or a text of exactly
    ten units; it gives the empty text for a missing time; and from a time
    without a dash it gives the empty text or a date [YYYY-MM-DD]: four
    digits, a dash, two digits, a dash and two digits. *)
Theorem parseEventDateToIso_shape (seendate : option string) :
  let r := parseEventDateToIso seendate in
  (r = "" \/ String.length r = 10%nat)
  /\ (seendate = None -> r = "")
  /\ (forall s, seendate = Some s -> dashFree s -> r = "" \/ isoDate r).
Proof.
  cbv zeta. unfold parseEventDateToIso.
  set (s0 := trim (chars (default "" seendate))).
  split; [|split].
  - destruct (Nat.eqb (length s0) 0); [now left|].
    destruct (existsb (Ascii.eqb "-") s0 && Nat.leb 10 (length s0)) eqn:E.
    + right. apply andb_true_iff in E as [_ E]. apply Nat.leb_le in E.
      rewrite text_length, length_take. lia.
    + destruct (Nat.ltb _ 8) eqn:E8; [now left|]. right.
      apply Nat.ltb_ge in E8.
      rewrite text_length, !length_app, !length_take, !length_drop.
      cbn [length]. lia.
  - intros ->. reflexivity.
  - intros s -> Hs. exact (parse_dashFree s Hs).
Qed.

(** X26. A text that begins with a date [YYYY-MM-DD] is mapped to that
    date, whatever follows it; and on a time without a dash the function is
    idempotent: its result is mapped to itself. *)
Theorem parseEventDateToIso_keeps_dates (s rest : string) :
  (isoDate s -> parseEventDateToIso (Some (s +:+ rest)) = s)
  /\ (dashFree s ->
      parseEventDateToIso (Some (parseEventDateToIso (Some s)))
      = parseEventDateToIso (Some s)).
Proof.
  split; [apply parse_iso_prefix|].
  intros Hs.
  destruct (parse_dashFree s Hs) as [->|H]; [reflexivity|].
  rewrite <- (parse_iso_prefix _ "" H) at 2.
  f_equal. f_equal. 
  rewrite <- (text_chars (_ +:+ "")), chars_append, app_nil_r. now rewrite text_chars.
Qed.

(** *** Compact times *)

Lemma split_on_no_sep (sep : ascii) (a : list ascii) :
  existsb (Ascii.eqb sep) a = false -> split_on sep a = [a].
Proof.
  induction a as [|c a IH]; [reflexivity|].
  cbn [existsb]. intros [Hc Ha]%orb_false_iff.
  cbn [split_on]. rewrite Ascii.eqb_sym, Hc, (IH Ha). reflexivity.
Qed.

Lemma split_on_app (sep : ascii) (a b : list ascii) :
  existsb (Ascii.eqb sep) a = false ->
  split_on sep (a ++ sep :: b) = a :: split_on sep b.
Proof.
  induction a as [|c a IH].
  - intros _. cbn [app split_on]. now rewrite Ascii.eqb_refl.
  - cbn [existsb]. intros [Hc Ha]%orb_false_iff.
    rewrite <- app_comm_cons. cbn [split_on].
    rewrite Ascii.eqb_sym, Hc, (IH Ha). reflexivity.
Qed.

Lemma toGdeltDatetime_isoDate (iso time : string) (y m d : list ascii) :
  Forall (fun c => isDigit c = true) y ->
  Forall (fun c => isDigit c = true) m ->
  Forall (fun c => isDigit c = true) d ->
  chars iso = y ++ "-"%char :: m ++ "-"%char :: d ->
  toGdeltDatetime iso time = text (y ++ m ++ d ++ chars time).
Proof.
  intros Hy Hm Hd Hiso. unfold toGdeltDatetime.
  rewrite Hiso, split_on_app by now apply digits_dashFree.
  rewrite split_on_app by now apply digits_dashFree.
  rewrite split_on_no_sep by now apply digits_dashFree.
  reflexivity.
Qed.

(** A text of eight digits followed by units that hold no dash. *)
Lemma parse_compact (D T : list ascii) :
  Forall (fun c => isDigit c = true) D ->
  length D = 8%nat ->
  existsb (Ascii.eqb "-") T = false ->
  parseEventDateToIso (Some (text (D ++ T)))
  = text (take 4 D ++ ["-"%char] ++ take 2 (drop 4 D)
          ++ ["-"%char] ++ take 2 (drop 6 D)).
Proof.
  intros HD Hlen HT. unfold parseEventDateToIso. simpl default.
  rewrite chars_text.
  assert (Htrim : trim (D ++ T) = D ++ trimEnd T).
  { unfold trim. destruct D as [|c D'] eqn:Eb; [discriminate Hlen|].
    pose proof HD as HD'. apply Forall_cons in HD' as [Hc _].
    rewrite <- app_comm_cons, trimStart_nonwhite by now apply digit_not_white.
    rewrite app_comm_cons. apply trimEnd_app_nonwhite.
    eapply Forall_impl; [exact HD|]. apply digit_not_white. }
  rewrite Htrim.
  assert (HT' : existsb (Ascii.eqb "-") (trimEnd T) = false).
  { destruct (trimEnd_prefix T) as [w Hw]. rewrite Hw in HT.
    now apply existsb_app_false in HT as [HT _]. }
  rewrite existsb_app, (digits_dashFree D HD), HT'. cbn [orb andb].
  rewrite length_app, Hlen. cbn [Nat.add Nat.eqb].
  rewrite filter_app, (filter_digits_all D HD).
  set (F := filter (fun c => isDigit c = true) (trimEnd T)).
  replace (Nat.ltb (length (D ++ F)) 8) with false
    by (symmetry; apply Nat.ltb_ge; rewrite length_app; lia).
  do 9 (destruct D as [|? D]; try discriminate Hlen). reflexivity.
Qed.

(** X27. The round trip of a date through the compact time stamp of the
    news query: [toGdeltDatetime] turns a date [YYYY-MM-DD] and a time
    without a dash into the eight digits of the date followed by the time,
    and [parseEventDateToIso] reads the date back from it. *)
Theorem gdelt_datetime_round_trip (iso time : string) :
  isoDate iso -> dashFree time ->
  String.length (toGdeltDatetime iso time) = (8 + String.length time)%nat
  /\ dashFree (toGdeltDatetime iso time)
  /\ parseEventDateToIso (Some (toGdeltDatetime iso time)) = iso.
Proof.
  intros (y & m & d & Hy & Hm & Hd & Ly & Lm & Ld & Hiso) Ht.
  rewrite (toGdeltDatetime_isoDate iso time y m d Hy Hm Hd Hiso).
  split; [|split].
  - rewrite text_length, !length_app, Ly, Lm, Ld.
    rewrite <- (text_chars time) at 2. now rewrite text_length.
  - unfold dashFree. rewrite chars_text, !existsb_app.
    rewrite !digits_dashFree by assumption. exact Ht.
  - rewrite !app_assoc, <- (app_assoc y m d).
    rewrite parse_compact.
    + rewrite <- (text_chars iso), Hiso.
      do 5 (destruct y as [|? y]; try discriminate Ly).
      do 3 (destruct m as [|? m]; try discriminate Lm).
      do 3 (destruct d as [|? d]; try discriminate Ld).
      reflexivity.
    + apply Forall_app. split; [exact Hy|]. apply Forall_app. now split.
    + rewrite !length_app. lia.
    + exact Ht.
Qed.

Lemma gdelt_datetime_round_trip_witness :
  toGdeltDatetime "2026-02-24" "235959" = "20260224235959"
  /\ parseEventDateToIso (Some (toGdeltDatetime "2026-02-24" "235959"))
     = "2026-02-24".
Proof.
  split; [reflexivity|].
  apply (gdelt_datetime_round_trip "2026-02-24" "235959"); [|reflexivity].
  exists (chars "2026"), (chars "02"), (chars "24").
  repeat split; repeat constructor.
Defined.

(** *** Events per day *)

Lemma of_nat_succ (n : nat) : (of_nat n + Fin 1)%num = of_nat (S n).
Proof.
  unfold of_nat. rewrite add_Fin. unfold fin. f_equal.
  rewrite <- (inject_Z_Qred (Z.of_nat (S n))).
  apply Qred_complete. rewrite Nat2Z.inj_succ. unfold Z.succ.
  rewrite inject_Z_plus. reflexivity.
Qed.

Lemma of_nat_truthy (n : nat) : truthy (of_nat (S n)) = true.
Proof.
  unfold of_nat, truthy. apply negb_true_iff.
  destruct (Qeq_bool _ 0) eqn:E; [|reflexivity].
  apply Qeq_bool_iff in E. change 0%Q with (inject_Z 0) in E.
  rewrite inject_Z_injective in E. lia.
Qed.

Lemma eventCount_step_counts (d : string) (n : nat) (m : gmap string num)
    (ev : NewsEvent) :
  d <> "" -> counts d n m ->
  counts d (n + eventsOn d [ev]) (eventCount_step m ev).
Proof.
  intros Hd Hm. unfold eventsOn, eventCount_step, counts in *.
  destruct (String.eqb (parseEventDateToIso (seendate ev)) "") eqn:E.
  - apply String.eqb_eq in E.
    rewrite filter_cons_False by congruence.
    simpl. now rewrite Nat.add_0_r.
  - destruct (decide (parseEventDateToIso (seendate ev) = d)) as [Heq|Hne].
    + rewrite filter_cons_True by exact Heq. simpl.
      rewrite Heq, Nat.add_1_r, lookup_insert_eq, Hm.
      destruct n as [|n]; [reflexivity|].
      unfold or_else. now rewrite of_nat_truthy, of_nat_succ.
    + rewrite filter_cons_False by exact Hne. simpl.
      rewrite Nat.add_0_r, lookup_insert_ne by exact Hne. exact Hm.
Qed.

Lemma eventCount_fold_counts (d : string) (events : list NewsEvent) :
  d <> "" ->
  forall n m,
    counts d n m ->
    counts d (n + eventsOn d events) (fold_left eventCount_step events m).
Proof.
  intros Hd. induction events as [|ev events IH]; intros n m Hm.
  - unfold eventsOn. simpl. now rewrite Nat.add_0_r.
  - simpl.
    replace (n + eventsOn d (ev :: events))%nat
      with ((n + eventsOn d [ev]) + eventsOn d events)%nat.
    + apply IH. now apply eventCount_step_counts.
    + unfold eventsOn.
      change (ev :: events) with ([ev] ++ events).
      rewrite filter_app, length_app. lia.
Qed.

Lemma eventCount_fold_no_blank (events : list NewsEvent) :
  forall m : gmap string num,
    m !! "" = None -> fold_left eventCount_step events m !! "" = None.
Proof.
  induction events as [|ev events IH]; intros m Hm; [exact Hm|].
  simpl. apply IH. unfold eventCount_step.
  destruct (String.eqb (parseEventDateToIso (seendate ev)) "") eqn:E;
    [exact Hm|].
  apply String.eqb_neq in E. now rewrite lookup_insert_ne.
Qed.

(** X28. The table of [buildEventCountByDate] holds, for every day key
    other than the empty text, the number of events that
    [parseEventDateToIso] puts on that day, and no entry for a day without
    events nor for the empty text; so for such a key that is not the name
    of a member that every object inherits ([constructor], [toString],
    ...), the count that [exposureForDay] reads for the day is that number,
    0 for a day without events. *)
Theorem event_counts (events : list NewsEvent) (d : string) :
  d <> "" ->
  buildEventCountByDate events !! d
  = match eventsOn d events with
    | 0%nat => None
    | S _ => Some (of_nat (eventsOn d events))
    end
  /\ buildEventCountByDate events !! "" = None
  /\ forall a,
      d ∉ inheritedNames ->
      eventCount (withEvents a (buildEventCountByDate events)) d
      = of_nat (eventsOn d events).
Proof.
  intros Hd.
  pose proof (eventCount_fold_counts d events Hd 0 ∅ (lookup_empty d)) as H.
  unfold counts in H. simpl in H. fold (buildEventCountByDate events) in H.
  split; [exact H|]. split.
  - apply eventCount_fold_no_blank, lookup_empty.
  - intros a Hin. unfold eventCount, countAt. simpl. rewrite H.
    destruct (eventsOn d events) as [|n].
    + now rewrite bool_decide_eq_false_2.
    + unfold or_else. now rewrite of_nat_truthy.
Qed.

Lemma event_counts_witness :
  buildEventCountByDate
    [seenAt "20260224T120000Z"; seenAt "soon"; seenAt "2026-02-24 09:30"]
    !! "2026-02-24" = Some (Fin 2).
Proof.
  destruct (event_counts
              [seenAt "20260224T120000Z"; seenAt "soon";
               seenAt "2026-02-24 09:30"] "2026-02-24" ltac:(discriminate))
    as [H _].
  rewrite H. reflexivity.
Defined.

(** ** The further properties at work on concrete runs *)

Lemma backtest_maxDrawdown_range_witness :
  exists res,
    backtestFromSignal sqrt_floor pow_natural stopped_args = Some res
    /\ between (-1) 0 (maxDrawdown (stats res)).
Proof.
  eexists. split; [reflexivity|].
  exact (backtest_maxDrawdown_range sqrt_floor pow_natural stopped_args _
           ltac:(repeat constructor; discriminate) eq_refl eq_refl eq_refl).
Defined.

Lemma flat_signal_statistics_witness :
  exists res,
    backtestFromSignal sqrt_floor pow_natural
      (withSignal rising_args [Fin 0; Fin 0; Fin 0]) = Some res
    /\ totalReturn (stats res) = Fin 0
    /\ sharpe (stats res) = NaN.
Proof.
  eexists. split; [reflexivity|].
  destruct (flat_signal_statistics sqrt_floor pow_natural
              (withSignal rising_args [Fin 0; Fin 0; Fin 0]) _ eq_refl
              ltac:(repeat constructor) eq_refl)
    as (_ & Ht & _ & Hs).
  split; [exact Ht|exact Hs].
Defined.

Lemma clamp_into_range_witness :
  clamp NaN (Fin 0) (Fin 200) = NaN
  /\ between 0 200 (clamp (Fin 250) (Fin 0) (Fin 200)).
Proof.
  destruct (clamp_into_range NaN 0 200 ltac:(discriminate)) as (Hnan & _).
  destruct (clamp_into_range (Fin 250) 0 200 ltac:(discriminate))
    as (_ & Hb & _).
  split; [exact (Hnan eq_refl)|apply Hb; discriminate].
Defined.

Lemma gate_window_too_long_stays_out_witness :
  exists s, simulate longWindow_args = Some s
            /\ trades s = 0%nat /\ equity s = Fin 1.
Proof.
  eexists. split; [reflexivity|].
  destruct (gate_window_too_long_stays_out longWindow_args 4 _
              ltac:(simpl; lia) eq_refl eq_refl eq_refl)
    as (_ & Htr & _ & _ & _ & He).
  split; [exact Htr|exact He].
Defined.


Lemma buy_and_hold_witness :
  exists s, simulate rising_args = Some s
            /\ pos s = LONG /\ trades s = 1%nat
            /\ entryPrice s = Fin 100.
Proof.
  eexists. split; [reflexivity|].
  destruct (buy_and_hold rising_args _ rising_r0
              ltac:(intros [|[|j]] Hj; simpl in Hj; try lia; reflexivity)
              eq_refl
              ltac:(intros [|[|[|j]]]; reflexivity)
              eq_refl eq_refl)
    as (Hpos & Hentry & _ & Htr & _).
  split; [exact Hpos|]. split; [exact Htr|exact Hentry].
Defined.

Lemma entry_stopped_on_same_bar_witness :
  let s' := bar tightStop_args 1 stopped_r0 stopped_r1 init in
  pos s' = FLAT /\ trades s' = 2%nat /\ wins s' = 1%nat /\ losses s' = 0%nat
  /\ equity s' = (Fin 1 * (Fin 1 - cost tightStop_args)
                  * (Fin 1 - cost tightStop_args))%num.
Proof.
  intros s'.
  destruct (entry_stopped_on_same_bar tightStop_args 1 stopped_r0 stopped_r1
              init (Fin 2) 100 eq_refl eq_refl eq_refl eq_refl eq_refl eq_refl
              ltac:(simpl; reflexivity) eq_refl eq_refl eq_refl eq_refl)
    as (Hpos & Htr & Hw & Hl & _ & He).
  split; [exact Hpos|]. split; [exact Htr|]. split; [exact Hw|].
  split; [exact Hl|exact He].
Defined.
